(** * faster-folder: batch transcription of a folder with Whisper

    A shallow embedding of [main.py] (function [whisper_folder] and its
    nested [format_srt_time]) together with the properties of its
    orchestration logic: file discovery and ordering, the start offset,
    subtitle formatting, the per-segment progress arithmetic and the
    per-file control flow.

    Number model.  Python [int] is [Z].  Python [float] (segment times,
    audio duration, the progress accumulator) is the binary64 format of
    IEEE 754, the primitive type [PrimFloat.float]: [+], [-] and [*] round
    to nearest, ties to even, and overflow to an infinity; [int(x)] is
    truncation toward zero and raises on an infinity or a NaN.  The exact
    value of a float is a rational, [float_value]; what the library states
    about the primitive operations ([FloatAxioms]) relates them to the
    functions of [SpecFloat], about which the properties are proved.

    String model.  Python [str] is [string] (the UTF-8 bytes); comparing
    strings byte by byte orders them as Python does by code point.

    External collaborators (the file system, ffmpeg, the speech engine) are
    oracles, gathered in the record [World]; what the program does to them
    and prints is a trace of events.  The operator's interrupt, caught in
    [main], is not modelled. *)

From Stdlib Require Import ZArith QArith Qround Lqa Lia Ascii DecimalString.
From Stdlib Require Import Floats.
From Stdlib Require DecimalPos DecimalZ.
From stdpp Require Import base decidable option list strings sorting gmap.

Local Open Scope Z_scope.

(** ** Paths and exceptions *)

(** A path is its tuple of components ([PurePath.parts]); an absolute path
    has the root ["/"] as first component. *)
Record Path := mkPath { parts : list string }.

Global Instance Path_eq_dec : EqDecision Path.
Proof. solve_decision. Defined.

(** Exceptions that leave [whisper_folder]: a failed conversion
    ([check=True]), and what [with_suffix] and [int] raise. *)
Inductive Exn :=
| CalledProcessError (src : Path)
| ValueError
| OverflowError.

(** The result of an expression that may raise. *)
Inductive Try (A : Type) :=
| Ok (a : A)
| Fail (e : Exn).
Arguments Ok {A} a.
Arguments Fail {A} e.

Global Instance Try_ret : MRet Try := @Ok.
Global Instance Try_bind : MBind Try :=
  fun A B f m => match m with Ok a => f a | Fail e => Fail e end.

(** ** Python built-ins used by the program *)

Module Py.

(** [str(n)] for an [int]. *)
Definition str (n : Z) : string := NilZero.string_of_int (Z.to_int n).

(** [c * k] for a one-character string [c]. *)
Fixpoint repeat_char (c : ascii) (k : nat) : string :=
  match k with
  | O => ""
  | S k' => String c (repeat_char c k')
  end.

(** The format spec [{n:0w}] of an f-string, for an [int] [n]: the sign
    comes first, zeros fill up to width [w], digits are never cut. *)
Definition format_0w (w : nat) (n : Z) : string :=
  if n <? 0 then
    let digits := str (- n) in
    "-" +:+ repeat_char "0" (w - 1 - String.length digits) +:+ digits
  else
    let digits := str n in
    repeat_char "0" (w - String.length digits) +:+ digits.

(** [int(x)] for a [float]: truncation toward zero; [OverflowError] on
    an infinity, [ValueError] on a NaN. *)
Definition int (x : PrimFloat.float) : Try Z :=
  match Prim2SF x with
  | S754_zero _ => Ok 0
  | S754_finite s m e => Ok (cond_Zopp s (Z.shiftl (Z.pos m) e))
  | S754_infinity _ => Fail OverflowError
  | S754_nan => Fail ValueError
  end.

(** [float(n)] for an [int], implicit in mixed arithmetic: the nearest
    double, ties to even.  CPython raises [OverflowError] beyond the range
    of the doubles; the program converts only the constants 0 and 1000 and
    truncations of doubles, which are doubles. *)
Definition float (n : Z) : PrimFloat.float :=
  SF2Prim (binary_normalize prec emax n 0 false).

(** [max(a, b)]: the first argument unless the second is greater. *)
Definition max (a b : PrimFloat.float) : PrimFloat.float :=
  if (a <? b)%float then b else a.

(** [float(x or 0.0)]: [None] and the zeros are false. *)
Definition or_zero (x : option PrimFloat.float) : PrimFloat.float :=
  match x with
  | Some d => if (d =? 0)%float then 0%float else d
  | None => 0%float
  end.

(** [sep.join(lines)]. *)
Definition join (sep : string) (lines : list string) : string :=
  String.concat sep lines.

(** [s.lower()].  Only the letters A-Z are mapped: no other character
    lower-cases to a character that occurs in the extensions the program
    compares with. *)
Definition lower_char (c : ascii) : ascii :=
  let n := nat_of_ascii c in
  if ((65 <=? n) && (n <=? 90))%nat then ascii_of_nat (n + 32) else c.

Fixpoint lower (s : string) : string :=
  match s with
  | EmptyString => EmptyString
  | String c s' => String (lower_char c) (lower s')
  end.

(** [s.rfind(".")], with -1 when there is no dot. *)
Fixpoint rfind_dot_from (s : string) (i : Z) (found : Z) : Z :=
  match s with
  | EmptyString => found
  | String c s' =>
      rfind_dot_from s' (i + 1) (if Ascii.eqb c "." then i else found)
  end.

Definition rfind_dot (s : string) : Z := rfind_dot_from s 0 (-1).

(** [l[i:]] for a list. *)
Definition slice_from {A} (l : list A) (i : Z) : list A :=
  if i <? 0 then drop (Z.to_nat (Z.max 0 (Z.of_nat (length l) + i))) l
  else drop (Z.to_nat i) l.

(** The line feed, ["\n"]. *)
Definition newline : string := String (ascii_of_nat 10) EmptyString.

(** Truthiness of a string. *)
Definition truthy (s : string) : bool :=
  match s with EmptyString => false | _ => true end.

End Py.

(** ** Timestamps *)

(** [format_srt_time], nested in [whisper_folder].  Every [int(seconds)]
    gives the same number, or raises the same exception. *)
Definition format_srt_time (seconds : PrimFloat.float) : Try string :=
  whole ← Py.int seconds;
  ms ← Py.int ((seconds - Py.float whole) * Py.float 1000)%float;
  let s := whole mod 60 in
  let m := (whole / 60) mod 60 in
  let h := whole / 3600 in
  Ok (Py.format_0w 2 h +:+ ":" +:+ Py.format_0w 2 m +:+ ":" +:+ Py.format_0w 2 s
        +:+ "," +:+ Py.format_0w 3 ms).

(** ** Path operations

    The part of [pathlib] (POSIX flavour) that the program uses. *)

Module PathLib.

(** Cut a string at every separator. *)
Fixpoint split_on (sep : ascii) (s : string) : list string :=
  match s with
  | EmptyString => [""]
  | String c s' =>
      if Ascii.eqb c sep then "" :: split_on sep s'
      else match split_on sep s' with
           | [] => [String c ""]
           | w :: ws => String c w :: ws
           end
  end.

Definition is_component (w : string) : bool :=
  negb (String.eqb w "") && negb (String.eqb w ".").

Definition is_absolute_str (s : string) : bool :=
  match s with
  | String c _ => Ascii.eqb c "/"
  | EmptyString => false
  end.

(** [Path(s)]: empty and ["."] components are dropped. *)
Definition of_string (s : string) : Path :=
  let comps := List.filter is_component (split_on "/" s) in
  mkPath (if is_absolute_str s then "/" :: comps else comps).

(** [p / s]: an absolute right operand replaces the left one. *)
Definition joinpath (p : Path) (s : string) : Path :=
  if is_absolute_str s then of_string s
  else mkPath (parts p ++ parts (of_string s)).

(** The path of a directory entry, as [iterdir] builds it. *)
Definition child (dir : Path) (entry : string) : Path :=
  mkPath (parts dir ++ [entry]).

(** Whether the components are just the root. *)
Definition is_root (ps : list string) : bool :=
  match ps with
  | [r] => String.eqb r "/"
  | _ => false
  end.

(** [p.name]: the last component, unless the path is only a root. *)
Definition name (p : Path) : string :=
  if is_root (parts p) then "" else List.last (parts p) "".

(** [p.suffix]: the name from its last dot on, when that dot is neither
    the first nor the last character of the name. *)
Definition suffix (p : Path) : string :=
  let nm := name p in
  let i := Py.rfind_dot nm in
  let len := Z.of_nat (String.length nm) in
  if (0 <? i) && (i <? len - 1)
  then String.substring (Z.to_nat i) (Z.to_nat (len - i)) nm
  else "".

(** [p.with_suffix(sfx)]; [None] stands for the [ValueError] raised on a
    path with an empty name. *)
Definition with_suffix (p : Path) (sfx : string) : option Path :=
  let nm := name p in
  if String.eqb nm "" then None
  else
    let old := suffix p in
    let stem := String.substring 0 (String.length nm - String.length old) nm in
    Some (mkPath (List.removelast (parts p) ++ [stem +:+ sfx])).

(** Ordering of paths: component by component, each as a string. *)
Fixpoint compare_parts (a b : list string) : comparison :=
  match a, b with
  | [], [] => Eq
  | [], _ :: _ => Lt
  | _ :: _, [] => Gt
  | x :: a', y :: b' =>
      match String.compare x y with
      | Eq => compare_parts a' b'
      | c => c
      end
  end.

Definition compare (p q : Path) : comparison :=
  compare_parts (parts p) (parts q).

(** [p < q] and [p <= q]. *)
Definition lt (p q : Path) : Prop := compare p q = Lt.
Definition le (p q : Path) : Prop := compare p q <> Gt.

Global Instance le_dec : RelDecision le.
Proof. intros p q. unfold le. destruct (compare p q); [left|left|right]; congruence. Defined.

End PathLib.

(** ** Data of a run *)

(** The parsed command line ([args]). *)
Record Args := mkArgs {
  model : string;
  language : string;
  directory : string;
  start : Z;
  single_file : option string;
  convert_wav_only : bool;
  vad_filter : bool;
  beam_size : Z;
  chunk_length : Z;
  min_silence_ms : Z;
  compute_type : string;
  initial_prompt : string;
  keep_wav_files : bool;
  file_count : bool
}.

(** One unit of transcribed speech, as the speech engine yields it. *)
Record Segment := mkSegment {
  seg_start : PrimFloat.float;
  seg_end : PrimFloat.float;
  seg_text : string
}.

(** The keyword arguments of [model.transcribe]. *)
Record TranscribeOptions := mkTranscribeOptions {
  opt_task : string;
  opt_language : string;
  opt_chunk_length : Z;
  opt_beam_size : Z;
  opt_condition_on_previous_text : bool;
  opt_vad_filter : bool;
  opt_min_silence_duration_ms : Z;
  opt_word_timestamps : bool
}.

(** The outside world, as the program queries it. *)
Record World := mkWorld {
  (** names of the entries of a directory, in the order [iterdir] yields them *)
  listdir : Path -> list string;
  (** [p.is_file()] during discovery *)
  is_file : Path -> bool;
  (** [Path(SINGLE_FILE).exists()] during discovery *)
  exists_at_discovery : Path -> bool;
  (** [file_path.exists()] when the loop reaches the file *)
  exists_at_iteration : Path -> bool;
  (** whether ffmpeg exits with status 0 on (input, output) *)
  ffmpeg_ok : Path -> Path -> bool;
  (** the segments and [info.duration] the speech engine produces *)
  transcribe : Path -> TranscribeOptions -> list Segment * option PrimFloat.float;
  (** [out_wav.is_file()] at cleanup *)
  is_file_at_cleanup : Path -> bool
}.

(** What the program prints. *)
Inductive Message :=
| MsgStartingFrom (n : Z)
| MsgTotalFiles (n : Z)
| MsgStartOutOfRange
| MsgLoadingModel (m : string)
| MsgSkipping (name : string)
| MsgFileNoLongerExists
| MsgProcessing (count total : Z) (p : Path)
| MsgConverting (count total : Z)
| MsgConversionDone (count total : Z) (wav : Path)
| MsgStartingWhisper (count total : Z)
| MsgTranscribing (wav : Path)
| MsgEmptyTranscript
| MsgBlank
| MsgStartingWriting
| MsgWrote (p : Path)
| MsgDone (count total : Z)
| MsgGoodbye.

(** What the program does to the outside world, in order. *)
Inductive Event :=
| Print (m : Message)
| PbarFilesNew (total initial : Z)
| PbarFilesUpdate (n : Z)
| PbarFilesClose
| LoadModel (m compute : string)
| Ffmpeg (src dst : Path)
| Transcribe (wav : Path) (opts : TranscribeOptions)
| PbarAudioNew (total : Z)
| PbarAudioUpdate (n : Z)
| PbarAudioClose
| WriteText (p : Path) (content : string)
| Unlink (p : Path).

(** ** The segment loop (lines 162-215) *)

(** The local variables the loop over [segments] updates; [pbar_n] is
    [pbar_audio.n] and [pbar_updates] the arguments of the calls of
    [pbar_audio.update], oldest first.  [raised] is the exception that
    ended the loop, if one did: the other fields are then those of the
    last iteration that completed, which is all that the calls of
    [pbar_audio.update] depend on; nothing reads the local variables once
    the exception leaves the loop. *)
Record LoopState := mkLoopState {
  srt_lines : list string;
  txt_lines : list string;
  index : Z;
  last_end : PrimFloat.float;
  progress_accumulation : PrimFloat.float;
  pbar_n : Z;
  pbar_updates : list Z;
  raised : option Exn
}.

Definition loop_init : LoopState :=
  {| srt_lines := []; txt_lines := []; index := 1; last_end := Py.float 0;
     progress_accumulation := 0%float; pbar_n := 0; pbar_updates := [];
     raised := None |}.

(** Lines 202-210: the progress arithmetic for a segment that ends at
    [seg_end_time]. *)
Definition progress_step (st : LoopState) (seg_end_time : PrimFloat.float)
    : Try LoopState :=
  let delta := Py.max 0%float (seg_end_time - last_end st)%float in
  let acc := (progress_accumulation st + delta)%float in
  whole_seconds ← Py.int acc;
  Ok (if 0 <? whole_seconds then
        {| srt_lines := srt_lines st; txt_lines := txt_lines st;
           index := index st; last_end := seg_end_time;
           progress_accumulation := (acc - Py.float whole_seconds)%float;
           pbar_n := pbar_n st + whole_seconds;
           pbar_updates := pbar_updates st ++ [whole_seconds];
           raised := raised st |}
      else
        {| srt_lines := srt_lines st; txt_lines := txt_lines st;
           index := index st; last_end := seg_end_time;
           progress_accumulation := acc;
           pbar_n := pbar_n st; pbar_updates := pbar_updates st;
           raised := raised st |}).

(** Lines 185-195: the four lines of a subtitle block. *)
Definition srt_block (idx : Z) (seg : Segment) : Try (list string) :=
  start_time ← format_srt_time (seg_start seg);
  end_time ← format_srt_time (seg_end seg);
  Ok [ Py.str idx; start_time +:+ " --> " +:+ end_time; seg_text seg; "" ].

(** Lines 185-215: the loop body for a segment with text. *)
Definition segment_body (st : LoopState) (seg : Segment) : Try LoopState :=
  block ← srt_block (index st) seg;
  let st1 :=
    {| srt_lines := srt_lines st ++ block;
       txt_lines := txt_lines st ++ [seg_text seg];
       index := index st; last_end := last_end st;
       progress_accumulation := progress_accumulation st;
       pbar_n := pbar_n st; pbar_updates := pbar_updates st;
       raised := raised st |} in
  st2 ← progress_step st1 (seg_end seg);
  Ok {| srt_lines := srt_lines st2; txt_lines := txt_lines st2;
        index := index st2 + 1; last_end := last_end st2;
        progress_accumulation := progress_accumulation st2;
        pbar_n := pbar_n st2; pbar_updates := pbar_updates st2;
        raised := raised st2 |}.

(** The loop is left with the exception [e]. *)
Definition leave_loop (e : Exn) (st : LoopState) : LoopState :=
  {| srt_lines := srt_lines st; txt_lines := txt_lines st; index := index st;
     last_end := last_end st; progress_accumulation := progress_accumulation st;
     pbar_n := pbar_n st; pbar_updates := pbar_updates st; raised := Some e |}.

(** One iteration of the loop (lines 182-215); none once an exception has
    ended the loop. *)
Definition segment_step (st : LoopState) (seg : Segment) : LoopState :=
  match raised st with
  | Some _ => st
  | None =>
      if negb (Py.truthy (seg_text seg)) then st
      else match segment_body st seg with
           | Ok st' => st'
           | Fail e => leave_loop e st
           end
  end.

(** The whole loop, from a given state. *)
Definition consume_segments (st : LoopState) (segments : list Segment) : LoopState :=
  fold_left segment_step segments st.

(** ** Control flow of the file loop

    A computation reads and writes the variable [count], appends to the
    trace of events and ends normally, with [continue] or with an
    exception. *)

Inductive Ctl (A : Type) :=
| Normal (a : A)
| Continue
| Raise (e : Exn).
Arguments Normal {A} a.
Arguments Continue {A}.
Arguments Raise {A} e.

Definition M (A : Type) : Type := Z -> Ctl A * Z * list Event.

Definition ret {A} (a : A) : M A := fun c => (Normal a, c, []).

Definition bind {A B} (m : M A) (k : A -> M B) : M B :=
  fun c =>
    let '(r, c1, l1) := m c in
    match r with
    | Normal a => let '(r2, c2, l2) := k a c1 in (r2, c2, l1 ++ l2)
    | Continue => (Continue, c1, l1)
    | Raise e => (Raise e, c1, l1)
    end.

Declare Scope prog_scope.
Delimit Scope prog_scope with prog.
Bind Scope prog_scope with M.
Notation "x <- m ;; k" := (bind m (fun x => k))
  (at level 100, m at next level, k at level 200, right associativity) : prog_scope.
Notation "m ;; k" := (bind m (fun _ => k))
  (at level 100, k at level 200, right associativity) : prog_scope.
Local Open Scope prog_scope.

Definition emit (e : Event) : M unit := fun c => (Normal tt, c, [e]).
Definition emit_all (es : list Event) : M unit := fun c => (Normal tt, c, es).
Definition print (m : Message) : M unit := emit (Print m).
Definition get_count : M Z := fun c => (Normal c, c, []).
Definition set_count (n : Z) : M unit := fun _ => (Normal tt, n, []).
Definition incr_count : M unit := fun c => (Normal tt, c + 1, []).
Definition continue_ {A} : M A := fun c => (Continue, c, []).
Definition raise {A} (e : Exn) : M A := fun c => (Raise e, c, []).

(** An expression that may raise, as a step of a computation. *)
Definition try_ {A} (t : Try A) : M A :=
  match t with
  | Ok a => ret a
  | Fail e => raise e
  end.

(** [for x in xs: body]: [continue] ends one iteration, an exception ends
    the loop. *)
Fixpoint for_each {A} (body : A -> M unit) (xs : list A) : M unit :=
  match xs with
  | [] => ret tt
  | x :: xs' =>
      fun c =>
        let '(r, c1, l1) := body x c in
        match r with
        | Raise e => (Raise e, c1, l1)
        | _ => let '(r2, c2, l2) := for_each body xs' c1 in (r2, c2, l1 ++ l2)
        end
  end.

(** ** The program *)

Definition AUDIO_EXTS : gset string :=
  {[ ".mp3"; ".wav"; ".m4a"; ".flac"; ".avi"; ".mp4"; ".ts" ]}.

Definition SKIP_FILES : gset string := {[ "00. Professor.avi" ]}.

Section Program.

Variable world : World.
Variable args : Args.

Definition AUDIO_DIR : Path := PathLib.of_string (directory args).
Definition START : Z := start args - 1.

(** Lines 55-66: file discovery. *)
Definition is_audio (p : Path) : bool :=
  is_file world p && bool_decide (Py.lower (PathLib.suffix p) ∈ AUDIO_EXTS).

Definition scan_directory : list Path :=
  merge_sort PathLib.le
    (List.filter is_audio (PathLib.child AUDIO_DIR <$> listdir world AUDIO_DIR)).

Definition discover : list Path :=
  match single_file args with
  | Some sf =>
      if Py.truthy sf then
        let file := PathLib.of_string sf in
        if exists_at_discovery world file then [file]
        else [PathLib.joinpath AUDIO_DIR sf]
      else scan_directory
  | None => scan_directory
  end.

Definition transcribe_options : TranscribeOptions :=
  {| opt_task := "transcribe";
     opt_language := language args;
     opt_chunk_length := chunk_length args;
     opt_beam_size := beam_size args;
     opt_condition_on_previous_text := false;
     opt_vad_filter := vad_filter args;
     opt_min_silence_duration_ms := min_silence_ms args;
     opt_word_timestamps := false |}.

(** Lines 110-137: conversion; the result is [created_wav_file]. *)
Definition convert_stage (total_files : Z) (file_path out_wav : Path) : M bool :=
  if negb (String.eqb (Py.lower (PathLib.suffix file_path)) ".wav") then
    emit (Ffmpeg file_path out_wav) ;;
    (if ffmpeg_ok world file_path out_wav then ret tt
     else raise (CalledProcessError file_path)) ;;
    count <- get_count ;;
    print (MsgConversionDone count total_files out_wav) ;;
    (if convert_wav_only args then incr_count ;; continue_ else ret tt) ;;
    ret true
  else ret false.

(** Lines 216-239: what follows the segment loop. *)
Definition finish_stage (total_files : Z) (out_wav : Path)
    (created_wav_file : bool) (pbar_total : Z) (st : LoopState) : M unit :=
  let remaining := pbar_total - pbar_n st in
  if 0 <? remaining then
    emit (PbarAudioUpdate remaining) ;;
    (match srt_lines st with
     | [] => print MsgEmptyTranscript ;; incr_count ;; continue_
     | _ :: _ => ret tt
     end) ;;
    print MsgBlank ;;
    out_txt <- (match PathLib.with_suffix out_wav ".txt" with
                | Some p => ret p | None => raise ValueError end) ;;
    out_srt <- (match PathLib.with_suffix out_wav ".srt" with
                | Some p => ret p | None => raise ValueError end) ;;
    print MsgStartingWriting ;;
    emit (WriteText out_txt (Py.join Py.newline (txt_lines st))) ;;
    emit (WriteText out_srt (Py.join Py.newline (srt_lines st))) ;;
    print (MsgWrote out_txt) ;;
    print (MsgWrote out_srt) ;;
    count <- get_count ;;
    print (MsgDone count total_files) ;;
    (if created_wav_file && negb (keep_wav_files args)
        && is_file_at_cleanup world out_wav
     then emit (Unlink out_wav) else ret tt) ;;
    incr_count
  else ret tt.

(** Lines 139-215: transcription and the segment loop; the result is
    [pbar_audio.total] and the state the loop ends in.  [int(total_duration)]
    is evaluated before the inner bar exists; an exception in the loop
    leaves the [with] block, which closes the bar. *)
Definition transcribe_stage (total_files : Z) (out_wav : Path)
    : M (Z * LoopState) :=
  count <- get_count ;;
  print (MsgStartingWhisper count total_files) ;;
  print (MsgTranscribing out_wav) ;;
  emit (Transcribe out_wav transcribe_options) ;;
  let '(segments, info_duration) := transcribe world out_wav transcribe_options in
  let total_duration := Py.or_zero info_duration in
  pbar_total <- try_ (Py.int total_duration) ;;
  emit (PbarAudioNew pbar_total) ;;
  let st := consume_segments loop_init segments in
  emit_all (PbarAudioUpdate <$> pbar_updates st) ;;
  emit PbarAudioClose ;;
  match raised st with
  | Some e => raise e
  | None => ret (pbar_total, st)
  end.

(** Lines 94-240: the body of the loop over the files. *)
Definition process_file (total_files : Z) (file_path : Path) : M unit :=
  if bool_decide (PathLib.name file_path ∈ SKIP_FILES) then
    print (MsgSkipping (PathLib.name file_path)) ;; incr_count ;; continue_
  else if negb (exists_at_iteration world file_path) then
    print MsgFileNoLongerExists ;; incr_count ;; continue_
  else
    count <- get_count ;;
    print (MsgProcessing count total_files file_path) ;;
    print (MsgConverting count total_files) ;;
    out_wav <- (match PathLib.with_suffix file_path ".wav" with
                | Some p => ret p | None => raise ValueError end) ;;
    created_wav_file <- convert_stage total_files file_path out_wav ;;
    result <- transcribe_stage total_files out_wav ;;
    let '(pbar_total, st) := result in
    finish_stage total_files out_wav created_wav_file pbar_total st ;;
    emit (PbarFilesUpdate 1).

(** Lines 52-243. *)
Definition whisper_folder : M unit :=
  print (MsgStartingFrom (START + 1)) ;;
  let files := discover in
  let total_files := Z.of_nat (length files) in
  if file_count args then print (MsgTotalFiles total_files)
  else if (START <? 0) || (Z.of_nat (length files) - 1 <? START) then
    print MsgStartOutOfRange
  else
    emit (PbarFilesNew total_files START) ;;
    set_count (START + 1) ;;
    print (MsgLoadingModel (model args)) ;;
    emit (LoadModel (model args) (compute_type args)) ;;
    for_each (process_file total_files) (Py.slice_from files START) ;;
    emit PbarFilesClose ;;
    print MsgGoodbye.

(** The trace of a run; [count] has no value before line 88. *)
Definition run : Ctl unit * list Event :=
  let '(r, _, l) := whisper_folder 0 in (r, l).

End Program.

(** ** Floats as numbers

    The exact value of a float and the vocabulary of rounding. *)

(** [2^e] for an integer [e] of any sign. *)
Definition pow2 (e : Z) : Q :=
  if e <? 0 then 1 # (2 ^ Z.to_pos (- e))%positive else inject_Z (2 ^ e).

(** The value of a finite float; 0 for the infinities and NaN. *)
Definition SF2Q (x : spec_float) : Q :=
  match x with
  | S754_finite s m e => inject_Z (cond_Zopp s (Z.pos m)) * pow2 e
  | _ => 0
  end.

(** A zero or a finite number. *)
Definition SFfinite (x : spec_float) : bool :=
  match x with
  | S754_zero _ | S754_finite _ _ _ => true
  | _ => false
  end.

(** A zero or a positive finite number. *)
Definition SFnonneg (x : spec_float) : bool :=
  match x with
  | S754_zero _ | S754_finite false _ _ => true
  | _ => false
  end.

Definition float_value (x : PrimFloat.float) : Q := SF2Q (Prim2SF x).
Definition float_finite (x : PrimFloat.float) : bool := SFfinite (Prim2SF x).
Definition float_nonneg (x : PrimFloat.float) : bool := SFnonneg (Prim2SF x).

(** The exponent of the binary64 number with the given magnitude. *)
Abbreviation fexp64 := (fexp prec emax).

(** Round to nearest, ties to even, of [m / 2^n], for [0 <= m] and [0 < n]. *)
Definition rne (m n : Z) : Z :=
  let q := m / 2 ^ n in
  let r := m mod 2 ^ n in
  let h := 2 ^ (n - 1) in
  if r <? h then q
  else if h <? r then q + 1
  else if Z.even q then q else q + 1.

(** What [k] right shifts keep of [m]: the quotient, and how the remainder
    compares with one half. *)
Definition shifted (m : Z) (k : Z) (st : shr_record) : Prop :=
  shr_m st = m / 2 ^ k
  /\ (shr_r st = true <-> 2 ^ (k - 1) <= m mod 2 ^ k)
  /\ (shr_s st = true <-> m mod 2 ^ k <> 0 /\ m mod 2 ^ k <> 2 ^ (k - 1)).

(** [r] is the binary64 rounding of the exact value [(-1)^s * m * 2^e],
    for [0 < m]: the mantissa [R] of the result on the grid of exponent
    [G] is nearest to the exact one and lies on the same side of every
    grid point; the result is infinite only beyond the largest float. *)
Definition is_rounding (s : bool) (m e : Z) (r : spec_float) : Prop :=
  let G := Z.max (fexp64 (Zdigits2 m + e)) e in
  exists R : Z,
    0 <= R
    /\ (forall K, K * 2 ^ (G - e) <= m -> K <= R)
    /\ (forall K, m <= K * 2 ^ (G - e) -> R <= K)
    /\ 2 * Z.abs (R * 2 ^ (G - e) - m) <= 2 ^ (G - e)
    /\ ((r = S754_infinity s /\ (971 < G \/ (G = 971 /\ R = 2 ^ 53)))
        \/ (SFfinite r = true
            /\ (SF2Q r == inject_Z (cond_Zopp s R) * pow2 G)%Q
            /\ (r = S754_zero s \/ exists m' e', r = S754_finite s m' e'))).

(** A positive float within the bounds of the format. *)
Definition SFpos_bounds (x : spec_float) (m : positive) (e : Z) : Prop :=
  x = S754_finite false m e /\ -1074 <= e <= 971 /\ Z.pos m < 2 ^ 53.

(** The float 1000.0. *)
Definition SF_thousand : spec_float := S754_finite false 8796093022208000 (-43).

(** ** Vocabulary of the specification *)

(** Whether a single-file override is in force. *)
Definition single_file_given (args : Args) : bool :=
  match single_file args with
  | Some sf => Py.truthy sf
  | None => false
  end.

(** The recognized extensions, as the specification lists them. *)
Definition recognized_extensions : list string :=
  [".mp3"; ".wav"; ".m4a"; ".flac"; ".avi"; ".mp4"; ".ts"].

(** A numeral padded on the left with zeros up to a width. *)
Definition zero_pad (w : nat) (digits : string) : string :=
  Py.repeat_char "0" (w - String.length digits) +:+ digits.

(** A segment the loop does not skip. *)
Definition has_text (seg : Segment) : bool := Py.truthy (seg_text seg).

(** The end time of the last segment the progress arithmetic has seen:
    the last one with text, 0 before the first. *)
Definition last_seen_end (segments : list Segment) : Q :=
  List.last (float_value ∘ seg_end <$> List.filter has_text segments) 0%Q.

(** Sum of the arguments of the update calls. *)
Definition sum_updates (updates : list Z) : Z := foldr Z.add 0 updates.

(** What the segment loop maintains whatever the segments are: the bar
    position is the sum of the updates issued, every update is a positive
    number of whole seconds, and the remainder is a float in [0, 1). *)
Definition progress_inv (st : LoopState) : Prop :=
  pbar_n st = sum_updates (pbar_updates st)
  /\ Forall (fun u => 0 < u) (pbar_updates st)
  /\ float_nonneg (progress_accumulation st) = true
  /\ (float_value (progress_accumulation st) < 1)%Q.

(** How far position plus remainder is from the last end time seen. *)
Definition drift (st : LoopState) : Q :=
  (inject_Z (pbar_n st) + float_value (progress_accumulation st)
   - float_value (last_end st))%Q.

(** The lines of a subtitle document: one block per segment, numbered
    from [first] on. *)
Fixpoint blocks_from (first : Z) (kept : list Segment) : Try (list string) :=
  match kept with
  | [] => Ok []
  | seg :: rest =>
      block ← srt_block first seg;
      blocks ← blocks_from (first + 1) rest;
      Ok (block ++ blocks)
  end.

(** Kinds of events. *)
Definition is_ffmpeg (e : Event) : bool :=
  match e with Ffmpeg _ _ => true | _ => false end.
Definition is_unlink (e : Event) : bool :=
  match e with Unlink _ => true | _ => false end.
Definition is_write (e : Event) : bool :=
  match e with WriteText _ _ => true | _ => false end.
Definition is_transcribe (e : Event) : bool :=
  match e with Transcribe _ _ => true | _ => false end.
Definition is_tick (e : Event) : bool :=
  match e with PbarFilesUpdate _ => true | _ => false end.

(** The trace, the outcome and the final [count] of a computation started
    with [count = c]. *)
Definition trace_of {A} (m : M A) (c : Z) : list Event := (m c).2.
Definition outcome_of {A} (m : M A) (c : Z) : Ctl A := (m c).1.1.
Definition count_of {A} (m : M A) (c : Z) : Z := (m c).1.2.

(** Every event of a computation satisfies [Q] and a normal result
    satisfies [R]. *)
Definition post {A} (m : M A) (Q : Event -> Prop) (R : A -> Prop) : Prop :=
  forall c, Forall Q (trace_of m c)
            /\ (forall a, outcome_of m c = Normal a -> R a).

(** Whether the extension of a path is [.wav], whatever the case. *)
Definition is_wav (p : Path) : bool :=
  String.eqb (Py.lower (PathLib.suffix p)) ".wav".

(** The run parameters with the conversion-only flag set to [b]. *)
Definition with_convert_wav_only (b : bool) (args : Args) : Args :=
  {| model := model args; language := language args;
     directory := directory args; start := start args;
     single_file := single_file args; convert_wav_only := b;
     vad_filter := vad_filter args; beam_size := beam_size args;
     chunk_length := chunk_length args; min_silence_ms := min_silence_ms args;
     compute_type := compute_type args; initial_prompt := initial_prompt args;
     keep_wav_files := keep_wav_files args; file_count := file_count args |}.

(** The converter is only ever given inputs whose extension is not
    [.wav]. *)
Definition converts_other_extensions (e : Event) : Prop :=
  match e with
  | Ffmpeg src _ => is_wav src = false
  | _ => True
  end.

(** The calls that advance the outer bar, as a file leaves the loop body:
    one after falling through the body, none otherwise. *)
Definition ticks_expected {A} (r : Ctl A) : list Event :=
  match r with
  | Normal _ => [PbarFilesUpdate 1]
  | _ => []
  end.

(** ** Sample runs *)

(** The defaults of the command line. *)
Definition default_args : Args :=
  {| model := "medium"; language := "en"; directory := "./"; start := 1;
     single_file := None; convert_wav_only := false; vad_filter := false;
     beam_size := 1; chunk_length := 60; min_silence_ms := 2500;
     compute_type := "auto"; initial_prompt := "transcribe";
     keep_wav_files := false; file_count := false |}.

(** Three segments, the middle one without text. *)
Definition sample_segments : list Segment :=
  [ mkSegment 0 1.5 " Good morning.";
    mkSegment 1.5 2.5 "";
    mkSegment 2.5 10.5 " Let us begin." ]%float.

(** A folder with four entries; every recording has the same transcript,
    12.5 seconds long, except [b.mp3], whose transcript has no text. *)
Definition sample_world : World :=
  {| listdir := fun _ => ["b.mp3"; "a.WAV"; "notes.txt"; "c.ts"];
     is_file := fun _ => true;
     exists_at_discovery := fun _ => true;
     exists_at_iteration := fun _ => true;
     ffmpeg_ok := fun _ _ => true;
     transcribe := fun wav _ =>
       if String.eqb (PathLib.name wav) "b.wav"
       then ([mkSegment 0 4 ""], Some 4%float)
       else (sample_segments, Some 12.5%float);
     is_file_at_cleanup := fun _ => true |}.

(** A folder with one recording of exactly ten seconds whose single
    segment ends at ten seconds. *)
Definition exact_fit_world : World :=
  {| listdir := fun _ => ["talk.wav"];
     is_file := fun _ => true;
     exists_at_discovery := fun _ => true;
     exists_at_iteration := fun _ => true;
     ffmpeg_ok := fun _ _ => true;
     transcribe := fun _ _ => ([mkSegment 0 10 " Hello."], Some 10%float);
     is_file_at_cleanup := fun _ => true |}.

(** A folder whose only recording is on the skip list. *)
Definition skip_world : World :=
  {| listdir := fun _ => ["00. Professor.avi"];
     is_file := fun _ => true;
     exists_at_discovery := fun _ => true;
     exists_at_iteration := fun _ => true;
     ffmpeg_ok := fun _ _ => true;
     transcribe := fun _ _ => (sample_segments, Some 12.5%float);
     is_file_at_cleanup := fun _ => true |}.

(** ** Vocabulary for whole runs *)

(** More kinds of events. *)
Definition is_load_model (e : Event) : bool :=
  match e with LoadModel _ _ => true | _ => false end.

(** What processing the file [f] may do to the outside world: convert [f]
    itself, and only when its extension is not [.wav]; transcribe the WAV
    beside it; write the [.txt] and [.srt] beside that WAV; delete that
    WAV, and only when this run made it, the WAVs are not to be kept and it
    is still a file.  Messages and progress bars are unrestricted, except
    that the model is not loaded and the outer bar is neither created nor
    closed while a file is processed. *)
Definition file_effect (world : World) (args : Args) (f : Path) (e : Event) : Prop :=
  match e with
  | Print _ | PbarAudioNew _ | PbarAudioUpdate _ | PbarAudioClose => True
  | PbarFilesUpdate n => n = 1
  | PbarFilesNew _ _ | PbarFilesClose | LoadModel _ _ => False
  | Ffmpeg src dst =>
      src = f /\ is_wav f = false /\ PathLib.with_suffix f ".wav" = Some dst
  | Transcribe wav opts =>
      PathLib.with_suffix f ".wav" = Some wav /\ opts = transcribe_options args
  | WriteText p _ =>
      exists wav, PathLib.with_suffix f ".wav" = Some wav
                  /\ (PathLib.with_suffix wav ".txt" = Some p
                      \/ PathLib.with_suffix wav ".srt" = Some p)
  | Unlink p =>
      PathLib.with_suffix f ".wav" = Some p /\ is_wav f = false
      /\ keep_wav_files args = false /\ is_file_at_cleanup world p = true
  end.

(** What a whole run may do: what the loop does for some file of the
    queue, and the events around the loop. *)
Definition run_effect (world : World) (args : Args) (e : Event) : Prop :=
  match e with
  | Print _ | PbarFilesNew _ _ | PbarFilesClose | LoadModel _ _ => True
  | _ => exists f, f ∈ discover world args /\ file_effect world args f e
  end.

(** The message a file gets when the loop passes over it. *)
Definition passed_over_message (f : Path) : Event :=
  if bool_decide (PathLib.name f ∈ SKIP_FILES)
  then Print (MsgSkipping (PathLib.name f))
  else Print MsgFileNoLongerExists.

(** A file the loop passes over: on the skip list, or gone when its turn
    comes. *)
Definition passed_over (world : World) (f : Path) : bool :=
  bool_decide (PathLib.name f ∈ SKIP_FILES) || negb (exists_at_iteration world f).

(** Events that belong to the frame of a run, not to a file. *)
Definition is_frame (e : Event) : bool :=
  match e with
  | PbarFilesNew _ _ | PbarFilesClose | LoadModel _ _ => true
  | _ => false
  end.

(** The events of a processing run before the loop. *)
Definition run_header (args : Args) (total : Z) : list Event :=
  [Print (MsgStartingFrom (start args));
   PbarFilesNew total (start args - 1);
   Print (MsgLoadingModel (model args));
   LoadModel (model args) (compute_type args)].

(** The events of a run after the loop, which an exception cuts off. *)
Definition run_footer {A} (r : Ctl A) : list Event :=
  match r with
  | Raise _ => []
  | _ => [PbarFilesClose; Print MsgGoodbye]
  end.

(** The outcome of a run whose loop ended with [r]. *)
Definition run_outcome (r : Ctl unit) : Ctl unit :=
  match r with
  | Raise e => Raise e
  | _ => Normal tt
  end.

(** Whether the start position lies in the queue. *)
Definition start_in_range (world : World) (args : Args) : bool :=
  (1 <=? start args) && (start args <=? Z.of_nat (length (discover world args))).

(** The counter after a file, from the counter [c] before it: advanced by
    one when the file was passed over, only converted, found empty or
    written; left alone otherwise. *)
Definition count_expected {A} (c : Z) (r : Ctl A) (trace : list Event) : Z :=
  match r with
  | Raise _ => c
  | Continue => c + 1
  | Normal _ => if existsb is_write trace then c + 1 else c
  end.

(** A step that writes nothing and leaves the counter alone unless it ends
    with [continue], which it does after advancing the counter. *)
Definition count_neutral {A} (m : M A) : Prop :=
  forall c, existsb is_write (trace_of m c) = false
            /\ count_of m c
               = match outcome_of m c with Continue => c + 1 | _ => c end.

(** ** More of [pathlib], to speak about the names of the outputs *)

(** [p.stem]: the name without its suffix. *)
Definition stem (p : Path) : string :=
  String.substring 0
    (String.length (PathLib.name p) - String.length (PathLib.suffix p))
    (PathLib.name p).

(** The components of [p.parent]. *)
Definition parent_parts (p : Path) : list string := List.removelast (parts p).

(** The suffixes the program asks for. *)
Definition output_suffix (sfx : string) : Prop :=
  sfx = ".wav" \/ sfx = ".txt" \/ sfx = ".srt".

(** ** Reading the documents back *)

(** A run of decimal digits as a number; [None] for anything else. *)
Definition parse_digits (s : string) : option Z :=
  Z.of_uint <$> NilZero.uint_of_string s.

(** Whether the character at position [i] of [s] is [c]. *)
Definition char_at (i : nat) (c : ascii) (s : string) : bool :=
  match String.get i s with
  | Some c' => Ascii.eqb c' c
  | None => false
  end.

(** A subtitle timestamp [H..H:MM:SS,mmm] as a number of milliseconds. *)
Definition parse_srt_time (s : string) : option Z :=
  let n := (String.length s - 10)%nat in
  if (12 <=? String.length s)%nat
     && char_at n ":" s && char_at (n + 3) ":" s && char_at (n + 6) "," s
  then
    h ← parse_digits (String.substring 0 n s);
    m ← parse_digits (String.substring (n + 1) 2 s);
    sec ← parse_digits (String.substring (n + 4) 2 s);
    ms ← parse_digits (String.substring (n + 7) 3 s);
    Some (((h * 60 + m) * 60 + sec) * 1000 + ms)
  else None.

(** [doc.split("\n")]: the lines of a document. *)
Definition lines_of (doc : string) : list string :=
  PathLib.split_on (ascii_of_nat 10) doc.

(** A string without a line feed. *)
Fixpoint one_line (s : string) : bool :=
  match s with
  | EmptyString => true
  | String c s' => negb (Ascii.eqb c (ascii_of_nat 10)) && one_line s'
  end.

(** ** More sample runs *)

(** The defaults with single flags changed. *)
Definition keep_args : Args :=
  {| model := "medium"; language := "en"; directory := "./"; start := 1;
     single_file := None; convert_wav_only := false; vad_filter := false;
     beam_size := 1; chunk_length := 60; min_silence_ms := 2500;
     compute_type := "auto"; initial_prompt := "transcribe";
     keep_wav_files := true; file_count := false |}.

Definition count_args : Args :=
  {| model := "medium"; language := "en"; directory := "./"; start := 1;
     single_file := None; convert_wav_only := false; vad_filter := false;
     beam_size := 1; chunk_length := 60; min_silence_ms := 2500;
     compute_type := "auto"; initial_prompt := "transcribe";
     keep_wav_files := false; file_count := true |}.

Definition convert_only_args : Args :=
  {| model := "medium"; language := "en"; directory := "./"; start := 1;
     single_file := None; convert_wav_only := true; vad_filter := false;
     beam_size := 1; chunk_length := 60; min_silence_ms := 2500;
     compute_type := "auto"; initial_prompt := "transcribe";
     keep_wav_files := false; file_count := false |}.

(** One named file, and a start position beyond it. *)
Definition single_args : Args :=
  {| model := "medium"; language := "en"; directory := "./"; start := 2;
     single_file := Some "talk.mp3"; convert_wav_only := false;
     vad_filter := false; beam_size := 1; chunk_length := 60;
     min_silence_ms := 2500; compute_type := "auto";
     initial_prompt := "transcribe"; keep_wav_files := false;
     file_count := false |}.

(** A folder without any recording. *)
Definition empty_world : World :=
  {| listdir := fun _ => ["notes.txt"; "cover.png"];
     is_file := fun _ => true;
     exists_at_discovery := fun _ => true;
     exists_at_iteration := fun _ => true;
     ffmpeg_ok := fun _ _ => true;
     transcribe := fun _ _ => (sample_segments, Some 12.5%float);
     is_file_at_cleanup := fun _ => true |}.

(** A folder where [gone.mp3] disappears before its turn and the
    conversion of [c.ts] fails. *)
Definition trouble_world : World :=
  {| listdir := fun _ => ["gone.mp3"; "d.mp4"; "a.mp3"; "c.ts"];
     is_file := fun _ => true;
     exists_at_discovery := fun _ => true;
     exists_at_iteration := fun p => negb (String.eqb (PathLib.name p) "gone.mp3");
     ffmpeg_ok := fun src _ => negb (String.eqb (PathLib.name src) "c.ts");
     transcribe := fun _ _ => (sample_segments, Some 12.5%float);
     is_file_at_cleanup := fun _ => true |}.

(** ** The iterations of the loop over the files *)

(** The iterations the loop over [xs] goes through when it starts with
    [count = c]: each element it reaches, with the value of [count] it is
    reached with.  An exception ends the loop. *)
Fixpoint iterations {A} (body : A -> M unit) (xs : list A) (c : Z) : list (A * Z) :=
  match xs with
  | [] => []
  | x :: xs' =>
      (x, c) :: match outcome_of (body x) c with
                | Raise _ => []
                | _ => iterations body xs' (count_of (body x) c)
                end
  end.

(** The message the iteration for the file [f] starts with. *)
Definition first_message (world : World) (total : Z) (f : Path) (c : Z) : Event :=
  if bool_decide (PathLib.name f ∈ SKIP_FILES)
  then Print (MsgSkipping (PathLib.name f))
  else if negb (exists_at_iteration world f) then Print MsgFileNoLongerExists
  else Print (MsgProcessing c total f).

(** Conversions and deletions. *)
Definition is_conversion_or_deletion (e : Event) : bool :=
  is_ffmpeg e || is_unlink e.

(** ** Sample inputs for the rounding of binary64 and for colliding names *)


(** Three segments with text that end at the floats nearest to 1.22 and
    3.4, and at 6.0. *)
Definition drifting_segments : list Segment :=
  [ mkSegment 0 0x1.3851eb851eb85p+0 " One.";
    mkSegment 0x1.3851eb851eb85p+0 0x1.b333333333333p+1 " Two.";
    mkSegment 0x1.b333333333333p+1 6 " Three." ]%float.

(** A segment that ends before the audio starts, and one whose start is
    not a number. *)
Definition early_segments : list Segment :=
  [ mkSegment (-2) (-1) " Early." ]%float.

Definition unnumbered_segments : list Segment :=
  [ mkSegment nan 2 " Lost." ]%float.

(** A folder that holds a recording in two formats, [a.mp3] and [a.wav];
    [a.wav] is gone when its turn comes. *)
Definition sibling_world : World :=
  {| listdir := fun _ => ["a.mp3"; "a.wav"];
     is_file := fun _ => true;
     exists_at_discovery := fun _ => true;
     exists_at_iteration := fun p => negb (String.eqb (PathLib.name p) "a.wav");
     ffmpeg_ok := fun _ _ => true;
     transcribe := fun _ _ => (sample_segments, Some 12.5%float);
     is_file_at_cleanup := fun _ => true |}.

(** The count-only query with a start position beyond any queue here. *)
Definition count_beyond_args : Args :=
  {| model := "medium"; language := "en"; directory := "./"; start := 99;
     single_file := None; convert_wav_only := false; vad_filter := false;
     beam_size := 1; chunk_length := 60; min_silence_ms := 2500;
     compute_type := "auto"; initial_prompt := "transcribe";
     keep_wav_files := false; file_count := true |}.

(** * Properties

    ** Binary64 arithmetic *)


Section Pow2.

Lemma pos_pow_Z (p : positive) : Z.pos (2 ^ p) = 2 ^ Z.pos p.
Proof. by rewrite Pos2Z.inj_pow. Qed.

Lemma pow2_neg (e : Z) : e < 0 -> (pow2 e * inject_Z (2 ^ (- e)) == 1)%Q.
Proof.
  intros He. unfold pow2. destruct (Z.ltb_spec e 0); [|lia].
  unfold Qeq, Qmult, inject_Z. cbn [Qnum Qden]. rewrite ?Pos2Z.inj_mul.
  rewrite pos_pow_Z, Z2Pos.id by lia. lia.
Qed.

Lemma pow2_nonneg (e : Z) : 0 <= e -> pow2 e = inject_Z (2 ^ e).
Proof. intros He. unfold pow2. by destruct (Z.ltb_spec e 0); [lia|]. Qed.

Lemma pow2_pos (e : Z) : (0 < pow2 e)%Q.
Proof.
  unfold pow2. destruct (Z.ltb_spec e 0).
  - done.
  - change 0%Q with (inject_Z 0). rewrite <- Zlt_Qlt. by apply Z.pow_pos_nonneg.
Qed.

Lemma pow2_add (a b : Z) : (pow2 (a + b) == pow2 a * pow2 b)%Q.
Proof.
  assert (H : forall a b, 0 <= b -> (pow2 (a + b) == pow2 a * pow2 b)%Q).
  { clear. intros a b Hb. rewrite (pow2_nonneg b Hb).
    unfold pow2. destruct (Z.ltb_spec a 0), (Z.ltb_spec (a + b) 0); try lia.
    - unfold Qeq, Qmult, inject_Z. cbn [Qnum Qden]. rewrite ?Pos2Z.inj_mul.
      rewrite !pos_pow_Z, !Z2Pos.id by lia.
      replace (2 ^ (- a)) with (2 ^ (- (a + b)) * 2 ^ b);
        [ring|rewrite <- Z.pow_add_r by lia; f_equal; lia].
    - unfold Qeq, Qmult, inject_Z. cbn [Qnum Qden]. rewrite ?Pos2Z.inj_mul.
      rewrite !pos_pow_Z, !Z2Pos.id by lia.
      replace (2 ^ b) with (2 ^ (a + b) * 2 ^ (- a));
        [ring|rewrite <- Z.pow_add_r by lia; f_equal; lia].
    - rewrite <- inject_Z_mult, Z.pow_add_r by lia. reflexivity. }
  destruct (Z.le_gt_cases 0 b) as [Hb|Hb]; [by apply H|].
  pose proof (H (a + b) (- b) ltac:(lia)) as E.
  replace (a + b + - b) with a in E by lia.
  rewrite E.
  pose proof (pow2_neg b Hb) as Hn. rewrite <- (pow2_nonneg (- b)) in Hn by lia.
  rewrite <- Qmult_assoc, (Qmult_comm (pow2 (- b))), Hn. ring.
Qed.

Lemma pow2_0 : pow2 0 = 1%Q.
Proof. reflexivity. Qed.

Lemma pow2_le (a b : Z) : a <= b -> (pow2 a <= pow2 b)%Q.
Proof.
  intros Hab. replace b with (a + (b - a)) by lia.
  rewrite pow2_add, (pow2_nonneg (b - a)) by lia.
  assert (1 <= 2 ^ (b - a)) by (apply Z.pow_le_mono_r with (b := 0) (c := b - a) (a := 2); lia).
  assert (1 <= inject_Z (2 ^ (b - a)))%Q by (change 1%Q with (inject_Z 1); by rewrite <- Zle_Qle).
  pose proof (pow2_pos a). nra.
Qed.

Lemma pow2_lt (a b : Z) : a < b -> (pow2 a < pow2 b)%Q.
Proof.
  intros Hab. replace b with (a + (b - a)) by lia.
  rewrite pow2_add, (pow2_nonneg (b - a)) by lia.
  assert (2 <= 2 ^ (b - a)).
  { change 2 with (2 ^ 1) at 1. apply Z.pow_le_mono_r; lia. }
  assert (2 <= inject_Z (2 ^ (b - a)))%Q by (change 2%Q with (inject_Z 2); by rewrite <- Zle_Qle).
  pose proof (pow2_pos a). nra.
Qed.

(** Moving a power of two between the mantissa and the exponent. *)
Lemma scale_shift (m e k : Z) :
  0 <= k -> (inject_Z (m * 2 ^ k) * pow2 e == inject_Z m * pow2 (e + k))%Q.
Proof.
  intros Hk. rewrite pow2_add, (pow2_nonneg k Hk), inject_Z_mult. ring.
Qed.

Lemma scale_le (a b e : Z) : a <= b -> (inject_Z a * pow2 e <= inject_Z b * pow2 e)%Q.
Proof.
  intros Hab. rewrite Zle_Qle in Hab. pose proof (pow2_pos e). nra.
Qed.

Lemma scale_lt (a b e : Z) : a < b -> (inject_Z a * pow2 e < inject_Z b * pow2 e)%Q.
Proof.
  intros Hab. rewrite Zlt_Qlt in Hab. pose proof (pow2_pos e). nra.
Qed.

Lemma scale_le_inv (a b e : Z) : (inject_Z a * pow2 e <= inject_Z b * pow2 e)%Q -> a <= b.
Proof.
  intros H. destruct (Z.le_gt_cases a b) as [|Hlt]; [done|].
  apply (scale_lt b a e) in Hlt. lra.
Qed.

Lemma scale_lt_inv (a b e : Z) : (inject_Z a * pow2 e < inject_Z b * pow2 e)%Q -> a < b.
Proof.
  intros H. destruct (Z.lt_ge_cases a b) as [|Hge]; [done|].
  apply (scale_le b a e) in Hge. lra.
Qed.

End Pow2.

Section Digits.

Lemma digits2_pos_bounds (m : positive) :
  2 ^ (Z.pos (digits2_pos m) - 1) <= Z.pos m < 2 ^ Z.pos (digits2_pos m).
Proof.
  induction m as [m IH|m IH|]; cbn [digits2_pos].
  - rewrite Pos2Z.inj_succ, Z.pow_succ_r by lia.
    replace (Z.succ (Z.pos (digits2_pos m)) - 1)
      with (Z.succ (Z.pos (digits2_pos m) - 1)) by lia.
    rewrite Z.pow_succ_r by lia. lia.
  - rewrite Pos2Z.inj_succ, Z.pow_succ_r by lia.
    replace (Z.succ (Z.pos (digits2_pos m)) - 1)
      with (Z.succ (Z.pos (digits2_pos m) - 1)) by lia.
    rewrite Z.pow_succ_r by lia. lia.
  - done.
Qed.

Lemma digits2_pos_unique (m : positive) (d : Z) :
  2 ^ (d - 1) <= Z.pos m < 2 ^ d -> Z.pos (digits2_pos m) = d.
Proof.
  intros [Hlo Hhi]. pose proof (digits2_pos_bounds m) as [Dlo Dhi].
  set (k := Z.pos (digits2_pos m)) in *.
  assert (0 < d).
  { destruct (Z.lt_ge_cases 0 d); [done|].
    assert (2 ^ d <= 2 ^ 0) by (apply Z.pow_le_mono_r; lia). simpl in *. lia. }
  destruct (Z.lt_trichotomy k d) as [Hlt|[->|Hgt]]; [|done|].
  - assert (2 ^ k <= 2 ^ (d - 1)) by (apply Z.pow_le_mono_r; lia). lia.
  - assert (2 ^ d <= 2 ^ (k - 1)) by (apply Z.pow_le_mono_r; lia). lia.
Qed.

Lemma digits_le (m : positive) (d : Z) :
  0 <= d -> Z.pos m < 2 ^ d -> Z.pos (digits2_pos m) <= d.
Proof.
  intros Hd Hm. pose proof (digits2_pos_bounds m) as [Dlo _].
  destruct (Z.le_gt_cases (Z.pos (digits2_pos m)) d); [done|].
  assert (2 ^ d <= 2 ^ (Z.pos (digits2_pos m) - 1)) by (apply Z.pow_le_mono_r; lia).
  lia.
Qed.

Lemma digits_ge (m : positive) (d : Z) :
  2 ^ (d - 1) <= Z.pos m -> d <= Z.pos (digits2_pos m).
Proof.
  intros Hm. pose proof (digits2_pos_bounds m) as [_ Dhi].
  destruct (Z.le_gt_cases d (Z.pos (digits2_pos m))); [done|].
  assert (2 ^ Z.pos (digits2_pos m) <= 2 ^ (d - 1)) by (apply Z.pow_le_mono_r; lia).
  lia.
Qed.

End Digits.

Section Shift.

Lemma pow_two_pred (k : Z) : 1 <= k -> 2 ^ k = 2 * 2 ^ (k - 1).
Proof.
  intros Hk. rewrite <- (Z.pow_succ_r 2 (k - 1)) by lia. f_equal. lia.
Qed.

Lemma iter_pos_nat {A} (f : A -> A) (p : positive) (x : A) :
  SpecFloat.iter_pos f p x = Nat.iter (Pos.to_nat p) f x.
Proof.
  revert x. induction p as [p IH|p IH|]; intros x; cbn [SpecFloat.iter_pos].
  - rewrite !IH, Pos2Nat.inj_xI.
    replace (S (2 * Pos.to_nat p)) with (Pos.to_nat p + (Pos.to_nat p + 1))%nat by lia.
    rewrite !Nat.iter_add. done.
  - rewrite !IH, Pos2Nat.inj_xO.
    replace (2 * Pos.to_nat p)%nat with (Pos.to_nat p + Pos.to_nat p)%nat by lia.
    by rewrite Nat.iter_add.
  - done.
Qed.

Lemma shr_1_nonneg (m : Z) (r s : bool) :
  0 <= m ->
  shr_1 (Build_shr_record m r s) = Build_shr_record (m / 2) (Z.odd m) (r || s).
Proof.
  intros Hm. destruct m as [|p|p]; [done| |lia].
  destruct p as [p|p|]; cbn [shr_1].
  - f_equal. rewrite Pos2Z.inj_xI. apply Z.div_unique with 1; lia.
  - f_equal. rewrite Pos2Z.inj_xO. apply Z.div_unique with 0; lia.
  - done.
Qed.

Lemma shifted_once (m : Z) :
  0 <= m -> shifted m 1 (shr_1 (Build_shr_record m false false)).
Proof.
  intros Hm. rewrite shr_1_nonneg by done. unfold shifted. cbn [shr_m shr_r shr_s orb].
  change (2 ^ 1) with 2. change (2 ^ (1 - 1)) with 1.
  rewrite Zodd_mod.
  pose proof (Z.mod_pos_bound m 2 ltac:(lia)).
  split; [done|]. split.
  - rewrite Z.eqb_eq. lia.
  - split; [done|]. lia.
Qed.

Lemma shifted_step (m k : Z) (st : shr_record) :
  0 <= m -> 1 <= k -> shifted m k st -> shifted m (k + 1) (shr_1 st).
Proof.
  intros Hm Hk (Hq & Hr & Hs). destruct st as [q r s]. cbn [shr_m shr_r shr_s] in *.
  assert (HP : 0 < 2 ^ (k - 1)) by (apply Z.pow_pos_nonneg; lia).
  assert (E1 : 2 ^ k = 2 * 2 ^ (k - 1)).
  { apply pow_two_pred. lia. }
  assert (E2 : 2 ^ (k + 1) = 2 * 2 ^ k).
  { rewrite (pow_two_pred (k + 1)) by lia. do 2 f_equal. lia. }
  pose proof (Z.div_mod m (2 ^ k) ltac:(lia)) as Hdm.
  pose proof (Z.mod_pos_bound m (2 ^ k) ltac:(lia)) as Hmb.
  assert (Hq0 : 0 <= q) by (subst q; apply Z.div_pos; lia).
  rewrite shr_1_nonneg by done. unfold shifted. cbn [shr_m shr_r shr_s].
  replace (k + 1 - 1) with k by lia.
  pose proof (Z.div_mod q 2 ltac:(lia)) as Hq2.
  pose proof (Z.mod_pos_bound q 2 ltac:(lia)) as Hqb.
  rewrite Zodd_mod.
  assert (Hdiv : m / 2 ^ (k + 1) = q / 2).
  { symmetry. apply Z.div_unique with (q mod 2 * 2 ^ k + m mod 2 ^ k); [nia|].
    rewrite <- Hq in Hdm. nia. }
  assert (Hmod : m mod 2 ^ (k + 1) = q mod 2 * 2 ^ k + m mod 2 ^ k).
  { symmetry. apply Z.mod_unique with (q / 2); [nia|].
    rewrite <- Hq in Hdm. nia. }
  rewrite Hdiv, Hmod. split; [done|].
  rewrite Z.eqb_eq, orb_true_iff, Hr, Hs.
  set (rem := m mod 2 ^ k) in *. set (P := 2 ^ (k - 1)) in *.
  rewrite E1. clearbody rem P.
  assert (Hb : q mod 2 = 0 \/ q mod 2 = 1) by lia.
  destruct Hb as [-> | ->]; lia.
Qed.

Lemma shifted_iter (m : Z) (n : nat) :
  0 <= m ->
  shifted m (Z.of_nat (S n)) (Nat.iter (S n) shr_1 (Build_shr_record m false false)).
Proof.
  intros Hm. induction n as [|n IH].
  - by apply shifted_once.
  - replace (Z.of_nat (S (S n))) with (Z.of_nat (S n) + 1) by lia.
    change (Nat.iter (S (S n)) shr_1 ?x) with (shr_1 (Nat.iter (S n) shr_1 x)).
    apply shifted_step; [done|lia|done].
Qed.

Lemma shr_rne (m : Z) (p : positive) :
  0 <= m ->
  let mrs := SpecFloat.iter_pos shr_1 p (Build_shr_record m false false) in
  round_nearest_even (shr_m mrs) (loc_of_shr_record mrs) = rne m (Z.pos p).
Proof.
  intros Hm mrs.
  assert (Hsh : shifted m (Z.pos p) mrs).
  { unfold mrs. rewrite iter_pos_nat.
    destruct (Pos2Nat.is_succ p) as [n Hn]. rewrite Hn.
    replace (Z.pos p) with (Z.of_nat (S n)) by lia. by apply shifted_iter. }
  destruct Hsh as (Hq & Hr & Hs). destruct mrs as [q r s].
  cbn [shr_m shr_r shr_s] in *. unfold rne. rewrite <- Hq.
  set (rem := m mod 2 ^ Z.pos p) in *. set (h := 2 ^ (Z.pos p - 1)) in *.
  assert (HP : 0 < h) by (apply Z.pow_pos_nonneg; lia).
  destruct r, s; cbn [loc_of_shr_record round_nearest_even].
  - assert (h < rem) by (destruct Hr as [Hr _], Hs as [Hs _]; specialize (Hr eq_refl);
                         specialize (Hs eq_refl); lia).
    destruct (Z.ltb_spec rem h); [lia|]. destruct (Z.ltb_spec h rem); [done|lia].
  - assert (rem = h).
    { destruct Hr as [Hr _]. specialize (Hr eq_refl).
      destruct (Z.eq_dec rem h); [done|].
      assert (false = true); [|done]. apply Hs. lia. }
    destruct (Z.ltb_spec rem h); [lia|]. destruct (Z.ltb_spec h rem); [lia|done].
  - assert (rem < h).
    { destruct (Z.lt_ge_cases rem h); [done|].
      assert (false = true); [|done]. by apply Hr. }
    by destruct (Z.ltb_spec rem h); [|lia].
  - assert (rem < h).
    { destruct (Z.lt_ge_cases rem h); [done|].
      assert (false = true); [|done]. by apply Hr. }
    by destruct (Z.ltb_spec rem h); [|lia].
Qed.

(** Properties of rounding to nearest. *)
Lemma rne_spec (m n : Z) :
  0 <= m -> 0 < n ->
  let R := rne m n in
  0 <= R
  /\ 2 * Z.abs (R * 2 ^ n - m) <= 2 ^ n
  /\ (forall K, K * 2 ^ n <= m -> K <= R)
  /\ (forall K, m <= K * 2 ^ n -> R <= K).
Proof.
  intros Hm Hn R. unfold rne in R.
  assert (HP : 0 < 2 ^ (n - 1)) by (apply Z.pow_pos_nonneg; lia).
  assert (E1 : 2 ^ n = 2 * 2 ^ (n - 1)).
  { apply pow_two_pred. lia. }
  pose proof (Z.div_mod m (2 ^ n) ltac:(lia)) as Hdm.
  pose proof (Z.mod_pos_bound m (2 ^ n) ltac:(lia)) as Hmb.
  assert (Hq0 : 0 <= m / 2 ^ n) by (apply Z.div_pos; lia).
  set (q := m / 2 ^ n) in *. set (r := m mod 2 ^ n) in *. set (h := 2 ^ (n - 1)) in *.
  assert (HR : (R = q /\ r <= h) \/ (R = q + 1 /\ h <= r)).
  { unfold R. destruct (Z.ltb_spec r h); [left; lia|].
    destruct (Z.ltb_spec h r); [right; lia|].
    destruct (Z.even q); [left|right]; lia. }
  clearbody R. rewrite E1 in *.
  split; [lia|]. split; [nia|]. split; intros K HK; nia.
Qed.

Lemma rne_upper (m n d : Z) :
  0 <= m -> 0 < n -> n <= d -> m < 2 ^ d -> rne m n <= 2 ^ (d - n).
Proof.
  intros Hm Hn Hd Hlt. apply (rne_spec m n Hm Hn).
  rewrite <- Z.pow_add_r by lia. replace (d - n + n) with d by lia. lia.
Qed.

Lemma rne_lower (m n d : Z) :
  0 <= m -> 0 < n -> n <= d -> 2 ^ d <= m -> 2 ^ (d - n) <= rne m n.
Proof.
  intros Hm Hn Hd Hlt. apply (rne_spec m n Hm Hn).
  rewrite <- Z.pow_add_r by lia. replace (d - n + n) with d by lia. lia.
Qed.

End Shift.

Section Rounding.

Lemma fexp64_eq (e : Z) : fexp64 e = Z.max (e - 53) (-1074).
Proof. reflexivity. Qed.

Lemma pos_iter_xO (m d : positive) : Z.pos (Pos.iter xO m d) = Z.pos m * 2 ^ Z.pos d.
Proof.
  change (Pos.iter xO m d) with (shift_pos d m).
  rewrite shift_pos_correct, Z.pow_pos_fold. lia.
Qed.

Lemma shr_fexp_pos (m : Z) (e : Z) :
  shr_fexp prec emax m e loc_Exact
  = shr (Build_shr_record m false false) e (fexp64 (Zdigits2 m + e) - e).
Proof. reflexivity. Qed.

(** No bit is lost when the exponent is already the one of the format. *)
Lemma round_aux_exact (s : bool) (mx : positive) (ex : Z) :
  fexp64 (Z.pos (digits2_pos mx) + ex) <= ex ->
  binary_round_aux prec emax s (Z.pos mx) ex loc_Exact
  = if ex <=? 971 then S754_finite s mx ex else S754_infinity s.
Proof.
  intros Hn. unfold binary_round_aux. rewrite shr_fexp_pos.
  cbn [Zdigits2]. unfold shr.
  destruct (fexp64 (Z.pos (digits2_pos mx) + ex) - ex) as [|p|p] eqn:E; [|lia|];
    cbn [shr_m loc_of_shr_record round_nearest_even];
    rewrite shr_fexp_pos; cbn [Zdigits2]; unfold shr; rewrite E;
    cbn [shr_m]; done.
Qed.

(** Bits are lost: the mantissa is rounded to nearest, and renormalized
    when rounding carries into a further bit. *)
Lemma round_aux_inexact (s : bool) (mx : positive) (ex : Z) :
  let E := fexp64 (Z.pos (digits2_pos mx) + ex) in
  ex < E ->
  let R := rne (Z.pos mx) (E - ex) in
  0 <= R <= 2 ^ 53
  /\ binary_round_aux prec emax s (Z.pos mx) ex loc_Exact
     = if R =? 0 then S754_zero s
       else if R =? 2 ^ 53
            then (if E + 1 <=? 971 then S754_finite s (2 ^ 52)%positive (E + 1)
                  else S754_infinity s)
            else (if E <=? 971 then S754_finite s (Z.to_pos R) E
                  else S754_infinity s).
Proof.
  intros E Hn R.
  pose proof (digits2_pos_bounds mx) as [Dlo Dhi].
  set (d := Z.pos (digits2_pos mx)) in *.
  assert (HE : E = Z.max (d + ex - 53) (-1074)) by reflexivity.
  destruct (rne_spec (Z.pos mx) (E - ex) ltac:(lia) ltac:(lia)) as (HR0 & _ & _ & Hup).
  fold R in HR0, Hup.
  assert (HR53 : R <= 2 ^ 53).
  { destruct (Z.le_gt_cases (E - ex) d) as [Hle|Hgt].
    - apply Z.le_trans with (2 ^ (d - (E - ex))).
      + apply Hup. rewrite <- Z.pow_add_r by lia.
        replace (d - (E - ex) + (E - ex)) with d by lia. lia.
      + apply Z.pow_le_mono_r; lia.
    - apply Z.le_trans with 1; [|done]. apply Hup.
      assert (2 ^ d <= 2 ^ (E - ex)) by (apply Z.pow_le_mono_r; lia). lia. }
  split; [lia|].
  unfold binary_round_aux. rewrite shr_fexp_pos. cbn [Zdigits2]. fold d E.
  assert (Hp : exists p, E - ex = Z.pos p).
  { destruct (E - ex) as [|p|p] eqn:En; [lia| |lia]. by exists p. }
  destruct Hp as [p Hp].
  unfold shr at 1. rewrite Hp.
  rewrite (shr_rne (Z.pos mx) p ltac:(lia)). rewrite <- Hp. fold R.
  replace (ex + (E - ex)) with E by lia.
  rewrite shr_fexp_pos. clearbody R. clear Hup.
  destruct (Z.eqb_spec R 0) as [HR|HR].
  { rewrite HR. cbn [Zdigits2]. unfold shr.
    destruct (fexp64 (0 + E) - E) as [|q|q] eqn:E2; [done| |done].
    exfalso. rewrite fexp64_eq in E2. lia. }
  destruct R as [|r|r]; [done| |lia].
  cbn [Zdigits2].
  pose proof (digits2_pos_bounds r) as [Rlo Rhi].
  destruct (Z.eqb_spec (Z.pos r) (2 ^ 53)) as [H53|H53].
  - assert (Hd : Z.pos (digits2_pos r) = 54).
    { apply digits2_pos_unique. rewrite H53. split; [done|]. done. }
    rewrite Hd, fexp64_eq.
    replace (Z.max (54 + E - 53) (-1074) - E) with 1 by lia.
    unfold shr. cbn [SpecFloat.iter_pos].
    rewrite shr_1_nonneg by lia. cbn [shr_m].
    rewrite H53. change (2 ^ 53 / 2) with (Z.pos (2 ^ 52)). cbn match.
    done.
  - assert (Hd : Z.pos (digits2_pos r) <= 53).
    { apply digits_le; lia. }
    unfold shr.
    destruct (fexp64 (Z.pos (digits2_pos r) + E) - E) as [|q|q] eqn:E2.
    + cbn [shr_m]. by rewrite Pos2Z.id.
    + exfalso. rewrite fexp64_eq in E2. lia.
    + cbn [shr_m]. by rewrite Pos2Z.id.
Qed.

Lemma SF2Q_finite (s : bool) (m : positive) (e : Z) :
  SF2Q (S754_finite s m e) = (inject_Z (cond_Zopp s (Z.pos m)) * pow2 e)%Q.
Proof. reflexivity. Qed.

Lemma cond_Zopp_inject (s : bool) (a : Z) (q : Q) :
  (inject_Z (cond_Zopp s a) * q == (if s then -1 else 1) * (inject_Z a * q))%Q.
Proof. destruct s; cbn [cond_Zopp]; rewrite ?inject_Z_opp; ring. Qed.

Lemma round_aux_rounding (s : bool) (mx : positive) (ex : Z) :
  is_rounding s (Z.pos mx) ex
    (binary_round_aux prec emax s (Z.pos mx) ex loc_Exact).
Proof.
  unfold is_rounding. cbn [Zdigits2].
  set (E := fexp64 (Z.pos (digits2_pos mx) + ex)).
  destruct (Z.le_gt_cases E ex) as [Hle|Hgt].
  - rewrite (round_aux_exact s mx ex Hle), Z.max_r by done.
    replace (ex - ex) with 0 by lia. change (2 ^ 0) with 1.
    exists (Z.pos mx). split; [lia|]. split; [intros K; lia|].
    split; [intros K; lia|]. split; [lia|].
    destruct (Z.leb_spec ex 971).
    + right. split; [done|]. split; [reflexivity|]. right. by eexists _, _.
    + left. split; [done|]. lia.
  - destruct (round_aux_inexact s mx ex Hgt) as [HR Hr]. fold E in HR, Hr.
    rewrite Hr, Z.max_l by lia.
    destruct (rne_spec (Z.pos mx) (E - ex) ltac:(lia) ltac:(lia))
      as (HR0 & Habs & Hlow & Hup).
    set (R := rne (Z.pos mx) (E - ex)) in *.
    exists R. split; [done|]. split; [done|]. split; [done|]. split; [done|].
    destruct (Z.eqb_spec R 0) as [H0|H0].
    { right. split; [done|]. split; [|by left].
      rewrite H0. replace (cond_Zopp s 0) with 0 by (by destruct s).
      unfold SF2Q. change (inject_Z 0) with 0%Q. ring. }
    destruct (Z.eqb_spec R (2 ^ 53)) as [H53|H53].
    { destruct (Z.leb_spec (E + 1) 971).
      - right. split; [done|]. split; [|right; by eexists _, _].
        rewrite SF2Q_finite, !cond_Zopp_inject, H53.
        change (Z.pos (2 ^ 52)) with (2 ^ 52).
        rewrite <- (scale_shift (2 ^ 52) E 1) by lia.
        change (2 ^ 52 * 2 ^ 1) with (2 ^ 53). reflexivity.
      - left. split; [done|]. lia. }
    destruct (Z.leb_spec E 971).
    + right. split; [done|]. split; [|right; by eexists _, _].
      rewrite SF2Q_finite, Z2Pos.id by lia. reflexivity.
    + left. split; [done|]. lia.
Qed.

End Rounding.

Section BinaryRound.

Lemma digits_shift (m : positive) (k : Z) :
  0 <= k ->
  forall mz : positive, Z.pos mz = Z.pos m * 2 ^ k ->
  Z.pos (digits2_pos mz) = Z.pos (digits2_pos m) + k.
Proof.
  intros Hk mz Hmz. apply digits2_pos_unique. rewrite Hmz.
  pose proof (digits2_pos_bounds m) as [Dlo Dhi].
  replace (Z.pos (digits2_pos m) + k - 1) with (Z.pos (digits2_pos m) - 1 + k) by lia.
  rewrite !Z.pow_add_r by lia.
  assert (0 < 2 ^ k) by (apply Z.pow_pos_nonneg; lia). nia.
Qed.

Lemma valid_finite (s : bool) (m : positive) (e : Z) :
  valid_binary (S754_finite s m e) = true
  <-> fexp64 (Z.pos (digits2_pos m) + e) = e /\ e <= 971.
Proof.
  cbn [SpecFloat.valid_binary]. unfold bounded, canonical_mantissa.
  rewrite andb_true_iff, Z.eqb_eq, Z.leb_le. done.
Qed.

Lemma binary_round_cases (s : bool) (mx : positive) (ex : Z) :
  let E := fexp64 (Z.pos (digits2_pos mx) + ex) in
  (E < ex ->
   exists mz : positive,
     Z.pos mz = Z.pos mx * 2 ^ (ex - E)
     /\ binary_round prec emax s mx ex
        = if E <=? 971 then S754_finite s mz E else S754_infinity s)
  /\ (ex <= E ->
      binary_round prec emax s mx ex
      = binary_round_aux prec emax s (Z.pos mx) ex loc_Exact).
Proof.
  intros E. unfold binary_round, shl_align. fold E. split; intros HE.
  - destruct (E - ex) as [|d|d] eqn:Ed; [lia|lia|].
    exists (Pos.iter xO mx d).
    replace (ex - E) with (Z.pos d) by lia. split; [apply pos_iter_xO|].
    apply round_aux_exact.
    rewrite (digits_shift mx (Z.pos d) ltac:(lia) _ (pos_iter_xO mx d)).
    replace (Z.pos (digits2_pos mx) + Z.pos d + E)
      with (Z.pos (digits2_pos mx) + ex) by lia.
    fold E. lia.
  - by destruct (E - ex) as [|d|d] eqn:Ed; [| |lia].
Qed.

Lemma binary_round_rounding (s : bool) (mx : positive) (ex : Z) :
  is_rounding s (Z.pos mx) ex (binary_round prec emax s mx ex).
Proof.
  destruct (binary_round_cases s mx ex) as [Hshl Haux].
  set (E := fexp64 (Z.pos (digits2_pos mx) + ex)) in *.
  destruct (Z.lt_ge_cases E ex) as [Hlt|Hge].
  - destruct (Hshl Hlt) as (mz & Hmz & ->).
    unfold is_rounding. cbn [Zdigits2]. fold E. rewrite Z.max_r by lia.
    replace (ex - ex) with 0 by lia. change (2 ^ 0) with 1.
    exists (Z.pos mx). split; [lia|]. split; [intros K; lia|].
    split; [intros K; lia|]. split; [lia|].
    destruct (Z.leb_spec E 971).
    + right. split; [done|]. split; [|right; by eexists _, _].
      rewrite SF2Q_finite, !cond_Zopp_inject, Hmz.
      rewrite (scale_shift (Z.pos mx) E (ex - E)) by lia.
      replace (E + (ex - E)) with ex by lia. reflexivity.
    + left. split; [done|]. lia.
  - rewrite (Haux ltac:(lia)). apply round_aux_rounding.
Qed.

Lemma binary_round_valid (s : bool) (mx : positive) (ex : Z) :
  valid_binary (binary_round prec emax s mx ex) = true.
Proof.
  destruct (binary_round_cases s mx ex) as [Hshl Haux].
  set (d := Z.pos (digits2_pos mx)) in *.
  set (E := fexp64 (d + ex)) in *.
  assert (HE : E = Z.max (d + ex - 53) (-1074)) by reflexivity.
  destruct (Z.lt_ge_cases E ex) as [Hlt|Hge].
  - destruct (Hshl Hlt) as (mz & Hmz & ->).
    destruct (Z.leb_spec E 971); [|done].
    apply valid_finite. split; [|done].
    rewrite (digits_shift mx (ex - E) ltac:(lia) mz Hmz). fold d.
    replace (d + (ex - E) + E) with (d + ex) by lia. done.
  - rewrite (Haux ltac:(lia)).
    destruct (Z.eq_dec E ex) as [Heq|Hne].
    + rewrite round_aux_exact by (fold d E; lia).
      destruct (Z.leb_spec ex 971); [|done].
      apply valid_finite. fold d E. split; [done|lia].
    + destruct (round_aux_inexact s mx ex) as [HR ->]; [fold d E; lia|].
      fold d E in HR |- *.
      set (R := rne (Z.pos mx) (E - ex)) in *.
      destruct (Z.eqb_spec R 0); [done|].
      destruct (Z.eqb_spec R (2 ^ 53)).
      * destruct (Z.leb_spec (E + 1) 971); [|done].
        apply valid_finite. split; [|done].
        change (Z.pos (digits2_pos (2 ^ 52))) with 53. rewrite fexp64_eq. lia.
      * destruct (Z.leb_spec E 971); [|done].
        apply valid_finite. split; [|done].
        assert (HRpos : Z.pos (Z.to_pos R) = R) by (apply Z2Pos.id; lia).
        assert (Hd53 : Z.pos (digits2_pos (Z.to_pos R)) <= 53).
        { apply digits_le; [lia|]. rewrite HRpos. lia. }
        rewrite fexp64_eq.
        destruct (Z.eq_dec E (-1074)) as [Hmin|Hmin]; [lia|].
        assert (Hn : E - ex = d - 53) by lia.
        assert (H52 : 2 ^ 52 <= R).
        { pose proof (digits2_pos_bounds mx) as [Dlo _]. fold d in Dlo.
          replace 52 with (d - 1 - (E - ex)) by lia.
          apply rne_lower; lia. }
        assert (53 <= Z.pos (digits2_pos (Z.to_pos R))).
        { apply digits_ge. rewrite HRpos. done. }
        lia.
Qed.

End BinaryRound.

Section RoundingValue.

Lemma pow2_lt_inv (a b : Z) : (pow2 a < pow2 b)%Q -> a < b.
Proof.
  intros H. destruct (Z.lt_ge_cases a b) as [|Hge]; [done|].
  apply pow2_le in Hge. lra.
Qed.

Lemma pow2_half (e : Z) : (pow2 e == 2 * pow2 (e - 1))%Q.
Proof.
  replace e with ((e - 1) + 1) at 1 by lia. rewrite pow2_add.
  change (pow2 1) with 2%Q. ring.
Qed.

Lemma scale_le_plus (a b c e : Z) :
  a <= b + c ->
  (inject_Z a * pow2 e <= inject_Z b * pow2 e + inject_Z c * pow2 e)%Q.
Proof.
  intros H. apply (scale_le _ _ e) in H. rewrite inject_Z_plus in H. lra.
Qed.

(** The exponent of the grid on which a value below [2^k] is rounded. *)
Lemma grid_exponent_le (m : positive) (e k : Z) :
  (inject_Z (Z.pos m) * pow2 e < pow2 k)%Q ->
  Z.max (fexp64 (Z.pos (digits2_pos m) + e)) e <= Z.max (Z.max (k - 53) (-1074)) e.
Proof.
  intros Hv. pose proof (digits2_pos_bounds m) as [Dlo _].
  set (d := Z.pos (digits2_pos m)) in *.
  assert (Hd : d - 1 + e < k).
  { apply pow2_lt_inv. eapply Qle_lt_trans; [|exact Hv].
    rewrite pow2_add, (pow2_nonneg (d - 1)) by lia.
    apply scale_le. done. }
  rewrite fexp64_eq. lia.
Qed.

(** What [is_rounding] says about the value of a positive result. *)
Lemma rounding_pos_value (m : positive) (e : Z) (r : spec_float) :
  is_rounding false (Z.pos m) e r ->
  r <> S754_infinity false ->
  let v := (inject_Z (Z.pos m) * pow2 e)%Q in
  let G := Z.max (fexp64 (Z.pos (digits2_pos m) + e)) e in
  SFfinite r = true
  /\ (0 <= SF2Q r)%Q
  /\ (SF2Q r - v <= pow2 (G - 1))%Q
  /\ (v - SF2Q r <= pow2 (G - 1))%Q
  /\ (G = e -> SF2Q r == v)%Q
  /\ (forall K : Z, (inject_Z K * pow2 G <= v)%Q -> (inject_Z K * pow2 G <= SF2Q r)%Q)
  /\ (forall K : Z, (v <= inject_Z K * pow2 G)%Q -> (SF2Q r <= inject_Z K * pow2 G)%Q)
  /\ (r = S754_zero false \/ exists m' e', r = S754_finite false m' e').
Proof.
  intros (R & HR0 & Hlow & Hup & Habs & Hr) Hinf v G.
  cbn [Zdigits2] in *. fold G in Hlow, Hup, Habs, Hr.
  destruct Hr as [[Hr _]|(Hfin & Hval & Hshape)]; [done|].
  cbn [cond_Zopp] in Hval.
  assert (HGe : e <= G) by (unfold G; lia).
  assert (Hv : (v == inject_Z (Z.pos m) * pow2 e)%Q) by reflexivity.
  assert (HV : (SF2Q r == inject_Z (R * 2 ^ (G - e)) * pow2 e)%Q).
  { rewrite Hval, (scale_shift R e (G - e)) by lia.
    replace (e + (G - e)) with G by lia. reflexivity. }
  assert (HP : 0 < 2 ^ (G - e)) by (apply Z.pow_pos_nonneg; lia).
  assert (Hgrid : forall K, (inject_Z K * pow2 G == inject_Z (K * 2 ^ (G - e)) * pow2 e)%Q).
  { intros K. rewrite (scale_shift K e (G - e)) by lia.
    replace (e + (G - e)) with G by lia. reflexivity. }
  split; [done|]. split.
  { rewrite Hval. pose proof (pow2_pos G).
    assert (0 <= inject_Z R)%Q by (change 0%Q with (inject_Z 0); by rewrite <- Zle_Qle).
    nra. }
  assert (Hexact : G = e -> R = Z.pos m).
  { intros HG. rewrite HG, Z.sub_diag in Hlow, Hup. change (2 ^ 0) with 1 in *.
    apply Z.le_antisymm; [apply Hup|apply Hlow]; lia. }
  assert (Herr : (SF2Q r - v <= pow2 (G - 1) /\ v - SF2Q r <= pow2 (G - 1))%Q).
  { destruct (Z.eq_dec G e) as [HG|HG].
    - rewrite HV, Hv, HG, Z.sub_diag, (Hexact HG). change (2 ^ 0) with 1.
      rewrite Z.mul_1_r. pose proof (pow2_pos (e - 1)). lra.
    - assert (E2 : 2 ^ (G - e) = 2 * 2 ^ (G - e - 1)) by (apply pow_two_pred; lia).
      assert (Hp2 : (pow2 (G - 1) == inject_Z (2 ^ (G - e - 1)) * pow2 e)%Q).
      { rewrite <- (pow2_nonneg (G - e - 1)) by lia. rewrite <- pow2_add.
        replace (G - e - 1 + e) with (G - 1) by lia. reflexivity. }
      rewrite HV, Hv, Hp2.
      split.
      + pose proof (scale_le_plus (R * 2 ^ (G - e)) (Z.pos m) (2 ^ (G - e - 1)) e
                      ltac:(lia)). lra.
      + pose proof (scale_le_plus (Z.pos m) (R * 2 ^ (G - e)) (2 ^ (G - e - 1)) e
                      ltac:(lia)). lra. }
  split; [apply Herr|]. split; [apply Herr|].
  split.
  { intros HG. rewrite HV, Hv, HG, Z.sub_diag, (Hexact HG). change (2 ^ 0) with 1.
    by rewrite Z.mul_1_r. }
  split.
  { intros K HK. rewrite Hgrid, Hv in HK. apply scale_le_inv in HK.
    rewrite Hgrid, HV. apply scale_le.
    apply Z.mul_le_mono_nonneg_r; [lia|]. by apply Hlow. }
  split; [|done].
  intros K HK. rewrite Hgrid, Hv in HK. apply scale_le_inv in HK.
  rewrite Hgrid, HV. apply scale_le.
  apply Z.mul_le_mono_nonneg_r; [lia|]. by apply Hup.
Qed.

End RoundingValue.

Section Operations.

Lemma valid_bounds (s : bool) (m : positive) (e : Z) :
  valid_binary (S754_finite s m e) = true ->
  -1074 <= e <= 971 /\ Z.pos m < 2 ^ 53
  /\ fexp64 (Z.pos (digits2_pos m) + e) = e.
Proof.
  intros [Hc He]%valid_finite. pose proof (digits2_pos_bounds m) as [_ Dhi].
  rewrite fexp64_eq in Hc.
  assert (Z.pos (digits2_pos m) <= 53) by lia.
  assert (2 ^ Z.pos (digits2_pos m) <= 2 ^ 53) by (apply Z.pow_le_mono_r; lia).
  rewrite fexp64_eq. lia.
Qed.

Lemma shl_align_fst (mx : positive) (ex ez : Z) :
  ez <= ex -> Z.pos (fst (shl_align mx ex ez)) = Z.pos mx * 2 ^ (ex - ez).
Proof.
  intros Hle. unfold shl_align.
  destruct (ez - ex) as [|d|d] eqn:Ed; cbn [fst]; [|lia|].
  - replace (ex - ez) with 0 by lia. change (2 ^ 0) with 1. lia.
  - rewrite pos_iter_xO. do 2 f_equal. lia.
Qed.

Lemma SF2Q_nonneg_finite (m : positive) (e : Z) :
  (0 < SF2Q (S754_finite false m e))%Q.
Proof.
  rewrite SF2Q_finite. cbn [cond_Zopp]. pose proof (pow2_pos e).
  assert (0 < inject_Z (Z.pos m))%Q by (change 0%Q with (inject_Z 0); by rewrite <- Zlt_Qlt).
  nra.
Qed.

Lemma SFnonneg_value (x : spec_float) : SFnonneg x = true -> (0 <= SF2Q x)%Q.
Proof.
  destruct x as [s|s| |[] m e]; try done. intros _.
  pose proof (SF2Q_nonneg_finite m e). lra.
Qed.

Lemma SFnonneg_finite (x : spec_float) : SFnonneg x = true -> SFfinite x = true.
Proof. by destruct x as [s|s| |[] m e]. Qed.

(** The exact sum and difference of two positive floats, as a mantissa
    on the smaller of the two exponents. *)
Lemma aligned_value (mx my : positive) (ex ey : Z) (op : Z -> Z -> Z) (qop : Q -> Q -> Q) :
  (forall a b, inject_Z (op a b) == qop (inject_Z a) (inject_Z b))%Q ->
  (forall a b c, qop a b * c == qop (a * c) (b * c))%Q ->
  Proper (Qeq ==> Qeq ==> Qeq) qop ->
  let ez := Z.min ex ey in
  let z := op (Z.pos (fst (shl_align mx ex ez))) (Z.pos (fst (shl_align my ey ez))) in
  (inject_Z z * pow2 ez
   == qop (SF2Q (S754_finite false mx ex)) (SF2Q (S754_finite false my ey)))%Q.
Proof.
  intros Hop Hdistr Hproper ez z. unfold z.
  rewrite !shl_align_fst by (unfold ez; lia).
  rewrite Hop, Hdistr, !SF2Q_finite. cbn [cond_Zopp].
  rewrite (scale_shift (Z.pos mx) ez (ex - ez)) by (unfold ez; lia).
  rewrite (scale_shift (Z.pos my) ez (ey - ez)) by (unfold ez; lia).
  replace (ez + (ex - ez)) with ex by lia.
  replace (ez + (ey - ez)) with ey by lia. reflexivity.
Qed.

Lemma binary_normalize_pos (z : Z) (e : Z) :
  0 < z ->
  binary_normalize prec emax z e false = binary_round prec emax false (Z.to_pos z) e.
Proof. intros Hz. by destruct z. Qed.

Lemma binary_normalize_valid (z e : Z) (s : bool) :
  valid_binary (binary_normalize prec emax z e s) = true.
Proof. destruct z; [done|apply binary_round_valid..]. Qed.

(** Relative error of a rounding whose exact value lies on a grid no
    finer than the subnormal one. *)
Lemma rounding_relative (m : positive) (e : Z) (r : spec_float) :
  is_rounding false (Z.pos m) e r ->
  r <> S754_infinity false ->
  -1074 <= e ->
  let v := (inject_Z (Z.pos m) * pow2 e)%Q in
  (SF2Q r - v <= pow2 (-53) * v /\ v - SF2Q r <= pow2 (-53) * v)%Q.
Proof.
  intros Hr Hinf He v.
  destruct (rounding_pos_value m e r Hr Hinf) as (_ & _ & Hup & Hlo & Hex & _).
  fold v in Hup, Hlo, Hex.
  set (d := Z.pos (digits2_pos m)) in *.
  set (G := Z.max (fexp64 (d + e)) e) in *.
  assert (Hv : (0 < v)%Q) by apply (SF2Q_nonneg_finite m e).
  destruct (Z.eq_dec G e) as [HG|HG].
  - rewrite (Hex HG). pose proof (pow2_pos (-53)). nra.
  - assert (HGd : G = d + e - 53).
    { unfold G in *. rewrite fexp64_eq in *. lia. }
    assert (Hbig : (pow2 (G - 1) <= pow2 (-53) * v)%Q).
    { pose proof (digits2_pos_bounds m) as [Dlo _]. fold d in Dlo.
      replace (G - 1) with (-53 + (d - 1 + e)) by lia.
      rewrite pow2_add. pose proof (pow2_pos (-53)).
      assert (pow2 (d - 1 + e) <= v)%Q.
      { rewrite pow2_add, (pow2_nonneg (d - 1)) by lia. by apply scale_le. }
      nra. }
    lra.
Qed.

End Operations.

Section Arithmetic.

(** A result with at most 53 bits on a representable exponent is exact
    and finite. *)
Lemma rounding_exact (s : bool) (m : positive) (e : Z) (r : spec_float) :
  is_rounding s (Z.pos m) e r ->
  Z.pos m < 2 ^ 53 -> -1074 <= e <= 971 ->
  SFfinite r = true
  /\ (SF2Q r == inject_Z (cond_Zopp s (Z.pos m)) * pow2 e)%Q
  /\ (exists m' e', r = S754_finite s m' e').
Proof.
  intros (R & HR0 & Hlow & Hup & _ & Hr) Hm He. cbn [Zdigits2] in *.
  assert (Hd : Z.pos (digits2_pos m) <= 53) by (apply digits_le; lia).
  assert (HG : Z.max (fexp64 (Z.pos (digits2_pos m) + e)) e = e).
  { rewrite fexp64_eq. lia. }
  rewrite HG, Z.sub_diag in *. change (2 ^ 0) with 1 in *.
  assert (HR : R = Z.pos m) by (apply Z.le_antisymm; [apply Hup|apply Hlow]; lia).
  destruct Hr as [[_ Hbad]|(Hfin & Hval & Hshape)]; [lia|].
  split; [done|]. split; [by rewrite Hval, HR|].
  destruct Hshape as [->|Hshape]; [|done].
  exfalso. unfold SF2Q in Hval. rewrite HR in Hval.
  pose proof (pow2_pos e).
  assert (0 < inject_Z (Z.pos m))%Q by (change 0%Q with (inject_Z 0); by rewrite <- Zlt_Qlt).
  rewrite cond_Zopp_inject in Hval. destruct s; nra.
Qed.

Lemma inject_Z_sub (a b : Z) : (inject_Z (a - b) == inject_Z a - inject_Z b)%Q.
Proof.
  unfold Z.sub, Qminus. by rewrite inject_Z_plus, inject_Z_opp.
Qed.

Lemma SF_infinity_cases (r : spec_float) (s : bool) :
  r = S754_infinity s \/ r <> S754_infinity s.
Proof.
  destruct r as [| s' | |]; try (by right).
  destruct s, s'; (by left) || (by right).
Qed.

Lemma SFnonneg_cases (x : spec_float) :
  valid_binary x = true -> SFnonneg x = true ->
  (exists s, x = S754_zero s) \/ (exists m e, SFpos_bounds x m e).
Proof.
  intros Hv Hn. destruct x as [s|s| |[] m e]; try done; [left; by eexists|].
  right. exists m, e. destruct (valid_bounds _ _ _ Hv) as (? & ? & _). done.
Qed.

Lemma SFadd_nonneg (x y : spec_float) :
  valid_binary x = true -> valid_binary y = true ->
  SFnonneg x = true -> SFnonneg y = true ->
  let r := SF64add x y in
  let v := (SF2Q x + SF2Q y)%Q in
  r = S754_infinity false
  \/ (SFnonneg r = true
      /\ (SF2Q r - v <= pow2 (-53) * v)%Q /\ (v - SF2Q r <= pow2 (-53) * v)%Q).
Proof.
  intros Hvx Hvy Hx Hy r v.
  destruct (SFnonneg_cases x Hvx Hx) as [[sx ->]|(mx & ex & -> & Hex & Hmx)];
    destruct (SFnonneg_cases y Hvy Hy) as [[sy ->]|(my & ey & -> & Hey & Hmy)].
  - right. unfold r, v. cbn [SF2Q].
    split; [by destruct sx, sy|]. destruct sx, sy; cbn [SF64add SFadd SF2Q]; lra.
  - right. unfold r, v. cbn [SF64add SFadd]. split; [done|].
    pose proof (SF2Q_nonneg_finite my ey). pose proof (pow2_pos (-53)).
    cbn [SF2Q] in *. nra.
  - right. unfold r, v. cbn [SF64add SFadd]. split; [done|].
    pose proof (SF2Q_nonneg_finite mx ex). pose proof (pow2_pos (-53)).
    cbn [SF2Q] in *. nra.
  - pose proof (aligned_value mx my ex ey Z.add Qplus ltac:(intros; by rewrite inject_Z_plus)
                  ltac:(intros; ring) _) as Hval.
    cbn zeta in Hval. fold v in Hval.
    unfold r. cbn [SF64add SFadd cond_Zopp].
    set (ez := Z.min ex ey) in *.
    set (z := Z.pos (fst (shl_align mx ex ez)) + Z.pos (fst (shl_align my ey ez))) in *.
    assert (Hz : 0 < z) by (unfold z; lia).
    rewrite (binary_normalize_pos z ez Hz).
    pose proof (binary_round_rounding false (Z.to_pos z) ez) as Hr.
    set (rr := binary_round prec emax false (Z.to_pos z) ez) in *.
    destruct (SF_infinity_cases rr false) as [Hinf|Hinf]; [by left|right].
    destruct (rounding_pos_value _ _ _ Hr Hinf) as (_ & _ & _ & _ & _ & _ & _ & Hshape).
    destruct (rounding_relative _ _ _ Hr Hinf ltac:(unfold ez; lia)) as [H1 H2].
    rewrite Z2Pos.id in H1, H2 by done. rewrite Hval in H1, H2.
    split; [by destruct Hshape as [->|(? & ? & ->)]|done].
Qed.

Lemma SFsub_nonneg (x y : spec_float) :
  valid_binary x = true -> valid_binary y = true ->
  SFnonneg x = true -> SFnonneg y = true ->
  (SF2Q y <= SF2Q x)%Q ->
  let r := SF64sub x y in
  let v := (SF2Q x - SF2Q y)%Q in
  r = S754_infinity false
  \/ (SFnonneg r = true
      /\ (SF2Q r - v <= pow2 (-53) * v)%Q /\ (v - SF2Q r <= pow2 (-53) * v)%Q).
Proof.
  intros Hvx Hvy Hx Hy Hle r v.
  destruct (SFnonneg_cases x Hvx Hx) as [[sx ->]|(mx & ex & -> & Hex & Hmx)];
    destruct (SFnonneg_cases y Hvy Hy) as [[sy ->]|(my & ey & -> & Hey & Hmy)].
  - right. unfold r, v. cbn [SF2Q].
    split; [by destruct sx, sy|]. destruct sx, sy; cbn [SF64sub SFsub SF2Q]; lra.
  - exfalso. pose proof (SF2Q_nonneg_finite my ey). cbn [SF2Q] in *. lra.
  - right. unfold r, v. cbn [SF64sub SFsub]. split; [done|].
    pose proof (SF2Q_nonneg_finite mx ex). pose proof (pow2_pos (-53)).
    cbn [SF2Q] in *. nra.
  - pose proof (aligned_value mx my ex ey Z.sub Qminus inject_Z_sub
                  ltac:(intros; ring) _) as Hval.
    cbn zeta in Hval. fold v in Hval.
    unfold r. cbn [SF64sub SFsub cond_Zopp].
    set (ez := Z.min ex ey) in *.
    set (z := Z.pos (fst (shl_align mx ex ez)) - Z.pos (fst (shl_align my ey ez))) in *.
    assert (Hz : 0 <= z).
    { apply (scale_le_inv 0 z ez). rewrite Hval. unfold v.
      change (inject_Z 0) with 0%Q. lra. }
    destruct (Z.eq_dec z 0) as [Hz0|Hz0].
    { right. rewrite Hz0 in *. cbn [binary_normalize SFnonneg SF2Q].
      change (inject_Z 0) with 0%Q in Hval.
      split; [done|]. rewrite <- Hval. lra. }
    rewrite (binary_normalize_pos z ez ltac:(lia)).
    pose proof (binary_round_rounding false (Z.to_pos z) ez) as Hr.
    set (rr := binary_round prec emax false (Z.to_pos z) ez) in *.
    destruct (SF_infinity_cases rr false) as [Hinf|Hinf]; [by left|right].
    destruct (rounding_pos_value _ _ _ Hr Hinf) as (_ & _ & _ & _ & _ & _ & _ & Hshape).
    destruct (rounding_relative _ _ _ Hr Hinf ltac:(unfold ez; lia)) as [H1 H2].
    rewrite Z2Pos.id in H1, H2 by lia. rewrite Hval in H1, H2.
    split; [by destruct Hshape as [->|(? & ? & ->)]|done].
Qed.

(** Subtracting from a float at least 1 a float at least 1 that is less
    than 2 away gives the exact difference. *)
Lemma SFsub_exact (x y : spec_float) :
  valid_binary x = true -> valid_binary y = true ->
  SFnonneg x = true -> SFnonneg y = true ->
  (1 <= SF2Q y)%Q -> (SF2Q y <= SF2Q x)%Q -> (SF2Q x - SF2Q y < 2)%Q ->
  let r := SF64sub x y in
  SFnonneg r = true /\ (SF2Q r == SF2Q x - SF2Q y)%Q.
Proof.
  intros Hvx Hvy Hx Hy Hy1 Hle Hlt r.
  destruct (SFnonneg_cases x Hvx Hx) as [[sx ->]|(mx & ex & -> & Hex & Hmx)];
    [cbn [SF2Q] in *; lra|].
  destruct (SFnonneg_cases y Hvy Hy) as [[sy ->]|(my & ey & -> & Hey & Hmy)];
    [cbn [SF2Q] in *; lra|].
  assert (Hlow : forall m e, Z.pos m < 2 ^ 53 ->
                   (1 <= SF2Q (S754_finite false m e))%Q -> -53 < e).
  { intros m e Hm H1. rewrite SF2Q_finite in H1. cbn [cond_Zopp] in H1.
    apply (pow2_lt_inv (-53) e).
    assert (inject_Z (Z.pos m) * pow2 e < inject_Z (2 ^ 53) * pow2 e)%Q
      by (by apply scale_lt).
    assert (E : (pow2 (-53) * inject_Z (2 ^ 53) == 1)%Q) by reflexivity.
    pose proof (pow2_pos (-53)). pose proof (pow2_pos e). nra. }
  pose proof (Hlow mx ex Hmx ltac:(lra)) as Hex1.
  pose proof (Hlow my ey Hmy Hy1) as Hey1.
  pose proof (aligned_value mx my ex ey Z.sub Qminus inject_Z_sub
                ltac:(intros; ring) _) as Hval.
  cbn zeta in Hval.
  unfold r. cbn [SF64sub SFsub cond_Zopp].
  set (ez := Z.min ex ey) in *.
  set (z := Z.pos (fst (shl_align mx ex ez)) - Z.pos (fst (shl_align my ey ez))) in *.
  assert (Hz : 0 <= z).
  { apply (scale_le_inv 0 z ez). rewrite Hval. change (inject_Z 0) with 0%Q. lra. }
  destruct (Z.eq_dec z 0) as [Hz0|Hz0].
  { rewrite Hz0 in *. cbn [binary_normalize SFnonneg SF2Q].
    change (inject_Z 0) with 0%Q in Hval. split; [done|]. rewrite <- Hval. lra. }
  assert (Hz53 : z < 2 ^ 53).
  { apply (scale_lt_inv z (2 ^ 53) ez). rewrite Hval.
    eapply Qlt_le_trans; [exact Hlt|].
    rewrite <- (pow2_nonneg 53), <- pow2_add by lia.
    change 2%Q with (pow2 1). apply pow2_le. unfold ez. lia. }
  rewrite (binary_normalize_pos z ez ltac:(lia)).
  pose proof (binary_round_rounding false (Z.to_pos z) ez) as Hr.
  destruct (rounding_exact _ _ _ _ Hr) as (_ & Hv & Hshape).
  { rewrite Z2Pos.id by lia. done. }
  { unfold ez. lia. }
  split; [by destruct Hshape as (m' & e' & ->)|].
  rewrite Hv. cbn [cond_Zopp]. rewrite Z2Pos.id by lia. exact Hval.
Qed.

End Arithmetic.

Section Constants.

(** A value that is a float already rounds to itself. *)
Lemma rounding_of_float (s : bool) (m : positive) (e : Z) (r : spec_float)
    (M0 E0 : Z) :
  is_rounding s (Z.pos m) e r ->
  Z.pos m = M0 * 2 ^ (E0 - e) -> -1074 <= e <= E0 -> E0 <= 971 -> M0 < 2 ^ 53 ->
  SFfinite r = true
  /\ (SF2Q r == inject_Z (cond_Zopp s (Z.pos m)) * pow2 e)%Q
  /\ (exists m' e', r = S754_finite s m' e').
Proof.
  intros (R & HR0 & Hlow & Hup & _ & Hr) Hm He HE0 HM0. cbn [Zdigits2] in *.
  set (d := Z.pos (digits2_pos m)) in *.
  set (G := Z.max (fexp64 (d + e)) e) in *.
  assert (HP : 0 < 2 ^ (E0 - e)) by (apply Z.pow_pos_nonneg; lia).
  assert (HM0pos : 0 < M0) by nia.
  assert (Hd : d <= 53 + (E0 - e)).
  { apply digits_le; [lia|]. rewrite Hm, Z.pow_add_r by lia. nia. }
  assert (HG : e <= G <= E0) by (unfold G; rewrite fexp64_eq; lia).
  assert (Hsplit : 2 ^ (E0 - e) = 2 ^ (E0 - G) * 2 ^ (G - e)).
  { rewrite <- Z.pow_add_r by lia. f_equal. lia. }
  assert (HPG : 0 < 2 ^ (E0 - G)) by (apply Z.pow_pos_nonneg; lia).
  assert (HR : R = M0 * 2 ^ (E0 - G)).
  { apply Z.le_antisymm; [apply Hup|apply Hlow]; rewrite Hm, Hsplit; lia. }
  assert (HRpow : G = 971 -> R < 2 ^ 53).
  { intros HG971. replace (E0 - G) with 0 in HR by lia.
    change (2 ^ 0) with 1 in HR. lia. }
  destruct Hr as [[_ Hbad]|(Hfin & Hval & Hshape)]; [lia|].
  assert (Hv : (SF2Q r == inject_Z (cond_Zopp s (Z.pos m)) * pow2 e)%Q).
  { assert (E : (inject_Z R * pow2 G == inject_Z (Z.pos m) * pow2 e)%Q).
    { replace (Z.pos m) with (R * 2 ^ (G - e)) by (rewrite Hm, HR, Hsplit; lia).
      rewrite (scale_shift R e (G - e)) by lia.
      replace (e + (G - e)) with G by lia. reflexivity. }
    rewrite Hval, !cond_Zopp_inject, E. reflexivity. }
  split; [done|]. split; [done|].
  destruct Hshape as [->|Hshape]; [|done].
  exfalso. unfold SF2Q in Hv at 1.
  pose proof (pow2_pos e).
  assert (0 < inject_Z (Z.pos m))%Q by (change 0%Q with (inject_Z 0); by rewrite <- Zlt_Qlt).
  rewrite cond_Zopp_inject in Hv. destruct s; nra.
Qed.

Lemma SF_thousand_value : (SF2Q SF_thousand == 1000)%Q.
Proof. reflexivity. Qed.

(** A float below 1 is at most [1 - 2^-53]. *)
Lemma below_one (m : positive) (e : Z) :
  valid_binary (S754_finite false m e) = true ->
  (SF2Q (S754_finite false m e) < 1)%Q ->
  e <= -53 /\ (SF2Q (S754_finite false m e) <= 1 - pow2 (-53))%Q.
Proof.
  intros Hv Hlt. destruct (valid_bounds _ _ _ Hv) as (He & Hm & Hc).
  rewrite SF2Q_finite in *. cbn [cond_Zopp] in *.
  pose proof (digits2_pos_bounds m) as [Dlo _].
  set (d := Z.pos (digits2_pos m)) in *.
  assert (Hd : d - 1 + e < 0).
  { apply pow2_lt_inv. change (pow2 0) with 1%Q.
    eapply Qle_lt_trans; [|exact Hlt].
    rewrite pow2_add, (pow2_nonneg (d - 1)) by lia. by apply scale_le. }
  rewrite fexp64_eq in Hc.
  assert (He53 : e <= -53) by lia.
  split; [done|].
  assert (Hme : Z.pos m < 2 ^ (- e)).
  { apply (scale_lt_inv _ _ e). rewrite <- (pow2_nonneg (- e)), <- pow2_add by lia.
    replace (- e + e) with 0 by lia. exact Hlt. }
  assert (Hle : (inject_Z (Z.pos m) * pow2 e <= inject_Z (2 ^ (- e) - 1) * pow2 e)%Q)
    by (apply scale_le; lia).
  rewrite inject_Z_sub in Hle.
  rewrite <- (pow2_nonneg (- e)) in Hle by lia.
  assert (E1 : (pow2 (- e) * pow2 e == 1)%Q).
  { rewrite <- pow2_add. replace (- e + e) with 0 by lia. reflexivity. }
  assert (pow2 (-53) <= pow2 e -> False \/ True)%Q by (by right).
  assert (Hp : (pow2 e <= pow2 (-53))%Q) by (by apply pow2_le).
  change (inject_Z 1) with 1%Q in Hle.
  pose proof (pow2_pos e).
  (* the value is at most 1 - 2^e; for e < -53 it is far smaller *)
  destruct (Z.eq_dec e (-53)) as [->|Hne].
  - nra.
  - assert (Hhalf : (inject_Z (Z.pos m) * pow2 e < pow2 (-1))%Q).
    { assert (inject_Z (Z.pos m) * pow2 e < inject_Z (2 ^ 53) * pow2 e)%Q
        by (by apply scale_lt).
      assert (inject_Z (2 ^ 53) * pow2 e <= pow2 (-1))%Q.
      { rewrite <- (pow2_nonneg 53), <- pow2_add by lia. apply pow2_le. lia. }
      lra. }
    assert (pow2 (-1) <= 1 - pow2 (-53))%Q by (vm_compute; discriminate).
    lra.
Qed.

Lemma SFmul_thousand (x : spec_float) :
  valid_binary x = true -> SFnonneg x = true -> (SF2Q x < 1)%Q ->
  let r := SF64mul x SF_thousand in
  let v := (1000 * SF2Q x)%Q in
  SFnonneg r = true
  /\ (forall K : Z, (inject_Z K <= v)%Q -> (inject_Z K <= SF2Q r)%Q)
  /\ (forall K : Z, (v <= inject_Z K)%Q -> (SF2Q r <= inject_Z K)%Q)
  /\ (SF2Q r - v <= pow2 (-44))%Q /\ (v - SF2Q r <= pow2 (-44))%Q
  /\ (SF2Q r < 1000)%Q.
Proof.
  intros Hv Hn Hlt r v.
  destruct (SFnonneg_cases x Hv Hn) as [[sx ->]|(mx & ex & -> & Hex & Hmx)].
  { unfold r, v. cbn [SF64mul SFmul SF_thousand SFnonneg SF2Q].
    pose proof (pow2_pos (-44)).
    split; [done|]. split; [intros K; lra|]. split; [intros K; lra|]. lra. }
  destruct (below_one mx ex Hv Hlt) as [He53 Hmax].
  unfold r. cbn [SF64mul SFmul SF_thousand xorb].
  set (M := 8796093022208000%positive).
  pose proof (round_aux_rounding false (mx * M) (ex + -43)) as Hr.
  set (rr := binary_round_aux prec emax false (Z.pos (mx * M)) (ex + -43) loc_Exact) in *.
  assert (Hval : (inject_Z (Z.pos (mx * M)) * pow2 (ex + -43) == v)%Q).
  { unfold v. rewrite SF2Q_finite. cbn [cond_Zopp].
    rewrite Pos2Z.inj_mul, inject_Z_mult, pow2_add.
    assert (E : (inject_Z (Z.pos M) * pow2 (-43) == 1000)%Q) by reflexivity.
    rewrite <- E. ring. }
  assert (Hv1000 : (v <= 1000 - 1000 * pow2 (-53))%Q) by (unfold v; lra).
  assert (HG : Z.max (fexp64 (Z.pos (digits2_pos (mx * M)) + (ex + -43))) (ex + -43)
               <= -43).
  { etransitivity; [apply (grid_exponent_le _ _ 10)|lia].
    rewrite Hval. assert (1000 < pow2 10)%Q by (vm_compute; reflexivity).
    pose proof (pow2_pos (-53)). lra. }
  set (G := Z.max _ _) in HG.
  assert (Hinf : rr <> S754_infinity false).
  { intros Hinf. destruct Hr as (R & _ & _ & _ & _ & [[_ Hbad]|(Hfin & _)]).
    - cbn [Zdigits2] in Hbad. fold G in Hbad. lia.
    - by rewrite Hinf in Hfin. }
  destruct (rounding_pos_value _ _ _ Hr Hinf)
    as (_ & _ & Hup & Hlo & _ & Hbelow & Habove & Hshape).
  fold G in Hup, Hlo, Hbelow, Habove. rewrite Hval in Hup, Hlo.
  assert (Hint : forall K : Z, (inject_Z K == inject_Z (K * 2 ^ (- G)) * pow2 G)%Q).
  { intros K. rewrite (scale_shift K G (- G)) by lia.
    replace (G + - G) with 0 by lia. rewrite pow2_0. ring. }
  assert (Hp : (pow2 (G - 1) <= pow2 (-44))%Q) by (apply pow2_le; lia).
  split; [by destruct Hshape as [->|(? & ? & ->)]|].
  split; [intros K HK; rewrite Hint in HK |- *; apply Hbelow; by rewrite Hval|].
  split; [intros K HK; rewrite Hint in HK |- *; apply Habove; by rewrite Hval|].
  split; [lra|]. split; [lra|].
  assert (1000 * pow2 (-53) - pow2 (-44) > 0)%Q by (vm_compute; reflexivity).
  lra.
Qed.

End Constants.

(** ** Python floats

    The primitive operations, through what [FloatAxioms] states about
    them. *)

Section PythonFloats.

Implicit Types x y : PrimFloat.float.

Lemma float_valid x : valid_binary (Prim2SF x) = true.
Proof. apply Prim2SF_valid. Qed.

Lemma float_nonneg_finite x : float_nonneg x = true -> float_finite x = true.
Proof. apply SFnonneg_finite. Qed.

Lemma float_nonneg_value x : float_nonneg x = true -> (0 <= float_value x)%Q.
Proof. apply SFnonneg_value. Qed.

Lemma float_finite_nonneg x :
  float_finite x = true -> (0 <= float_value x)%Q -> float_nonneg x = true.
Proof.
  unfold float_finite, float_value, float_nonneg.
  destruct (Prim2SF x) as [s|s| |[] m e]; try done. intros _ H. exfalso.
  rewrite SF2Q_finite, cond_Zopp_inject in H.
  pose proof (SF2Q_nonneg_finite m e) as Hp. rewrite SF2Q_finite in Hp.
  cbn [cond_Zopp] in Hp. lra.
Qed.

Lemma int_finite x : float_finite x = true <-> exists n, Py.int x = Ok n.
Proof.
  unfold float_finite, Py.int. destruct (Prim2SF x); cbn [SFfinite];
    split; try done; try (by eexists); by intros [n Hn].
Qed.

Lemma Qfloor_scaled (m : positive) (e : Z) :
  Qfloor (inject_Z (Z.pos m) * pow2 e) = Z.shiftl (Z.pos m) e.
Proof.
  destruct (Z.lt_ge_cases e 0) as [He|He].
  - rewrite Z.shiftl_div_pow2 by lia.
    unfold pow2. destruct (Z.ltb_spec e 0); [|lia].
    assert (E : (inject_Z (Z.pos m) * (1 # 2 ^ Z.to_pos (- e))
                 == Z.pos m # 2 ^ Z.to_pos (- e))%Q).
    { unfold Qeq, Qmult, inject_Z. cbn [Qnum Qden]. lia. }
    rewrite E. unfold Qfloor. by rewrite pos_pow_Z, Z2Pos.id by lia.
  - rewrite Z.shiftl_mul_pow2, (pow2_nonneg e He), <- inject_Z_mult by lia.
    apply Qfloor_Z.
Qed.

(** [int] of a float that is not negative is the floor of its value. *)
Lemma int_nonneg x :
  float_nonneg x = true -> Py.int x = Ok (Qfloor (float_value x)).
Proof.
  unfold float_nonneg, float_value, Py.int.
  destruct (Prim2SF x) as [s|s| |[] m e]; try done; intros _.
  rewrite SF2Q_finite. cbn [cond_Zopp]. by rewrite Qfloor_scaled.
Qed.

Lemma floor_pos_nonneg (q : Q) : (0 <= q)%Q -> 0 <= Qfloor q.
Proof. intros H. change 0 with (Qfloor 0). by apply Qfloor_resp_le. Qed.

Lemma floor_bounds (x : Q) :
  (inject_Z (Qfloor x) <= x /\ x < inject_Z (Qfloor x) + 1)%Q.
Proof.
  split; [apply Qfloor_le|].
  pose proof (Qlt_floor x) as H. rewrite inject_Z_plus in H. exact H.
Qed.

Lemma Prim2SF_float_zero : Prim2SF (Py.float 0) = S754_zero false.
Proof. reflexivity. Qed.

Lemma Prim2SF_float (n : Z) :
  Prim2SF (Py.float n) = binary_normalize prec emax n 0 false.
Proof. unfold Py.float. apply Prim2SF_SF2Prim, binary_normalize_valid. Qed.

(** The whole part of a float that is not negative is a float. *)
Lemma float_of_int_exact x (n : Z) :
  float_nonneg x = true -> Py.int x = Ok n ->
  float_nonneg (Py.float n) = true
  /\ (float_value (Py.float n) == inject_Z n)%Q.
Proof.
  intros Hx Hn. pose proof (float_valid x) as Hv.
  unfold float_nonneg, float_value, Py.int in *. rewrite Prim2SF_float.
  destruct (Prim2SF x) as [s|s| |[] m e] eqn:Ex; try done.
  { injection Hn as <-. by split. }
  injection Hn as <-. cbn [cond_Zopp].
  destruct (valid_bounds _ _ _ Hv) as (He & Hm & _).
  assert (Hn0 : 0 <= Z.shiftl (Z.pos m) e) by (apply Z.shiftl_nonneg; lia).
  destruct (Z.eq_dec (Z.shiftl (Z.pos m) e) 0) as [H0|H0].
  { rewrite H0. by split. }
  set (n := Z.shiftl (Z.pos m) e) in *.
  rewrite (binary_normalize_pos n 0 ltac:(lia)).
  pose proof (binary_round_rounding false (Z.to_pos n) 0) as Hr.
  rewrite Z2Pos.id in Hr by lia.
  assert (Hres : SFfinite (binary_round prec emax false (Z.to_pos n) 0) = true
                 /\ (SF2Q (binary_round prec emax false (Z.to_pos n) 0)
                     == inject_Z (cond_Zopp false n) * pow2 0)%Q
                 /\ exists m' e', binary_round prec emax false (Z.to_pos n) 0
                                  = S754_finite false m' e').
  { destruct (Z.lt_ge_cases e 0) as [Hneg|Hpos].
    - pose proof (rounding_exact false (Z.to_pos n) 0) as Hexact.
      rewrite Z2Pos.id in Hexact by lia. apply Hexact; [done| |lia].
      unfold n. rewrite Z.shiftl_div_pow2 by lia.
      apply Z.le_lt_trans with (Z.pos m); [|done].
      apply Z.div_le_upper_bound; [apply Z.pow_pos_nonneg; lia|].
      assert (1 <= 2 ^ (- e)) by (apply Z.pow_le_mono_r with (b := 0) (a := 2); lia).
      nia.
    - pose proof (rounding_of_float false (Z.to_pos n) 0) as Hfl.
      rewrite Z2Pos.id in Hfl by lia.
      apply (Hfl _ (Z.pos m) e); [done| |lia|lia|done].
      unfold n. rewrite Z.shiftl_mul_pow2 by lia. by rewrite Z.sub_0_r. }
  destruct Hres as (_ & Hval & (m' & e' & Hshape)).
  split; [by rewrite Hshape|].
  rewrite Hval, pow2_0. cbn [cond_Zopp]. ring.
Qed.

(** The fractional part of a float that is not negative is computed
    exactly. *)
Lemma frac_exact x (n : Z) :
  float_nonneg x = true -> Py.int x = Ok n ->
  let f := (x - Py.float n)%float in
  float_nonneg f = true
  /\ (float_value f == float_value x - inject_Z n)%Q
  /\ (0 <= float_value f < 1)%Q.
Proof.
  intros Hx Hn f.
  pose proof (int_nonneg x Hx) as Hfloor. rewrite Hn in Hfloor.
  injection Hfloor as Hfloor.
  destruct (floor_bounds (float_value x)) as [Hlo Hhi]. rewrite <- Hfloor in Hlo, Hhi.
  cut (float_nonneg f = true /\ (float_value f == float_value x - inject_Z n)%Q).
  { intros [H1 H2]. split; [done|]. split; [done|]. rewrite H2. lra. }
  destruct (float_of_int_exact x n Hx Hn) as [Hy Hyv].
  pose proof (float_valid x) as Hvx. pose proof (float_valid (Py.float n)) as Hvy.
  unfold f, float_nonneg, float_value in *. rewrite sub_spec.
  assert (Hn0 : 0 <= n).
  { rewrite Hfloor. apply floor_pos_nonneg. by apply SFnonneg_value. }
  destruct (Z.eq_dec n 0) as [->|Hne].
  - rewrite Prim2SF_float_zero. change (inject_Z 0) with 0%Q.
    destruct (Prim2SF x) as [[]|s| |[] m e]; try done;
      cbn [SF64sub SFsub SFnonneg SF2Q]; split; try done; lra.
  - assert (H1 : (1 <= inject_Z n)%Q).
    { change 1%Q with (inject_Z 1). rewrite <- Zle_Qle. lia. }
    destruct (SFsub_exact (Prim2SF x) (Prim2SF (Py.float n)) Hvx Hvy Hx Hy)
      as [Hr Hrv]; [lra|lra|lra|].
    split; [done|]. rewrite Hrv, Hyv. reflexivity.
Qed.

Lemma Prim2SF_thousand : Prim2SF (Py.float 1000) = SF_thousand.
Proof. reflexivity. Qed.

(** The product of a float in [0, 1) and 1000.0: a float that lies on the
    same side of every whole number as the exact product, within [2^-44]
    of it, and below 1000. *)
Lemma mul_thousand x :
  float_nonneg x = true -> (float_value x < 1)%Q ->
  let p := (x * Py.float 1000)%float in
  let v := (1000 * float_value x)%Q in
  float_nonneg p = true
  /\ (forall K : Z, (inject_Z K <= v)%Q -> (inject_Z K <= float_value p)%Q)
  /\ (forall K : Z, (v <= inject_Z K)%Q -> (float_value p <= inject_Z K)%Q)
  /\ (float_value p - v <= pow2 (-44))%Q /\ (v - float_value p <= pow2 (-44))%Q
  /\ (float_value p < 1000)%Q.
Proof.
  intros Hx Hlt p v. unfold p, float_nonneg, float_value.
  rewrite mul_spec, Prim2SF_thousand.
  apply SFmul_thousand; [apply float_valid|done|done].
Qed.

(** The sum of two floats that are not negative overflows to the
    positive infinity or is a float that is not negative, with a relative
    error of at most [2^-53]. *)
Lemma add_nonneg x y :
  float_nonneg x = true -> float_nonneg y = true ->
  let v := (float_value x + float_value y)%Q in
  Prim2SF (x + y) = S754_infinity false
  \/ (float_nonneg (x + y) = true
      /\ (float_value (x + y) - v <= pow2 (-53) * v)%Q
      /\ (v - float_value (x + y) <= pow2 (-53) * v)%Q).
Proof.
  intros Hx Hy v. unfold float_nonneg, float_value, v. rewrite add_spec.
  apply SFadd_nonneg; try done; apply float_valid.
Qed.

Lemma sub_nonneg x y :
  float_nonneg x = true -> float_nonneg y = true ->
  (float_value y <= float_value x)%Q ->
  let v := (float_value x - float_value y)%Q in
  Prim2SF (x - y) = S754_infinity false
  \/ (float_nonneg (x - y) = true
      /\ (float_value (x - y) - v <= pow2 (-53) * v)%Q
      /\ (v - float_value (x - y) <= pow2 (-53) * v)%Q).
Proof.
  intros Hx Hy Hle v. unfold float_nonneg, float_value, v. rewrite sub_spec.
  apply SFsub_nonneg; try done; apply float_valid.
Qed.

(** [max(0.0, d)] is [0.0], or [d] when [d] is positive or the positive
    infinity. *)
Lemma max_zero_cases (d : PrimFloat.float) :
  (Py.max 0 d = 0%float
   /\ match Prim2SF d with
      | S754_finite false _ _ | S754_infinity false => False
      | _ => True
      end)
  \/ (Py.max 0 d = d
      /\ (Prim2SF d = S754_infinity false
          \/ exists m e, Prim2SF d = S754_finite false m e)).
Proof.
  unfold Py.max. rewrite ltb_spec.
  change (Prim2SF 0) with (S754_zero false).
  destruct (Prim2SF d) as [s|[]| |[] m e] eqn:Ed; cbn;
    try (left; split; done); right; split; try done; eauto.
Qed.

Lemma max_zero_nonneg (d : PrimFloat.float) :
  float_nonneg d = true ->
  float_nonneg (Py.max 0 d) = true
  /\ (float_value (Py.max 0 d) == float_value d)%Q.
Proof.
  intros Hd. destruct (max_zero_cases d) as [[-> Hcase]|[-> _]]; [|by split].
  split; [done|]. unfold float_nonneg, float_value in *.
  destruct (Prim2SF d) as [s|s| |[] m e]; try done.
Qed.

End PythonFloats.

(** ** No overflow below [2^1023] *)

Section NoOverflow.

Implicit Types x y : PrimFloat.float.

(** A rounding overflows only from [2^1023] on. *)
Lemma rounding_no_overflow (m : positive) (e : Z) (r : spec_float) :
  is_rounding false (Z.pos m) e r -> e <= 971 ->
  (inject_Z (Z.pos m) * pow2 e < pow2 1023)%Q ->
  r <> S754_infinity false.
Proof.
  intros (R & HR0 & Hlow & Hup & Habs & Hr) He Hv Hinf.
  destruct Hr as [[_ Hbig]|(Hfin & _)]; [|by rewrite Hinf in Hfin].
  cbn [Zdigits2] in *.
  pose proof (grid_exponent_le m e 1023 Hv) as HG.
  set (G := Z.max (fexp64 (Z.pos (digits2_pos m) + e)) e) in *.
  destruct Hbig as [Hbig|[HG971 HR]]; [lia|].
  assert (Hm : Z.pos m < 2 ^ 52 * 2 ^ (G - e)).
  { apply (scale_lt_inv _ _ e).
    rewrite (scale_shift (2 ^ 52) e (G - e)) by lia.
    replace (e + (G - e)) with 971 by lia.
    rewrite <- (pow2_nonneg 52) by lia. rewrite <- pow2_add.
    exact Hv. }
  specialize (Hup (2 ^ 52) ltac:(lia)). rewrite HR in Hup.
  assert (2 ^ 52 < 2 ^ 53) by (apply Z.pow_lt_mono_r; lia). lia.
Qed.

Lemma SFadd_no_overflow (x y : spec_float) :
  valid_binary x = true -> valid_binary y = true ->
  SFnonneg x = true -> SFnonneg y = true ->
  (SF2Q x + SF2Q y < pow2 1023)%Q ->
  SF64add x y <> S754_infinity false.
Proof.
  intros Hvx Hvy Hx Hy Hlt.
  destruct (SFnonneg_cases x Hvx Hx) as [[sx ->]|(mx & ex & -> & Hex & Hmx)];
    destruct (SFnonneg_cases y Hvy Hy) as [[sy ->]|(my & ey & -> & Hey & Hmy)];
    try (by destruct sx, sy); try (by destruct sx); try (by destruct sy);
    try done.
  pose proof (aligned_value mx my ex ey Z.add Qplus ltac:(intros; by rewrite inject_Z_plus)
                ltac:(intros; ring) _) as Hval.
  cbn zeta in Hval.
  cbn [SF64add SFadd cond_Zopp].
  set (ez := Z.min ex ey) in *.
  set (z := Z.pos (fst (shl_align mx ex ez)) + Z.pos (fst (shl_align my ey ez))) in *.
  assert (Hz : 0 < z) by (unfold z; lia).
  rewrite (binary_normalize_pos z ez Hz).
  apply (rounding_no_overflow (Z.to_pos z) ez).
  - apply binary_round_rounding.
  - unfold ez. lia.
  - rewrite Z2Pos.id by done. by rewrite Hval.
Qed.

Lemma SFsub_no_overflow (x y : spec_float) :
  valid_binary x = true -> valid_binary y = true ->
  SFnonneg x = true -> SFnonneg y = true ->
  (SF2Q y <= SF2Q x)%Q -> (SF2Q x < pow2 1023)%Q ->
  SF64sub x y <> S754_infinity false.
Proof.
  intros Hvx Hvy Hx Hy Hle Hlt.
  pose proof (SFnonneg_value y Hy) as Hy0.
  destruct (SFnonneg_cases x Hvx Hx) as [[sx ->]|(mx & ex & -> & Hex & Hmx)];
    destruct (SFnonneg_cases y Hvy Hy) as [[sy ->]|(my & ey & -> & Hey & Hmy)];
    try (by destruct sx, sy); try (by destruct sx); try (by destruct sy);
    try done.
  pose proof (aligned_value mx my ex ey Z.sub Qminus inject_Z_sub
                ltac:(intros; ring) _) as Hval.
  cbn zeta in Hval.
  cbn [SF64sub SFsub cond_Zopp].
  set (ez := Z.min ex ey) in *.
  set (z := Z.pos (fst (shl_align mx ex ez)) - Z.pos (fst (shl_align my ey ez))) in *.
  assert (Hz : 0 <= z).
  { apply (scale_le_inv 0 z ez). rewrite Hval.
    change (inject_Z 0) with 0%Q. lra. }
  destruct (Z.eq_dec z 0) as [Hz0|Hz0]; [by rewrite Hz0|].
  rewrite (binary_normalize_pos z ez ltac:(lia)).
  apply (rounding_no_overflow (Z.to_pos z) ez).
  - apply binary_round_rounding.
  - unfold ez. lia.
  - rewrite Z2Pos.id by lia. rewrite Hval. lra.
Qed.

(** A sum below [2^1023] of floats that are not negative is a float that
    is not negative. *)
Lemma add_no_overflow x y :
  float_nonneg x = true -> float_nonneg y = true ->
  (float_value x + float_value y < pow2 1023)%Q ->
  float_nonneg (x + y) = true.
Proof.
  intros Hx Hy Hlt.
  destruct (add_nonneg x y Hx Hy) as [Hinf|(H & _)]; [exfalso|done].
  rewrite add_spec in Hinf. revert Hinf.
  apply SFadd_no_overflow; try done; apply float_valid.
Qed.

(** The difference of two floats that are not negative, the greater
    first and below [2^1023], is a float that is not negative, with a
    relative error of at most [2^-53]. *)
Lemma sub_no_overflow x y :
  float_nonneg x = true -> float_nonneg y = true ->
  (float_value y <= float_value x)%Q -> (float_value x < pow2 1023)%Q ->
  let v := (float_value x - float_value y)%Q in
  float_nonneg (x - y) = true
  /\ (float_value (x - y) - v <= pow2 (-53) * v)%Q.
Proof.
  intros Hx Hy Hle Hlt v.
  destruct (sub_nonneg x y Hx Hy Hle) as [Hinf|(H & H1 & _)]; [exfalso|done].
  rewrite sub_spec in Hinf. revert Hinf.
  apply SFsub_no_overflow; try done; apply float_valid.
Qed.

End NoOverflow.

(** ** The model on small inputs *)

Example format_srt_time_zero : format_srt_time 0 = Ok "00:00:00,000".
Proof. vm_compute. reflexivity. Qed.

Example format_srt_time_3661_25 :
  format_srt_time 3661.25 = Ok "01:01:01,250".
Proof. vm_compute. reflexivity. Qed.

Example format_srt_time_100h :
  format_srt_time 360000 = Ok "100:00:00,000".
Proof. vm_compute. reflexivity. Qed.

Example format_srt_time_nan : format_srt_time nan = Fail ValueError.
Proof. vm_compute. reflexivity. Qed.

Example format_srt_time_infinity : format_srt_time infinity = Fail OverflowError.
Proof. vm_compute. reflexivity. Qed.

Example of_string_rel : PathLib.of_string "./talks/a.mp3" = mkPath ["talks"; "a.mp3"].
Proof. reflexivity. Qed.

Example of_string_abs : PathLib.of_string "/srv//x.TS" = mkPath ["/"; "srv"; "x.TS"].
Proof. reflexivity. Qed.

Example suffix_plain : PathLib.suffix (mkPath ["talks"; "a.tar.Mp3"]) = ".Mp3".
Proof. reflexivity. Qed.

Example suffix_hidden : PathLib.suffix (mkPath ["talks"; ".mp3"]) = "".
Proof. reflexivity. Qed.

Example with_suffix_plain :
  PathLib.with_suffix (mkPath ["talks"; "a.tar.Mp3"]) ".wav"
  = Some (mkPath ["talks"; "a.tar.wav"]).
Proof. reflexivity. Qed.

Example with_suffix_bare :
  PathLib.with_suffix (mkPath ["talks"; "notes"]) ".wav"
  = Some (mkPath ["talks"; "notes.wav"]).
Proof. reflexivity. Qed.

(** ** Expressions that may raise *)

Section TryRules.

Context {A B : Type}.

Lemma try_bind_ok (t : Try A) (f : A -> Try B) (b : B) :
  t ≫= f = Ok b <-> exists a, t = Ok a /\ f a = Ok b.
Proof.
  unfold mbind, Try_bind. destruct t as [a|e].
  - split; [by exists a|]. by intros (a' & [= <-] & H).
  - split; [done|]. by intros (a' & ? & _).
Qed.

Lemma try_bind_fail (t : Try A) (f : A -> Try B) (e : Exn) :
  t ≫= f = Fail e <-> t = Fail e \/ exists a, t = Ok a /\ f a = Fail e.
Proof.
  unfold mbind, Try_bind. destruct t as [a|e'].
  - split; [intros H; right; by exists a|]. intros [?|(a' & [= <-] & H)]; done.
  - split; [intros [= ->]; by left|]. intros [[= ->]|(a' & ? & _)]; done.
Qed.

End TryRules.

(** ** The transcript accumulator *)

Section Accumulator.

Local Ltac fields :=
  cbn [srt_lines txt_lines index last_end progress_accumulation pbar_n
       pbar_updates raised].

Lemma progress_step_lines (st st' : LoopState) (e : PrimFloat.float) :
  progress_step st e = Ok st' ->
  srt_lines st' = srt_lines st /\ txt_lines st' = txt_lines st
  /\ index st' = index st /\ raised st' = raised st.
Proof.
  unfold progress_step. intros (whole & _ & [= <-])%try_bind_ok.
  by destruct (0 <? whole).
Qed.

Lemma segment_body_lines (st st' : LoopState) (seg : Segment) :
  segment_body st seg = Ok st' ->
  exists block,
    srt_block (index st) seg = Ok block
    /\ srt_lines st' = srt_lines st ++ block
    /\ txt_lines st' = txt_lines st ++ [seg_text seg]
    /\ index st' = index st + 1
    /\ raised st' = raised st.
Proof.
  unfold segment_body. intros (block & Hblock & (st2 & Hstep & [= <-])%try_bind_ok)%try_bind_ok.
  exists block. split; [done|]. fields.
  by destruct (progress_step_lines _ _ _ Hstep) as (-> & -> & -> & ->).
Qed.

Lemma segment_step_no_text (st : LoopState) (seg : Segment) :
  has_text seg = false -> segment_step st seg = st.
Proof. unfold has_text, segment_step. intros ->. by destruct (raised st). Qed.

Lemma segment_step_raised (st : LoopState) (seg : Segment) (e : Exn) :
  raised st = Some e -> segment_step st seg = st.
Proof. unfold segment_step. by intros ->. Qed.

Lemma consume_segments_raised (st : LoopState) (segments : list Segment) (e : Exn) :
  raised st = Some e -> consume_segments st segments = st.
Proof.
  revert st. induction segments as [|seg segments IH]; intros st Hst; [done|].
  unfold consume_segments in *. cbn [fold_left].
  rewrite (segment_step_raised st seg e Hst). by apply IH.
Qed.

(** One iteration of a loop that goes on: the segment has no text and
    nothing changes, or the body runs to its end. *)
Lemma segment_step_cases (st : LoopState) (seg : Segment) :
  raised (segment_step st seg) = None ->
  raised st = None
  /\ (if has_text seg then segment_body st seg = Ok (segment_step st seg)
      else segment_step st seg = st).
Proof.
  unfold segment_step, has_text.
  destruct (raised st) as [e|] eqn:Hr; [by rewrite Hr|]. intros H. split; [done|].
  destruct (Py.truthy (seg_text seg)); cbn [negb] in *; [|done].
  by destruct (segment_body st seg).
Qed.

Lemma consume_segments_cons (st : LoopState) (seg : Segment) (segments : list Segment) :
  consume_segments st (seg :: segments)
  = consume_segments (segment_step st seg) segments.
Proof. done. Qed.

(** A loop that ends without exception went through every iteration
    without one. *)
Lemma consume_segments_step_ok (st : LoopState) (seg : Segment)
    (segments : list Segment) :
  raised (consume_segments st (seg :: segments)) = None ->
  raised (segment_step st seg) = None.
Proof.
  rewrite consume_segments_cons. intros H.
  destruct (raised (segment_step st seg)) as [e|] eqn:Hr; [|done].
  by rewrite (consume_segments_raised _ segments e Hr), Hr in H.
Qed.

Lemma blocks_from_cons_ok (first : Z) (seg : Segment) (rest : list Segment)
    (block others : list string) :
  srt_block first seg = Ok block ->
  blocks_from (first + 1) rest = Ok others ->
  blocks_from first (seg :: rest) = Ok (block ++ others).
Proof. cbn [blocks_from]. by intros -> ->. Qed.

Lemma consume_segments_lines (segments : list Segment) (st : LoopState) :
  let st' := consume_segments st segments in
  let kept := List.filter has_text segments in
  raised st' = None ->
  exists blocks,
    blocks_from (index st) kept = Ok blocks
    /\ srt_lines st' = srt_lines st ++ blocks
    /\ txt_lines st' = txt_lines st ++ (seg_text <$> kept)
    /\ index st' = index st + Z.of_nat (length kept).
Proof.
  revert st. induction segments as [|seg segments IH]; intros st st' kept Hok.
  - exists []. cbn. rewrite !app_nil_r. repeat split; lia.
  - pose proof (consume_segments_step_ok st seg segments Hok) as Hstep.
    destruct (segment_step_cases st seg Hstep) as [Hst Hcase].
    destruct (IH (segment_step st seg) Hok) as (blocks & Hb & Hs & Ht & Hi).
    unfold st', kept. rewrite consume_segments_cons. cbn [List.filter].
    destruct (has_text seg) eqn:Htext.
    + destruct (segment_body_lines _ _ _ Hcase) as (block & Hblock & Hs1 & Ht1 & Hi1 & _).
      exists (block ++ blocks). rewrite Hi1 in Hb.
      split; [by apply blocks_from_cons_ok|].
      split; [by rewrite Hs, Hs1, app_assoc|].
      split; [by rewrite Ht, Ht1, fmap_cons, <- app_assoc|].
      rewrite Hi, Hi1. cbn [length]. lia.
    + rewrite Hcase in *. by exists blocks.
Qed.

Lemma srt_block_length (idx : Z) (seg : Segment) (block : list string) :
  srt_block idx seg = Ok block -> length block = 4%nat.
Proof.
  unfold srt_block.
  by intros (s & _ & (e & _ & [= <-])%try_bind_ok)%try_bind_ok.
Qed.

Lemma blocks_from_cons (first : Z) (seg : Segment) (rest : list Segment)
    (blocks : list string) :
  blocks_from first (seg :: rest) = Ok blocks ->
  exists block others,
    srt_block first seg = Ok block
    /\ blocks_from (first + 1) rest = Ok others
    /\ blocks = block ++ others.
Proof.
  cbn [blocks_from].
  intros (block & Hblock & (others & Hothers & [= <-])%try_bind_ok)%try_bind_ok.
  by exists block, others.
Qed.

Lemma blocks_from_length (first : Z) (kept : list Segment) (blocks : list string) :
  blocks_from first kept = Ok blocks -> length blocks = (4 * length kept)%nat.
Proof.
  revert first blocks. induction kept as [|seg rest IH]; intros first blocks.
  - by intros [= <-].
  - intros (block & others & Hblock & Hothers & ->)%blocks_from_cons.
    rewrite length_app, (srt_block_length _ _ _ Hblock), (IH _ _ Hothers).
    cbn [length]. lia.
Qed.

Lemma blocks_from_lookup (kept : list Segment) (first : Z) (blocks : list string)
    (i : nat) (seg : Segment) :
  blocks_from first kept = Ok blocks ->
  kept !! i = Some seg ->
  exists block,
    srt_block (first + Z.of_nat i) seg = Ok block
    /\ forall j, (j < 4)%nat -> blocks !! (4 * i + j)%nat = block !! j.
Proof.
  revert first blocks i. induction kept as [|s rest IH]; intros first blocks i; [done|].
  intros (block & others & Hblock & Hothers & ->)%blocks_from_cons Hi.
  pose proof (srt_block_length _ _ _ Hblock) as Hlen.
  destruct i as [|i].
  - cbn in Hi. injection Hi as ->. rewrite Z.add_0_r. exists block.
    split; [done|]. intros j Hj. rewrite lookup_app_l by lia. done.
  - cbn in Hi. destruct (IH _ _ _ Hothers Hi) as (b & Hb & Hlook).
    exists b. split.
    + rewrite <- Hb. f_equal. lia.
    + intros j Hj. rewrite lookup_app_r by lia. rewrite <- (Hlook j Hj).
      f_equal. lia.
Qed.

Lemma filter_all_text (segments : list Segment) :
  forallb has_text segments = true ->
  List.filter has_text segments = segments.
Proof.
  induction segments as [|seg segments IH]; [done|]. simpl.
  intros [Hseg Hall]%andb_prop. rewrite Hseg. f_equal. by apply IH.
Qed.

(** C4.  When the segment loop runs to its end, the subtitle lines it has
    built are one block per segment with text, in input order: the block
    of the [i]-th such segment (counting from 0) is the four lines
    [i + 1], [start --> end] with both times formatted, the text and an
    empty line; the plain-text lines are the texts of the same segments in
    the same order.  Segments without text contribute to neither document
    and take no number, and when every segment has text there is a block
    for every segment. *)
Theorem subtitle_blocks (segments : list Segment) :
  let st := consume_segments loop_init segments in
  let kept := List.filter has_text segments in
  raised st = None ->
  length (srt_lines st) = (4 * length kept)%nat
  /\ (forall (i : nat) (seg : Segment),
        kept !! i = Some seg ->
        exists start_time end_time,
          format_srt_time (seg_start seg) = Ok start_time
          /\ format_srt_time (seg_end seg) = Ok end_time
          /\ srt_lines st !! (4 * i)%nat = Some (Py.str (Z.of_nat i + 1))
          /\ srt_lines st !! (4 * i + 1)%nat
             = Some (start_time +:+ " --> " +:+ end_time)
          /\ srt_lines st !! (4 * i + 2)%nat = Some (seg_text seg)
          /\ srt_lines st !! (4 * i + 3)%nat = Some "")
  /\ txt_lines st = seg_text <$> kept
  /\ blocks_from 1 kept = Ok (srt_lines st)
  /\ (forallb has_text segments = true -> kept = segments).
Proof.
  intros st kept Hok.
  destruct (consume_segments_lines segments loop_init Hok)
    as (blocks & Hb & Hs & Ht & _).
  fold st kept in Hs, Ht, Hb. cbn in Hs, Ht, Hb. subst blocks.
  split; [by apply (blocks_from_length 1)|].
  split; [|split; [done|split; [done|apply filter_all_text]]].
  intros i seg Hi.
  destruct (blocks_from_lookup kept 1 _ i seg Hb Hi) as (block & Hblock & Hlook).
  unfold srt_block in Hblock.
  apply try_bind_ok in Hblock as (start_time & Hstart & Hblock).
  apply try_bind_ok in Hblock as (end_time & Hend & [= <-]).
  exists start_time, end_time. split; [done|]. split; [done|].
  pose proof (Hlook 0%nat ltac:(lia)) as H0. rewrite Nat.add_0_r in H0.
  rewrite H0, (Hlook 1%nat), (Hlook 2%nat), (Hlook 3%nat) by lia. cbn.
  replace (1 + Z.of_nat i) with (Z.of_nat i + 1) by lia. done.
Qed.

End Accumulator.

(** ** Timestamps *)

Section Timestamps.

Lemma string_length_app (a b : string) :
  String.length (a +:+ b) = (String.length a + String.length b)%nat.
Proof. induction a as [|c a IH]; simpl; [done|]. by rewrite IH. Qed.

Lemma repeat_char_length c k : String.length (Py.repeat_char c k) = k.
Proof. induction k as [|k IH]; simpl; [done|]. by rewrite IH. Qed.

Lemma zero_pad_length w d :
  String.length (zero_pad w d) = Nat.max w (String.length d).
Proof. unfold zero_pad. rewrite string_length_app, repeat_char_length. lia. Qed.

Lemma format_0w_nonneg w n : 0 <= n -> Py.format_0w w n = zero_pad w (Py.str n).
Proof.
  intros Hn. unfold Py.format_0w.
  destruct (Z.ltb_spec n 0) as [?|_]; [lia|done].
Qed.

Lemma forallb_below (P : nat -> bool) (N : nat) :
  forallb P (seq 0 N) = true -> forall k, (k < N)%nat -> P k = true.
Proof.
  intros H k Hk. rewrite forallb_forall in H. apply H, in_seq. lia.
Qed.

Lemma str_length_lt_1000 (n : Z) :
  0 <= n < 1000 ->
  String.length (Py.str n) = if n <? 10 then 1%nat else if n <? 100 then 2%nat else 3%nat.
Proof.
  intros Hn.
  pose (P := fun k : nat =>
    Nat.eqb (String.length (Py.str (Z.of_nat k)))
      (if Z.of_nat k <? 10 then 1 else if Z.of_nat k <? 100 then 2 else 3)).
  assert (H : P (Z.to_nat n) = true).
  { apply (forallb_below P 1000); [vm_compute; reflexivity | lia]. }
  unfold P in H. rewrite Z2Nat.id in H by lia. by apply Nat.eqb_eq in H.
Qed.

(** The milliseconds of a time that is not negative: the truncated
    binary64 product of the fractional part, which is exact, and 1000. *)
Lemma millis_spec (t : PrimFloat.float) (whole : Z) :
  float_nonneg t = true -> Py.int t = Ok whole ->
  let frac := (float_value t - inject_Z whole)%Q in
  exists ms : Z,
    Py.int ((t - Py.float whole) * Py.float 1000)%float = Ok ms
    /\ (float_value (t - Py.float whole) == frac)%Q
    /\ Qfloor (frac * 1000) <= ms <= Qfloor (frac * 1000) + 1
    /\ (inject_Z ms <= frac * 1000 + pow2 (-44))%Q
    /\ 0 <= ms < 1000.
Proof.
  intros Ht Hwhole frac.
  destruct (frac_exact t whole Ht Hwhole) as (Hf & Hfv & Hf0 & Hf1).
  fold frac in Hfv.
  destruct (mul_thousand _ Hf Hf1) as (Hp & Hbelow & Habove & Hup & _ & Hlt).
  set (p := ((t - Py.float whole) * Py.float 1000)%float) in *.
  exists (Qfloor (float_value p)).
  split; [by apply int_nonneg|]. split; [done|].
  destruct (floor_bounds (frac * 1000)) as [Klo Khi].
  destruct (floor_bounds (float_value p)) as [Plo Phi].
  set (K := Qfloor (frac * 1000)) in *.
  assert (HK : (inject_Z K <= float_value p)%Q) by (apply Hbelow; lra).
  assert (HK1 : (float_value p <= inject_Z (K + 1))%Q).
  { apply Habove. rewrite inject_Z_plus. change (inject_Z 1) with 1%Q. lra. }
  split; [split|].
  - rewrite <- (Qfloor_Z K). by apply Qfloor_resp_le.
  - rewrite <- (Qfloor_Z (K + 1)). by apply Qfloor_resp_le.
  - split; [lra|]. split.
    + apply floor_pos_nonneg. by apply float_nonneg_value.
    + rewrite Zlt_Qlt. change (inject_Z 1000) with 1000%Q. lra.
Qed.

(** The fields of a timestamp. *)
Lemma format_srt_time_fields (t : PrimFloat.float) :
  float_finite t = true -> (0 <= float_value t)%Q ->
  let whole := Qfloor (float_value t) in
  let h := whole / 3600 in
  let m := (whole / 60) mod 60 in
  let s := whole mod 60 in
  let frac := (float_value t - inject_Z whole)%Q in
  exists ms : Z,
    format_srt_time t
    = Ok (zero_pad 2 (Py.str h) +:+ ":" +:+ zero_pad 2 (Py.str m) +:+ ":"
            +:+ zero_pad 2 (Py.str s) +:+ "," +:+ zero_pad 3 (Py.str ms))
    /\ 0 <= h /\ 0 <= m < 60 /\ 0 <= s < 60 /\ 0 <= ms < 1000
    /\ whole = h * 3600 + m * 60 + s
    /\ Py.int ((t - Py.float whole) * Py.float 1000)%float = Ok ms
    /\ (float_value (t - Py.float whole) == frac)%Q
    /\ Qfloor (frac * 1000) <= ms <= Qfloor (frac * 1000) + 1
    /\ (inject_Z ms <= frac * 1000 + pow2 (-44))%Q.
Proof.
  intros Hfin Ht whole h m s frac.
  pose proof (float_finite_nonneg t Hfin Ht) as Hnn.
  pose proof (int_nonneg t Hnn) as Hint. fold whole in Hint.
  destruct (millis_spec t whole Hnn Hint) as (ms & Hms & Hfrac & Hround & Hup & Hrange).
  fold frac in Hfrac, Hround, Hup.
  assert (Hwhole : 0 <= whole) by (by apply floor_pos_nonneg).
  assert (Hm : 0 <= m < 60) by (apply Z.mod_pos_bound; lia).
  assert (Hs : 0 <= s < 60) by (apply Z.mod_pos_bound; lia).
  assert (Hh : 0 <= h) by (apply Z.div_pos; lia).
  exists ms. repeat split; try done; try lia.
  - unfold format_srt_time. rewrite Hint. cbn [mbind Try_bind].
    rewrite Hms. cbn [mbind Try_bind]. fold h m s.
    rewrite !format_0w_nonneg by lia. done.
  - unfold h, m, s.
    change 3600 with (60 * 60). rewrite <- (Z.div_div whole 60 60) by lia.
    pose proof (Z.div_mod whole 60 ltac:(lia)).
    pose proof (Z.div_mod (whole / 60) 60 ltac:(lia)). lia.
Qed.

Lemma padded_length (w : nat) (n : Z) :
  0 <= n < 1000 -> (3 <= w -> String.length (zero_pad w (Py.str n)) = w)%nat.
Proof.
  intros Hn Hw. rewrite zero_pad_length, str_length_lt_1000 by lia.
  destruct (Z.ltb_spec n 10), (Z.ltb_spec n 100); lia.
Qed.

Lemma padded_length_2 (n : Z) :
  0 <= n < 60 -> String.length (zero_pad 2 (Py.str n)) = 2%nat.
Proof.
  intros Hn. rewrite zero_pad_length, str_length_lt_1000 by lia.
  destruct (Z.ltb_spec n 10), (Z.ltb_spec n 100); lia.
Qed.


End Timestamps.

(** ** The progress arithmetic *)

Section Progress.

Local Ltac fields :=
  cbn [srt_lines txt_lines index last_end progress_accumulation pbar_n
       pbar_updates raised].

Lemma sum_updates_snoc l u : sum_updates (l ++ [u]) = sum_updates l + u.
Proof. unfold sum_updates. induction l as [|x l IH]; simpl; lia. Qed.

(** Adding the positive infinity to a float that is not negative. *)
Lemma add_infinity (x y : PrimFloat.float) :
  float_nonneg x = true -> Prim2SF y = S754_infinity false ->
  Prim2SF (x + y) = S754_infinity false.
Proof.
  unfold float_nonneg. rewrite add_spec. intros Hx ->.
  by destruct (Prim2SF x) as [s|s| |[] m e].
Qed.

(** [max(0.0, d)] is not negative, or the positive infinity. *)
Lemma max_zero_shape (d : PrimFloat.float) :
  float_nonneg (Py.max 0 d) = true \/ Prim2SF (Py.max 0 d) = S754_infinity false.
Proof.
  destruct (max_zero_cases d) as [[-> _]|[-> [Hd|(m & e & Hd)]]].
  - by left.
  - by right.
  - left. unfold float_nonneg. by rewrite Hd.
Qed.

(** The accumulator after the addition is not negative, if it is finite
    at all. *)
Lemma accumulator_nonneg (rem d : PrimFloat.float) :
  float_nonneg rem = true ->
  float_finite (rem + Py.max 0 d) = true ->
  float_nonneg (rem + Py.max 0 d) = true.
Proof.
  intros Hrem Hfin. destruct (max_zero_shape d) as [Hd|Hd].
  - destruct (add_nonneg rem _ Hrem Hd) as [Hinf|(H & _)]; [|done].
    unfold float_finite in Hfin. by rewrite Hinf in Hfin.
  - unfold float_finite in Hfin. by rewrite (add_infinity _ _ Hrem Hd) in Hfin.
Qed.

(** The two ways the progress arithmetic ends. *)
Lemma progress_step_shape (st st' : LoopState) (e : PrimFloat.float) :
  progress_step st e = Ok st' ->
  let acc := (progress_accumulation st + Py.max 0 (e - last_end st))%float in
  exists whole,
    Py.int acc = Ok whole /\ last_end st' = e
    /\ ((0 < whole
         /\ progress_accumulation st' = (acc - Py.float whole)%float
         /\ pbar_n st' = pbar_n st + whole
         /\ pbar_updates st' = pbar_updates st ++ [whole])
        \/ (whole <= 0
            /\ progress_accumulation st' = acc
            /\ pbar_n st' = pbar_n st
            /\ pbar_updates st' = pbar_updates st)).
Proof.
  intros Hstep acc. unfold progress_step in Hstep. cbv zeta in Hstep.
  apply try_bind_ok in Hstep as (whole & Hwhole & [= <-]). fold acc in Hwhole.
  exists whole. split; [done|].
  destruct (Z.ltb_spec 0 whole); fields; (split; [done|]); [left|right]; done.
Qed.

(** One update keeps the invariant, and moves position plus remainder by
    exactly what the accumulator has gained. *)
Lemma progress_step_inv (st st' : LoopState) (e : PrimFloat.float) :
  progress_inv st -> progress_step st e = Ok st' ->
  let acc := (progress_accumulation st + Py.max 0 (e - last_end st))%float in
  progress_inv st' /\ last_end st' = e
  /\ float_nonneg acc = true
  /\ (inject_Z (pbar_n st') + float_value (progress_accumulation st')
      == inject_Z (pbar_n st) + float_value acc)%Q.
Proof.
  intros (Hn & Hpos & Hrem & Hlt) Hstep acc.
  destruct (progress_step_shape st st' e Hstep) as (whole & Hwhole & Hend & Hcase).
  fold acc in Hwhole, Hcase.
  assert (Hacc : float_nonneg acc = true).
  { apply accumulator_nonneg; [done|]. apply int_finite. by exists whole. }
  pose proof (int_nonneg acc Hacc) as Hfloor. rewrite Hwhole in Hfloor.
  injection Hfloor as Hfloor.
  destruct (floor_bounds (float_value acc)) as [Hlo Hhi]. rewrite <- Hfloor in Hlo, Hhi.
  destruct Hcase as [(Hw & Hr' & Hn' & Hu')|(Hw & Hr' & Hn' & Hu')].
  - destruct (frac_exact acc whole Hacc Hwhole) as (Hf & Hfv & Hf0 & Hf1).
    split; [|split; [done|split; [done|]]].
    + unfold progress_inv. rewrite Hr', Hn', Hu'. repeat split; try done;
        first [ rewrite sum_updates_snoc; lia
              | apply Forall_app; split; [done|]; by constructor ].
    + rewrite Hr', Hn', Hfv, inject_Z_plus. ring.
  - assert (Hz : whole = 0).
    { pose proof (floor_pos_nonneg _ (float_nonneg_value acc Hacc)). lia. }
    rewrite Hz in Hhi. change (inject_Z 0) with 0%Q in Hhi.
    split; [|split; [done|split; [done|]]].
    + unfold progress_inv. rewrite Hr', Hn', Hu'. repeat split; try done; lra.
    + rewrite Hr', Hn'. reflexivity.
Qed.

(** The loop body does to the progress fields what the update does. *)
Lemma segment_body_progress (st st' : LoopState) (seg : Segment) :
  segment_body st seg = Ok st' ->
  exists block st1 st2,
    srt_block (index st) seg = Ok block
    /\ progress_step st1 (seg_end seg) = Ok st2
    /\ last_end st1 = last_end st
    /\ progress_accumulation st1 = progress_accumulation st
    /\ pbar_n st1 = pbar_n st /\ pbar_updates st1 = pbar_updates st
    /\ last_end st' = last_end st2
    /\ progress_accumulation st' = progress_accumulation st2
    /\ pbar_n st' = pbar_n st2 /\ pbar_updates st' = pbar_updates st2.
Proof.
  unfold segment_body.
  intros (block & Hblock & (st2 & Hstep & [= <-])%try_bind_ok)%try_bind_ok.
  eexists block, _, st2. split; [done|]. split; [exact Hstep|]. by fields.
Qed.

Lemma segment_body_inv (st st' : LoopState) (seg : Segment) :
  progress_inv st -> segment_body st seg = Ok st' ->
  let acc := (progress_accumulation st
              + Py.max 0 (seg_end seg - last_end st))%float in
  progress_inv st' /\ last_end st' = seg_end seg
  /\ float_nonneg acc = true
  /\ (inject_Z (pbar_n st') + float_value (progress_accumulation st')
      == inject_Z (pbar_n st) + float_value acc)%Q.
Proof.
  intros Hinv Hbody.
  destruct (segment_body_progress st st' seg Hbody)
    as (block & st1 & st2 & _ & Hstep & Hl1 & Hr1 & Hn1 & Hu1 & Hl & Hr & Hn & Hu).
  assert (Hinv1 : progress_inv st1).
  { unfold progress_inv in *. by rewrite Hr1, Hn1, Hu1. }
  pose proof (progress_step_inv st1 st2 (seg_end seg) Hinv1 Hstep) as H.
  cbv zeta in H. rewrite Hl1, Hr1, Hn1 in H.
  destruct H as (Hinv2 & Hend & Hacc & Hmove).
  cbv zeta. unfold progress_inv in *. rewrite Hl, Hr, Hn, Hu. done.
Qed.

Lemma segment_step_inv (st : LoopState) (seg : Segment) :
  progress_inv st -> progress_inv (segment_step st seg).
Proof.
  intros Hinv. unfold segment_step.
  destruct (raised st); [done|].
  destruct (negb (Py.truthy (seg_text seg))); [done|].
  destruct (segment_body st seg) as [st'|e] eqn:Hbody; [|done].
  by destruct (segment_body_inv st st' seg Hinv Hbody) as (H & _).
Qed.

(** The invariant holds for segments of any kind, in any order, and also
    when an exception cuts the loop short. *)
Lemma consume_segments_inv (segments : list Segment) (st : LoopState) :
  progress_inv st -> progress_inv (consume_segments st segments).
Proof.
  revert st. induction segments as [|seg segments IH]; intros st Hinv; [done|].
  rewrite consume_segments_cons. by apply IH, segment_step_inv.
Qed.

Lemma progress_inv_init : progress_inv loop_init.
Proof. unfold progress_inv, loop_init; fields. by repeat split. Qed.


(** A timestamp is only formatted for a finite number. *)
Lemma format_srt_time_finite (t : PrimFloat.float) (s : string) :
  format_srt_time t = Ok s -> float_finite t = true.
Proof.
  unfold format_srt_time. intros (whole & Hwhole & _)%try_bind_ok.
  apply int_finite. by exists whole.
Qed.

Lemma srt_block_finite (idx : Z) (seg : Segment) (block : list string) :
  srt_block idx seg = Ok block ->
  float_finite (seg_start seg) = true /\ float_finite (seg_end seg) = true.
Proof.
  unfold srt_block.
  intros (s & Hs & (e & He & _)%try_bind_ok)%try_bind_ok.
  split; by eapply format_srt_time_finite.
Qed.

Lemma pow2_53_bounds : (0 < pow2 (-53) /\ pow2 (-53) <= 1)%Q.
Proof. split; [apply pow2_pos|]. vm_compute. discriminate. Qed.

(** What one segment with text adds to the drift, when end times do not
    decrease: the rounding of the subtraction and of the addition. *)
Lemma segment_body_drift (st st' : LoopState) (seg : Segment) (J : Q) :
  progress_inv st -> segment_body st seg = Ok st' ->
  float_nonneg (last_end st) = true ->
  (float_value (last_end st) <= float_value (seg_end seg))%Q ->
  let bound := fun (j : Q) (s : LoopState) =>
    ((j + 3 * float_value (last_end s)) * pow2 (-53))%Q in
  (- bound J st <= drift st <= bound J st)%Q ->
  float_nonneg (last_end st') = true
  /\ (- bound (J + 1) st' <= drift st' <= bound (J + 1) st')%Q.
Proof.
  intros Hinv Hbody Hlast Hle bound Hdrift.
  destruct (segment_body_inv st st' seg Hinv Hbody) as (Hinv' & Hend & Hacc & Hmove).
  destruct (segment_body_progress st st' seg Hbody) as (block & _ & _ & Hblock & _).
  destruct (srt_block_finite _ _ _ Hblock) as [_ Hfin].
  destruct Hinv as (_ & _ & Hrem & Hlt).
  pose proof (float_nonneg_value _ Hrem) as Hrem0.
  pose proof (float_nonneg_value _ Hlast) as Hlast0.
  assert (He : float_nonneg (seg_end seg) = true).
  { apply float_finite_nonneg; [done|]. lra. }
  set (e := seg_end seg) in *. set (d := (e - last_end st)%float) in *.
  set (acc := (progress_accumulation st + Py.max 0 d)%float) in *.
  assert (Haccfin : float_finite acc = true) by by apply float_nonneg_finite.
  destruct (sub_nonneg e (last_end st) He Hlast Hle) as [Hinf|(Hd & Hd1 & Hd2)];
    fold d in Hinf || fold d in Hd, Hd1, Hd2.
  { exfalso. destruct (max_zero_cases d) as [[_ Hcase]|[Hmax _]].
    - by rewrite Hinf in Hcase.
    - unfold float_finite, acc in Haccfin.
      rewrite (add_infinity _ _ Hrem) in Haccfin; [done|]. by rewrite Hmax. }
  destruct (max_zero_nonneg d Hd) as [Hdelta Hdeltav].
  destruct (add_nonneg _ _ Hrem Hdelta) as [Hinf|(_ & Ha1 & Ha2)];
    fold acc in Hinf || fold acc in Ha1, Ha2.
  { unfold float_finite in Haccfin. by rewrite Hinf in Haccfin. }
  rewrite Hdeltav in Ha1, Ha2.
  split; [by rewrite Hend|].
  unfold bound, drift in *. rewrite Hend, Hmove.
  destruct pow2_53_bounds as [Hu0 Hu1].
  set (u := pow2 (-53)) in *.
  set (A := float_value acc) in *. set (r := float_value (progress_accumulation st)) in *.
  set (dl := float_value d) in *. set (E := float_value e) in *.
  set (L := float_value (last_end st)) in *. set (n := inject_Z (pbar_n st)) in *.
  assert (Hx : (0 <= E - L)%Q) by lra.
  assert (H1 : (u * r <= u)%Q) by nra.
  assert (H2 : (u * (E - L) <= E - L)%Q) by nra.
  assert (H3 : (u * (u * (E - L)) <= u * (E - L))%Q) by nra.
  assert (H4 : (0 <= u * (E - L))%Q) by nra.
  assert (H5 : (u * dl <= u * (E - L) + u * (u * (E - L)))%Q) by nra.
  assert (H6 : (0 <= dl)%Q) by (by apply float_nonneg_value).
  assert (H7 : (0 <= u * dl)%Q) by nra.
  split; nra.
Qed.

Lemma last_cons_default {A} (a d : A) (l : list A) :
  List.last (a :: l) d = List.last l a.
Proof.
  revert a d. induction l as [|x l IH]; intros a d; [done|].
  change (List.last (x :: l) d = List.last (x :: l) a).
  by rewrite (IH x d), (IH x a).
Qed.

(** The invariant of a loop that runs to its end over segments whose end
    times do not decrease. *)
Lemma consume_segments_drift (segments : list Segment) (st : LoopState) (J : Q) :
  let st' := consume_segments st segments in
  let bound := fun (j : Q) (s : LoopState) =>
    ((j + 3 * float_value (last_end s)) * pow2 (-53))%Q in
  raised st' = None ->
  progress_inv st -> float_nonneg (last_end st) = true ->
  Forall (fun seg => (float_value (last_end st) <= float_value (seg_end seg))%Q) segments ->
  StronglySorted (fun a b => (float_value (seg_end a) <= float_value (seg_end b))%Q) segments ->
  (- bound J st <= drift st <= bound J st)%Q ->
  let j := inject_Z (Z.of_nat (length (List.filter has_text segments))) in
  float_value (last_end st')
  = List.last (float_value ∘ seg_end <$> List.filter has_text segments)
      (float_value (last_end st))
  /\ (- bound (J + j) st' <= drift st' <= bound (J + j) st')%Q.
Proof.
  revert st J. induction segments as [|seg segments IH];
    intros st J st' bound Hok Hinv Hlast Hall Hsort Hdrift j.
  - split; [done|]. unfold j, bound in *. cbn [List.filter length].
    change (inject_Z (Z.of_nat 0)) with 0%Q. unfold st'.
    cbn [consume_segments fold_left]. by rewrite Qplus_0_r.
  - pose proof (consume_segments_step_ok st seg segments Hok) as Hstep.
    destruct (segment_step_cases st seg Hstep) as [Hst Hcase].
    apply Forall_cons in Hall as [Hseg Hall].
    apply StronglySorted_inv in Hsort as [Hsort Hhd].
    unfold st', j. rewrite consume_segments_cons. cbn [List.filter].
    destruct (has_text seg) eqn:Htext.
    + destruct (segment_body_inv st _ seg Hinv Hcase) as (Hinv1 & Hend1 & _).
      destruct (segment_body_drift st _ seg J Hinv Hcase Hlast Hseg Hdrift)
        as [Hlast1 Hdrift1].
      assert (Hall1 : Forall (fun s => (float_value (last_end (segment_step st seg))
                                        <= float_value (seg_end s))%Q) segments)
        by (by rewrite Hend1).
      destruct (IH (segment_step st seg) (J + 1)%Q Hok Hinv1 Hlast1 Hall1 Hsort Hdrift1)
        as [Hfin Hbound].
      split.
      * rewrite Hfin, Hend1, fmap_cons. by rewrite last_cons_default.
      * cbn [length]. rewrite Nat2Z.inj_succ, <- Z.add_1_r, inject_Z_plus.
        change (inject_Z 1) with 1%Q.
        set (q := inject_Z (Z.of_nat (length (List.filter has_text segments)))) in *.
        unfold bound in *.
        assert (Hq : (J + (q + 1) == J + 1 + q)%Q) by ring.
        rewrite Hq. exact Hbound.
    + unfold st' in Hok. rewrite consume_segments_cons in Hok.
      rewrite Hcase in Hok |- *.
      exact (IH st J Hok Hinv Hlast Hall Hsort Hdrift).
Qed.

Lemma ends_strongly_sorted (segments : list Segment) :
  Sorted Qle (float_value ∘ seg_end <$> segments) ->
  StronglySorted (fun a b => (float_value (seg_end a) <= float_value (seg_end b))%Q)
    segments.
Proof.
  intros Hs.
  assert (Htrans : Transitive Qle) by (intros x y z; apply Qle_trans).
  apply Sorted_StronglySorted in Hs; [|exact Htrans].
  induction segments as [|seg segments IH]; [constructor|].
  rewrite fmap_cons in Hs. apply StronglySorted_inv in Hs as [Hs Hhd].
  constructor; [by apply IH|].
  rewrite Forall_fmap in Hhd. exact Hhd.
Qed.

(** C8.  For every prefix of a segment sequence whose end times are
    non-decreasing and not negative, when the loop has run over the prefix
    without raising, the whole-second updates issued and the remainder
    kept add up to the end time of the last segment seen except for the
    rounding of the binary64 subtraction and addition of each iteration:
    with [j] segments with text in the prefix and last end time [e], the
    difference is at most [(j + 3 * e) * 2^-53] in either direction.  The
    remainder is a float in [0, 1), the bar position is the sum of the
    updates and every update is positive.  The loop skips segments without
    text before the update, so the last segment seen is the last one with
    text; when every segment has text it is the last segment of the
    prefix. *)
Theorem carry_remainder_invariant (segments : list Segment) (k : nat) :
  let st := consume_segments loop_init (take k segments) in
  let total :=
    (inject_Z (sum_updates (pbar_updates st))
     + float_value (progress_accumulation st))%Q in
  let seen := last_seen_end (take k segments) in
  let slack :=
    ((inject_Z (Z.of_nat (length (List.filter has_text (take k segments))))
      + 3 * seen) * pow2 (-53))%Q in
  raised st = None ->
  Sorted Qle (float_value ∘ seg_end <$> segments) ->
  Forall (fun seg => (0 <= float_value (seg_end seg))%Q) segments ->
  (seen - slack <= total <= seen + slack)%Q
  /\ float_nonneg (progress_accumulation st) = true
  /\ (0 <= float_value (progress_accumulation st) < 1)%Q
  /\ pbar_n st = sum_updates (pbar_updates st)
  /\ Forall (fun u => 0 < u) (pbar_updates st)
  /\ (forallb has_text segments = true ->
      seen = List.last (float_value ∘ seg_end <$> take k segments) 0%Q).
Proof.
  intros st total seen slack Hok Hsorted Hnonneg.
  assert (Hs : StronglySorted
                 (fun a b => (float_value (seg_end a) <= float_value (seg_end b))%Q)
                 (take k segments)).
  { apply ends_strongly_sorted in Hsorted.
    rewrite <- (take_drop k segments) in Hsorted.
    by apply StronglySorted_app_1_l in Hsorted. }
  assert (Hn : Forall (fun seg => (float_value (last_end loop_init)
                                   <= float_value (seg_end seg))%Q)
                 (take k segments)) by by apply Forall_take.
  assert (Hd0 : (- ((0 + 3 * float_value (last_end loop_init)) * pow2 (-53))
                 <= drift loop_init
                 <= (0 + 3 * float_value (last_end loop_init)) * pow2 (-53))%Q).
  { vm_compute. split; discriminate. }
  destruct (consume_segments_drift (take k segments) loop_init 0%Q Hok
              progress_inv_init eq_refl Hn Hs Hd0) as [Hlast Hdrift].
  destruct (consume_segments_inv (take k segments) loop_init progress_inv_init)
    as (Hpn & Hpos & Hrem & Hlt).
  fold st in Hlast, Hdrift, Hpn, Hpos, Hrem, Hlt.
  assert (Hseen : float_value (last_end st) = seen) by exact Hlast.
  unfold drift in Hdrift. rewrite Hseen, Hpn in Hdrift. fold total in Hdrift.
  split; [|split; [done|split; [|split; [done|split; [done|]]]]].
  - unfold slack.
    set (q := inject_Z (Z.of_nat (length (List.filter has_text (take k segments))))) in *.
    destruct pow2_53_bounds. split; nra.
  - split; [by apply float_nonneg_value|done].
  - intros Hall. unfold seen, last_seen_end. rewrite filter_all_text; [done|].
    rewrite <- (take_drop k segments), forallb_app in Hall.
    by apply andb_prop in Hall as [? _].
Qed.

End Progress.

(** ** Ordering of paths *)

Section PathOrder.

Lemma string_compare_refl (s : string) : String.compare s s = Eq.
Proof.
  induction s as [|c s IH]; [done|]. simpl.
  unfold Ascii.compare. by rewrite N.compare_refl.
Qed.

Lemma string_compare_lt_trans (x y z : string) :
  String.compare x y = Lt -> String.compare y z = Lt -> String.compare x z = Lt.
Proof.
  intros Hxy Hyz.
  assert (Hle : String.le x z).
  { transitivity y; unfold String.le, String.leb.
    - by rewrite Hxy.
    - by rewrite Hyz. }
  unfold String.le, String.leb in Hle.
  destruct (String.compare x z) eqn:Hxz; [|done|done].
  apply String.compare_eq_iff in Hxz as ->.
  rewrite String.compare_antisym, Hxy in Hyz. done.
Qed.

Lemma compare_parts_refl (a : list string) : PathLib.compare_parts a a = Eq.
Proof.
  induction a as [|x a IH]; [done|]. simpl. by rewrite string_compare_refl.
Qed.

Lemma compare_parts_antisym (a b : list string) :
  PathLib.compare_parts a b = CompOpp (PathLib.compare_parts b a).
Proof.
  revert b. induction a as [|x a IH]; intros [|y b]; simpl; try done.
  rewrite (String.compare_antisym y x).
  destruct (String.compare x y); simpl; auto.
Qed.

Lemma compare_parts_eq (a b : list string) :
  PathLib.compare_parts a b = Eq -> a = b.
Proof.
  revert b. induction a as [|x a IH]; intros [|y b]; simpl; try done.
  destruct (String.compare x y) eqn:Hxy; try done.
  apply String.compare_eq_iff in Hxy as ->. intros H. f_equal. by apply IH.
Qed.

Lemma compare_parts_lt_trans (a b c : list string) :
  PathLib.compare_parts a b = Lt -> PathLib.compare_parts b c = Lt ->
  PathLib.compare_parts a c = Lt.
Proof.
  revert b c. induction a as [|x a IH]; intros [|y b] [|z c]; simpl; try done.
  destruct (String.compare x y) eqn:Hxy; try done.
  - apply String.compare_eq_iff in Hxy as ->.
    destruct (String.compare y z); try done. apply IH.
  - destruct (String.compare y z) eqn:Hyz; try done.
    + apply String.compare_eq_iff in Hyz as ->. by rewrite Hxy.
    + by rewrite (string_compare_lt_trans x y z).
Qed.

Global Instance path_le_total : Total PathLib.le.
Proof.
  intros [a] [b]. unfold PathLib.le, PathLib.compare. simpl.
  rewrite (compare_parts_antisym b a).
  destruct (PathLib.compare_parts a b); simpl; auto.
Qed.

Global Instance path_le_antisym : AntiSymm (=) PathLib.le.
Proof.
  intros [a] [b]. unfold PathLib.le, PathLib.compare. simpl.
  rewrite (compare_parts_antisym b a).
  destruct (PathLib.compare_parts a b) eqn:Hab; simpl; try done.
  intros _ _. f_equal. by apply compare_parts_eq.
Qed.

Global Instance path_le_trans : Transitive PathLib.le.
Proof.
  intros [a] [b] [c]. unfold PathLib.le, PathLib.compare. simpl.
  destruct (PathLib.compare_parts a b) eqn:Hab; [| |done].
  - by apply compare_parts_eq in Hab as ->.
  - destruct (PathLib.compare_parts b c) eqn:Hbc; [| |done].
    + apply compare_parts_eq in Hbc as <-. by rewrite Hab.
    + by rewrite (compare_parts_lt_trans a b c).
Qed.

Lemma compare_parts_siblings (dir : list string) (x y : string) :
  PathLib.compare_parts (dir ++ [x]) (dir ++ [y]) = String.compare x y.
Proof.
  induction dir as [|d dir IH]; simpl.
  - by destruct (String.compare x y).
  - by rewrite string_compare_refl.
Qed.

Lemma path_le_siblings (dir : Path) (x y : string) :
  PathLib.le (PathLib.child dir x) (PathLib.child dir y) <-> String.le x y.
Proof.
  unfold PathLib.le, PathLib.compare, PathLib.child, String.le, String.leb.
  simpl. rewrite compare_parts_siblings.
  destruct (String.compare x y); simpl; split; done.
Qed.

End PathOrder.

(** ** File discovery *)

Section Discovery.

Variable world : World.
Variable args : Args.

Lemma audio_exts_recognized (ext : string) :
  ext ∈ AUDIO_EXTS <-> ext ∈ recognized_extensions.
Proof.
  unfold AUDIO_EXTS, recognized_extensions.
  rewrite !elem_of_union, !elem_of_singleton, !elem_of_cons, elem_of_nil.
  tauto.
Qed.

Lemma is_audio_spec (p : Path) :
  is_audio world p = true
  <-> is_file world p = true
      /\ Py.lower (PathLib.suffix p) ∈ recognized_extensions.
Proof.
  unfold is_audio. rewrite andb_true_iff, bool_decide_eq_true.
  by rewrite audio_exts_recognized.
Qed.

Lemma bool_filter_Permutation {A} (f : A -> bool) (l1 l2 : list A) :
  l1 ≡ₚ l2 -> List.filter f l1 ≡ₚ List.filter f l2.
Proof.
  induction 1 as [|x l1 l2 _ IH|x y l|l1 l2 l3 _ IH1 _ IH2]; simpl.
  - done.
  - destruct (f x); [by constructor|done].
  - destruct (f x), (f y); try done. constructor.
  - by etransitivity.
Qed.

Lemma bool_filter_ext {A} (f g : A -> bool) (l : list A) :
  (forall x, f x = g x) -> List.filter f l = List.filter g l.
Proof.
  intros H. induction l as [|x l IH]; [done|]. simpl. by rewrite H, IH.
Qed.

Lemma siblings_of_entries (dir : Path) (names : list string) (l : list Path) :
  l ⊆ PathLib.child dir <$> names ->
  exists ns, l = PathLib.child dir <$> ns.
Proof.
  induction l as [|p l IH]; intros Hsub.
  - by exists [].
  - destruct IH as [ns ->]; [set_solver|].
    assert (Hp : p ∈ PathLib.child dir <$> names) by set_solver.
    apply list_elem_of_fmap in Hp as (n & -> & _).
    by exists (n :: ns).
Qed.

Lemma sorted_siblings (dir : Path) (ns : list string) :
  StronglySorted PathLib.le (PathLib.child dir <$> ns) ->
  StronglySorted String.le ns.
Proof.
  induction ns as [|n ns IH]; [constructor|].
  rewrite fmap_cons. intros [Hs Hhd]%StronglySorted_inv.
  constructor; [by apply IH|].
  rewrite Forall_fmap in Hhd. eapply Forall_impl; [exact Hhd|].
  intros m Hm. by apply (path_le_siblings dir).
Qed.

(** C6.  Without a single-file override the queue consists of exactly
    the directory entries that are regular files and whose extension,
    lower-cased, is one of mp3, wav, m4a, flac, avi, mp4, ts: each such
    entry once, nothing else.  The queue is sorted ascending by path,
    which for the entries of one directory is the order of their names,
    and it does not depend on the order in which the directory yields
    its entries. *)
Theorem discovered_queue :
  single_file_given args = false ->
  let dir := AUDIO_DIR args in
  let entries := PathLib.child dir <$> listdir world dir in
  let queue := discover world args in
  queue ≡ₚ List.filter
             (fun p => is_file world p
                       && bool_decide (Py.lower (PathLib.suffix p)
                                         ∈ recognized_extensions))
             entries
  /\ (forall p, p ∈ queue <->
                p ∈ entries /\ is_file world p = true
                /\ Py.lower (PathLib.suffix p) ∈ recognized_extensions)
  /\ StronglySorted PathLib.le queue
  /\ (exists names, queue = PathLib.child dir <$> names
                    /\ StronglySorted String.le names)
  /\ (forall world',
        listdir world' dir ≡ₚ listdir world dir ->
        (forall p, is_file world' p = is_file world p) ->
        discover world' args = queue).
Proof.
  intros Hsingle dir entries queue.
  assert (Hscan : forall w, discover w args = scan_directory w args).
  { intros w. unfold discover, single_file_given in *.
    destruct (single_file args) as [sf|]; [|done]. by rewrite Hsingle. }
  assert (Hperm : queue ≡ₚ List.filter (is_audio world) entries).
  { unfold queue. rewrite Hscan. apply merge_sort_Permutation. }
  assert (Hsorted : StronglySorted PathLib.le queue).
  { unfold queue. rewrite Hscan. apply StronglySorted_merge_sort; apply _. }
  assert (Hmem : forall p, p ∈ queue <->
                p ∈ entries /\ is_file world p = true
                /\ Py.lower (PathLib.suffix p) ∈ recognized_extensions).
  { intros p. rewrite Hperm, (list_elem_of_In _ p), (list_elem_of_In entries p).
    rewrite filter_In, is_audio_spec. tauto. }
  split; [|split; [exact Hmem|split; [exact Hsorted|split]]].
  - rewrite Hperm. erewrite bool_filter_ext; [done|].
    intros p. unfold is_audio. f_equal.
    apply bool_decide_ext, audio_exts_recognized.
  - destruct (siblings_of_entries dir (listdir world dir) queue) as [ns Hns].
    { intros p Hp. by apply Hmem in Hp as [? _]. }
    exists ns. split; [done|]. apply (sorted_siblings dir). by rewrite <- Hns.
  - intros world' Hdir Hfile.
    apply (StronglySorted_unique PathLib.le); [..|exact Hsorted|].
    + rewrite Hscan. apply StronglySorted_merge_sort; apply _.
    + rewrite Hperm, Hscan. unfold scan_directory.
      rewrite merge_sort_Permutation. fold dir.
      rewrite (bool_filter_ext (is_audio world') (is_audio world)).
      * apply bool_filter_Permutation. by rewrite Hdir.
      * intros p. unfold is_audio. by rewrite Hfile.
Qed.

End Discovery.

(** ** Reasoning about computations *)

Section Rules.

Context {A B : Type}.
Implicit Types (Q : Event -> Prop).

Lemma bind_unfold (m : M A) (k : A -> M B) (c : Z) :
  bind m k c
  = match outcome_of m c with
    | Normal a =>
        (outcome_of (k a) (count_of m c), count_of (k a) (count_of m c),
         trace_of m c ++ trace_of (k a) (count_of m c))
    | Continue => (Continue, count_of m c, trace_of m c)
    | Raise e => (Raise e, count_of m c, trace_of m c)
    end.
Proof.
  unfold bind, outcome_of, count_of, trace_of.
  destruct (m c) as [[[a| |e] c1] l1]; simpl; try done.
  by destruct (k a c1) as [[r2 c2] l2].
Qed.

Lemma trace_of_bind (m : M A) (k : A -> M B) (c : Z) :
  trace_of (bind m k) c
  = trace_of m c
      ++ match outcome_of m c with
         | Normal a => trace_of (k a) (count_of m c)
         | _ => []
         end.
Proof.
  unfold trace_of at 1. rewrite bind_unfold.
  destruct (outcome_of m c); simpl; by rewrite ?app_nil_r.
Qed.

Lemma outcome_of_bind (m : M A) (k : A -> M B) (c : Z) :
  outcome_of (bind m k) c
  = match outcome_of m c with
    | Normal a => outcome_of (k a) (count_of m c)
    | Continue => Continue
    | Raise e => Raise e
    end.
Proof.
  unfold outcome_of at 1. rewrite bind_unfold. by destruct (outcome_of m c).
Qed.

Lemma post_bind (m : M A) (k : A -> M B) Q (R1 : A -> Prop) (R2 : B -> Prop) :
  post m Q R1 -> (forall a, R1 a -> post (k a) Q R2) -> post (bind m k) Q R2.
Proof.
  intros Hm Hk c. destruct (Hm c) as [Hq Hr].
  rewrite trace_of_bind, outcome_of_bind.
  destruct (outcome_of m c) as [a| |e]; try (rewrite app_nil_r; split; [done|done]).
  destruct (Hk a (Hr a eq_refl) (count_of m c)) as [Hq2 Hr2].
  split; [by apply Forall_app|done].
Qed.

Lemma post_weaken (m : M A) Q (R R' : A -> Prop) :
  post m Q R -> (forall a, R a -> R' a) -> post m Q R'.
Proof. intros Hm HR c. destruct (Hm c). split; auto. Qed.

Lemma post_ret (a : A) Q (R : A -> Prop) : R a -> post (ret a) Q R.
Proof. intros Ha c. split; [constructor|]. intros a' [= <-]. done. Qed.

Lemma post_continue Q (R : A -> Prop) : post continue_ Q R.
Proof. intros c. split; [constructor|done]. Qed.

Lemma post_raise (e : Exn) Q (R : A -> Prop) : post (raise e) Q R.
Proof. intros c. split; [constructor|done]. Qed.

Lemma post_try (t : Try A) Q (R : A -> Prop) :
  (forall a, t = Ok a -> R a) -> post (try_ t) Q R.
Proof.
  intros Ht. destruct t as [a|e]; [apply post_ret; by apply Ht|apply post_raise].
Qed.

End Rules.

Section UnitRules.

Implicit Types (Q : Event -> Prop) (R : unit -> Prop).

Lemma post_emit (e : Event) Q R : Q e -> R tt -> post (emit e) Q R.
Proof.
  intros He Ht c. split; [by repeat constructor|]. by intros [] _.
Qed.

Lemma post_emit_all (es : list Event) Q R :
  Forall Q es -> R tt -> post (emit_all es) Q R.
Proof. intros He Ht c. split; [done|]. by intros [] _. Qed.

Lemma post_print (m : Message) Q R : Q (Print m) -> R tt -> post (print m) Q R.
Proof. apply post_emit. Qed.

Lemma post_incr_count Q R : R tt -> post incr_count Q R.
Proof. intros Ht c. split; [constructor|]. by intros [] _. Qed.

Lemma post_set_count (n : Z) Q R : R tt -> post (set_count n) Q R.
Proof. intros Ht c. split; [constructor|]. by intros [] _. Qed.

Lemma post_get_count Q (R : Z -> Prop) : (forall n, R n) -> post get_count Q R.
Proof. intros Hn c. split; [constructor|]. intros a _. apply Hn. Qed.

Lemma post_for_each {A} (body : A -> M unit) (xs : list A) Q :
  (forall x, x ∈ xs -> post (body x) Q (fun _ => True)) ->
  post (for_each body xs) Q (fun _ => True).
Proof.
  induction xs as [|x xs IH]; intros Hbody c.
  - split; [constructor|done].
  - split; [|done]. unfold trace_of. simpl.
    destruct (Hbody x ltac:(left) c) as [Hx _]. unfold trace_of in Hx.
    destruct (body x c) as [[r c1] l1]. simpl in Hx.
    destruct (IH (fun y Hy => Hbody y ltac:(by right)) c1) as [Hxs _].
    unfold trace_of in Hxs.
    destruct (for_each body xs c1) as [[r2 c2] l2]. simpl in Hxs.
    destruct r; simpl; try done; by apply Forall_app.
Qed.

End UnitRules.

Section RunRules.

Context {A B : Type}.

Lemma count_of_bind (m : M A) (k : A -> M B) (c : Z) :
  count_of (bind m k) c
  = match outcome_of m c with
    | Normal a => count_of (k a) (count_of m c)
    | _ => count_of m c
    end.
Proof.
  unfold count_of at 1. rewrite bind_unfold. by destruct (outcome_of m c).
Qed.

Lemma trace_of_ret (a : A) c : trace_of (ret a) c = [].
Proof. done. Qed.
Lemma outcome_of_ret (a : A) c : outcome_of (ret a) c = Normal a.
Proof. done. Qed.
Lemma count_of_ret (a : A) c : count_of (ret a) c = c.
Proof. done. Qed.

Lemma trace_of_continue c : trace_of (@continue_ A) c = [].
Proof. done. Qed.
Lemma outcome_of_continue c : outcome_of (@continue_ A) c = Continue.
Proof. done. Qed.
Lemma count_of_continue c : count_of (@continue_ A) c = c.
Proof. done. Qed.

Lemma trace_of_raise e c : trace_of (@raise A e) c = [].
Proof. done. Qed.
Lemma outcome_of_raise e c : outcome_of (@raise A e) c = Raise e.
Proof. done. Qed.
Lemma count_of_raise e c : count_of (@raise A e) c = c.
Proof. done. Qed.

Lemma trace_of_try (t : Try A) c : trace_of (try_ t) c = [].
Proof. by destruct t. Qed.
Lemma outcome_of_try (t : Try A) c :
  outcome_of (try_ t) c = match t with Ok a => Normal a | Fail e => Raise e end.
Proof. by destruct t. Qed.
Lemma count_of_try (t : Try A) c : count_of (try_ t) c = c.
Proof. by destruct t. Qed.

Lemma trace_of_emit e c : trace_of (emit e) c = [e].
Proof. done. Qed.
Lemma outcome_of_emit e c : outcome_of (emit e) c = Normal tt.
Proof. done. Qed.
Lemma count_of_emit e c : count_of (emit e) c = c.
Proof. done. Qed.

Lemma trace_of_emit_all es c : trace_of (emit_all es) c = es.
Proof. done. Qed.
Lemma outcome_of_emit_all es c : outcome_of (emit_all es) c = Normal tt.
Proof. done. Qed.
Lemma count_of_emit_all es c : count_of (emit_all es) c = c.
Proof. done. Qed.

Lemma trace_of_print m c : trace_of (print m) c = [Print m].
Proof. done. Qed.
Lemma outcome_of_print m c : outcome_of (print m) c = Normal tt.
Proof. done. Qed.
Lemma count_of_print m c : count_of (print m) c = c.
Proof. done. Qed.

Lemma trace_of_get_count c : trace_of get_count c = [].
Proof. done. Qed.
Lemma outcome_of_get_count c : outcome_of get_count c = Normal c.
Proof. done. Qed.
Lemma count_of_get_count c : count_of get_count c = c.
Proof. done. Qed.

Lemma trace_of_set_count n c : trace_of (set_count n) c = [].
Proof. done. Qed.
Lemma outcome_of_set_count n c : outcome_of (set_count n) c = Normal tt.
Proof. done. Qed.
Lemma count_of_set_count n c : count_of (set_count n) c = n.
Proof. done. Qed.

Lemma trace_of_incr_count c : trace_of incr_count c = [].
Proof. done. Qed.
Lemma outcome_of_incr_count c : outcome_of incr_count c = Normal tt.
Proof. done. Qed.
Lemma count_of_incr_count c : count_of incr_count c = c + 1.
Proof. done. Qed.

Lemma run_eta (m : M A) c : m c = (outcome_of m c, count_of m c, trace_of m c).
Proof. unfold outcome_of, count_of, trace_of. by destruct (m c) as [[??]?]. Qed.

End RunRules.

Create Rewrite HintDb steps.
#[export] Hint Rewrite
  @trace_of_bind @outcome_of_bind @count_of_bind
  @trace_of_ret @outcome_of_ret @count_of_ret
  @trace_of_continue @outcome_of_continue @count_of_continue
  @trace_of_raise @outcome_of_raise @count_of_raise
  @trace_of_try @outcome_of_try @count_of_try
  trace_of_emit outcome_of_emit count_of_emit
  trace_of_emit_all outcome_of_emit_all count_of_emit_all
  trace_of_print outcome_of_print count_of_print
  trace_of_get_count outcome_of_get_count count_of_get_count
  trace_of_set_count outcome_of_set_count count_of_set_count
  trace_of_incr_count outcome_of_incr_count count_of_incr_count
  : steps.

(** Evaluate the primitive steps of a computation. *)
Ltac eval_steps := autorewrite with steps; cbn [app].

(** Decompose a computation along its binds, leaving the conditions on the
    events it emits. *)
Ltac post_step :=
  lazymatch goal with
  | |- post (bind _ _) _ _ => eapply post_bind with (R1 := fun _ => True); [|intros ? _]
  | |- post (ret _) _ _ => apply post_ret
  | |- post continue_ _ _ => apply post_continue
  | |- post (raise _) _ _ => apply post_raise
  | |- post (try_ _) _ _ => apply post_try
  | |- post (emit _) _ _ => apply post_emit
  | |- post (emit_all _) _ _ => apply post_emit_all
  | |- post (print _) _ _ => apply post_print
  | |- post incr_count _ _ => apply post_incr_count
  | |- post (set_count _) _ _ => apply post_set_count
  | |- post get_count _ _ => apply post_get_count
  | |- post (if ?b then _ else _) _ _ => destruct b
  | |- post (match ?o with Some _ => _ | None => _ end) _ _ => destruct o
  | |- post (match ?l with [] => _ | _ :: _ => _ end) _ _ => destruct l
  | |- post (let '(_, _) := ?p in _) _ _ => destruct p
  end.

Ltac post_auto := repeat (post_step; try done).

(** Discharge the first computation of a sequence, keep the rest. *)
Ltac post_head :=
  eapply post_bind with (R1 := fun _ => True); [by post_auto | intros ? _].


(** ** The loop over the files *)

Section FileLoop.

Variable world : World.
Variable args : Args.

(** The transcription stage returns the whole seconds of the duration and
    the state of a segment loop that no exception has ended. *)
Lemma post_transcribe_stage total out_wav (Q : Event -> Prop) :
  (forall m, Q (Print m)) ->
  Q (Transcribe out_wav (transcribe_options args)) ->
  (forall n, Q (PbarAudioNew n)) -> (forall n, Q (PbarAudioUpdate n)) ->
  Q PbarAudioClose ->
  post (transcribe_stage world args total out_wav) Q
    (fun result =>
       Py.int (Py.or_zero (transcribe world out_wav (transcribe_options args)).2)
       = Ok result.1
       /\ result.2 = consume_segments loop_init
                       (transcribe world out_wav (transcribe_options args)).1
       /\ raised result.2 = None).
Proof.
  intros Hprint Htr Hnew Hupd Hclose. unfold transcribe_stage.
  destruct (transcribe world out_wav (transcribe_options args)) as [segs dur].
  cbn [fst snd]. do 4 post_head.
  eapply post_bind with (R1 := fun n => Py.int (Py.or_zero dur) = Ok n);
    [by apply post_try|intros pbar_total Htotal].
  post_head.
  eapply post_bind with (R1 := fun _ => True); [|intros _ _].
  { apply post_emit_all; [|done]. apply Forall_fmap, Forall_true. intros n. apply Hupd. }
  post_head.
  destruct (raised (consume_segments loop_init segs)) eqn:Hraised;
    [apply post_raise|by apply post_ret].
Qed.

Lemma post_convert_stage_wav total f out_wav (Q : Event -> Prop) :
  is_wav f = true ->
  post (convert_stage world args total f out_wav) Q (fun created => created = false).
Proof.
  unfold is_wav, convert_stage. intros ->. by apply post_ret.
Qed.

(** X21.  While an input whose extension is [.wav] in any case is itself
    being processed, the converter is not invoked and nothing is deleted,
    whatever the flags of the run are, the WAV-retention flag included. *)
Theorem wav_input_own_iteration (total : Z) (f : Path) (c : Z) :
  is_wav f = true ->
  Forall (fun e => is_ffmpeg e = false /\ is_unlink e = false)
    (trace_of (process_file world args total f) c).
Proof.
  intros Hwav.
  cut (post (process_file world args total f)
         (fun e => is_ffmpeg e = false /\ is_unlink e = false) (fun _ => True)).
  { intros H. apply H. }
  unfold process_file.
  destruct (bool_decide _); [post_auto|].
  destruct (negb _); [post_auto|].
  do 4 post_head.
  eapply post_bind with (R1 := fun created => created = false);
    [by apply post_convert_stage_wav|].
  intros created ->.
  eapply post_bind; [by apply post_transcribe_stage|].
  intros [pbar_total st] _.
  unfold finish_stage. cbn [andb].
  post_auto.
Qed.

(** What the transcription stage does, in full. *)
Lemma transcribe_stage_run total out_wav c :
  let opts := transcribe_options args in
  let result := transcribe world out_wav opts in
  let st := consume_segments loop_init result.1 in
  transcribe_stage world args total out_wav c
  = match Py.int (Py.or_zero result.2) with
    | Fail e =>
        (Raise e, c,
         [Print (MsgStartingWhisper c total); Print (MsgTranscribing out_wav);
          Transcribe out_wav opts])
    | Ok pbar_total =>
        (match raised st with
         | Some e => Raise e
         | None => Normal (pbar_total, st)
         end, c,
         [Print (MsgStartingWhisper c total); Print (MsgTranscribing out_wav);
          Transcribe out_wav opts; PbarAudioNew pbar_total]
         ++ (PbarAudioUpdate <$> pbar_updates st) ++ [PbarAudioClose])
    end.
Proof.
  intros opts result st. unfold transcribe_stage.
  subst opts result st.
  destruct (transcribe world out_wav (transcribe_options args)) as [segs dur].
  cbn [fst snd].
  destruct (Py.int (Py.or_zero dur)) as [pbar_total|e]; [|done].
  unfold bind, get_count, print, emit, emit_all, try_, ret.
  destruct (raised (consume_segments loop_init segs));
    unfold raise, ret; cbn [fst snd]; by rewrite ?app_nil_r.
Qed.

Lemma outcome_of_transcribe_stage total out_wav c pbar_total :
  let result := transcribe world out_wav (transcribe_options args) in
  Py.int (Py.or_zero result.2) = Ok pbar_total ->
  raised (consume_segments loop_init result.1) = None ->
  outcome_of (transcribe_stage world args total out_wav) c
  = Normal (pbar_total, consume_segments loop_init result.1).
Proof.
  intros result Htotal Hraised. unfold outcome_of.
  rewrite transcribe_stage_run. fold result. by rewrite Htotal, Hraised.
Qed.

Lemma count_of_transcribe_stage total out_wav c :
  count_of (transcribe_stage world args total out_wav) c = c.
Proof.
  unfold count_of. rewrite transcribe_stage_run. by destruct (Py.int _).
Qed.

Lemma trace_of_transcribe_stage total out_wav c pbar_total :
  let result := transcribe world out_wav (transcribe_options args) in
  Py.int (Py.or_zero result.2) = Ok pbar_total ->
  trace_of (transcribe_stage world args total out_wav) c
  = [Print (MsgStartingWhisper c total); Print (MsgTranscribing out_wav);
     Transcribe out_wav (transcribe_options args); PbarAudioNew pbar_total]
    ++ (PbarAudioUpdate <$> pbar_updates (consume_segments loop_init result.1))
    ++ [PbarAudioClose].
Proof.
  intros result Htotal. unfold trace_of.
  rewrite transcribe_stage_run. fold result. by rewrite Htotal.
Qed.

(** The transcription stage calls the engine, whatever happens next. *)
Lemma transcribe_stage_transcribes total out_wav c :
  Transcribe out_wav (transcribe_options args)
  ∈ trace_of (transcribe_stage world args total out_wav) c.
Proof.
  unfold trace_of. rewrite transcribe_stage_run.
  destruct (Py.int _); cbn [snd]; set_solver.
Qed.

(** What follows the loop when no subtitle line was collected. *)
Lemma finish_stage_empty total out_wav created pbar_total st c :
  srt_lines st = [] ->
  finish_stage world args total out_wav created pbar_total st c
  = if 0 <? pbar_total - pbar_n st
    then (Continue, c + 1,
          [PbarAudioUpdate (pbar_total - pbar_n st); Print MsgEmptyTranscript])
    else (Normal tt, c, []).
Proof.
  intros Hsrt. unfold finish_stage. rewrite Hsrt.
  by destruct (0 <? pbar_total - pbar_n st).
Qed.

(** What follows the loop when the bar is already full. *)
Lemma finish_stage_full total out_wav created pbar_total st c :
  pbar_total - pbar_n st <= 0 ->
  finish_stage world args total out_wav created pbar_total st c
  = (Normal tt, c, []).
Proof.
  intros Hrem. unfold finish_stage.
  destruct (Z.ltb_spec 0 (pbar_total - pbar_n st)); [lia|done].
Qed.

(** Segments without text leave the loop where it started. *)
Lemma consume_segments_no_text (segments : list Segment) (st : LoopState) :
  List.filter has_text segments = [] ->
  consume_segments st segments = st.
Proof.
  induction segments as [|seg segments IH]; [done|]. cbn [List.filter].
  destruct (has_text seg) eqn:Htext; [done|]. intros Hnone.
  by rewrite consume_segments_cons, (segment_step_no_text st seg Htext), IH.
Qed.

Lemma post_convert_stage total f out_wav (Q : Event -> Prop) :
  (forall m, Q (Print m)) -> Q (Ffmpeg f out_wav) ->
  post (convert_stage world args total f out_wav) Q (fun _ => True).
Proof. intros Hp Hf. unfold convert_stage. post_auto. Qed.

Lemma not_in_trace (e : Event) (P : Event -> bool) (l : list Event) :
  Forall (fun e' => P e' = false) l -> P e = true -> e ∉ l.
Proof.
  intros Hall He Hin. rewrite Forall_forall in Hall.
  specialize (Hall e Hin). congruence.
Qed.

(** C3.  When the transcription of a file yields no segment with text,
    processing the file writes no output file.  The condition is not
    fatal: once the file has been transcribed, with a duration that is a
    finite number, its processing ends without an exception and the loop
    goes on with the next file of the queue. *)
Theorem empty_transcript_skipped (total : Z) (f out_wav : Path) (c : Z)
    (rest : list Path) :
  PathLib.with_suffix f ".wav" = Some out_wav ->
  List.filter has_text (transcribe world out_wav (transcribe_options args)).1 = [] ->
  float_finite (Py.or_zero (transcribe world out_wav (transcribe_options args)).2)
  = true ->
  let m := process_file world args total f in
  Forall (fun e => is_write e = false) (trace_of m c)
  /\ (Transcribe out_wav (transcribe_options args) ∈ trace_of m c ->
      (outcome_of m c = Normal tt \/ outcome_of m c = Continue)
      /\ for_each (process_file world args total) (f :: rest) c
         = let '(r, c', l) :=
             for_each (process_file world args total) rest (count_of m c) in
           (r, c', trace_of m c ++ l)).
Proof.
  intros Hwav Hnone Hfinite m.
  pose proof (consume_segments_no_text _ loop_init Hnone) as Hloop.
  apply int_finite in Hfinite as [pbar_total Htotal].
  assert (Hout : Transcribe out_wav (transcribe_options args) ∈ trace_of m c ->
                 outcome_of m c = Normal tt \/ outcome_of m c = Continue).
  { unfold m, process_file.
    destruct (bool_decide _).
    { eval_steps. intros H. by apply list_elem_of_singleton in H. }
    destruct (negb _).
    { eval_steps. intros H. by apply list_elem_of_singleton in H. }
    rewrite Hwav. eval_steps.
    pose proof (post_convert_stage total f out_wav
                  (fun e => is_transcribe e = false)
                  ltac:(done) ltac:(done) c) as [Hconv _].
    assert (Hno : Transcribe out_wav (transcribe_options args)
                  ∉ Print (MsgProcessing c total f)
                     :: Print (MsgConverting c total)
                     :: trace_of (convert_stage world args total f out_wav) c ++ []).
    { rewrite app_nil_r. apply (not_in_trace _ is_transcribe); [|done].
      by repeat constructor. }
    destruct (outcome_of (convert_stage world args total f out_wav) c)
      as [created| |e]; [|done|done].
    intros _. eval_steps.
    rewrite (outcome_of_transcribe_stage _ _ _ pbar_total Htotal)
      by (by rewrite Hloop).
    rewrite count_of_transcribe_stage. eval_steps.
    unfold outcome_of. rewrite Hloop, finish_stage_empty by done.
    destruct (0 <? _); cbn [fst snd]; auto. }
  split.
  - cut (post m (fun e => is_write e = false) (fun _ => True)).
    { intros H. apply H. }
    unfold m, process_file.
    destruct (bool_decide _); [post_auto|].
    destruct (negb _); [post_auto|].
    do 3 post_head. rewrite Hwav.
    eapply post_bind with (R1 := fun p => p = out_wav);
      [by apply post_ret|intros ? ->].
    eapply post_bind; [by apply post_convert_stage|intros created _].
    eapply post_bind; [by apply post_transcribe_stage|].
    intros [pbar_total' st] (_ & Hst & _). cbn [fst snd] in Hst. subst st.
    rewrite Hloop. unfold finish_stage. cbn [srt_lines loop_init].
    destruct (0 <? _); [|post_auto].
    eapply post_bind with (R1 := fun _ => True); [|intros ? _].
    { post_head. eapply post_bind with (R1 := fun _ => False);
        [by post_auto|by intros ? []]. }
    post_auto.
  - intros Hin. split; [by apply Hout|].
    apply Hout in Hin. fold m.
    change (for_each (process_file world args total) (f :: rest) c)
      with (let '(r, c1, l1) := m c in
            match r with
            | Raise e => (Raise e, c1, l1)
            | _ => let '(r2, c2, l2) :=
                     for_each (process_file world args total) rest c1 in
                   (r2, c2, l1 ++ l2)
            end).
    rewrite (run_eta m c).
    by destruct Hin as [-> | ->].
Qed.

Lemma wav_has_name (f : Path) :
  is_wav f = true -> exists out_wav, PathLib.with_suffix f ".wav" = Some out_wav.
Proof.
  unfold is_wav, PathLib.with_suffix. intros Hwav.
  destruct (String.eqb (PathLib.name f) "") eqn:Hname; [|by eexists].
  apply String.eqb_eq in Hname.
  unfold PathLib.suffix in Hwav. rewrite Hname in Hwav. done.
Qed.

End FileLoop.

(** ** Conversion-only mode *)

Section ConvertOnly.

Variable world : World.
Variable args : Args.

(** C10.  In conversion-only mode an input whose extension is [.wav] in
    any case is processed exactly as in normal mode: the early exit of
    conversion-only mode sits in the branch for the other extensions.
    Unless such a file is on the skip list or has disappeared, it is
    transcribed. *)
Theorem wav_input_ignores_convert_only (total : Z) (f : Path) :
  is_wav f = true ->
  process_file world (with_convert_wav_only true args) total f
  = process_file world (with_convert_wav_only false args) total f
  /\ (forall c,
        bool_decide (PathLib.name f ∈ SKIP_FILES) = false ->
        exists_at_iteration world f = true ->
        exists out_wav,
          PathLib.with_suffix f ".wav" = Some out_wav
          /\ Transcribe out_wav
               (transcribe_options (with_convert_wav_only true args))
             ∈ trace_of
                 (process_file world (with_convert_wav_only true args) total f) c).
Proof.
  intros Hwav. split.
  - unfold process_file, convert_stage. unfold is_wav in Hwav. rewrite Hwav.
    by destruct args.
  - intros c Hskip Hex.
    destruct (wav_has_name f Hwav) as [out_wav Hout].
    exists out_wav. split; [done|].
    unfold process_file. rewrite Hskip, Hex, Hout. cbn [negb].
    unfold convert_stage. unfold is_wav in Hwav. rewrite Hwav. cbn [negb].
    eval_steps.
    pose proof (transcribe_stage_transcribes world (with_convert_wav_only true args)
                  total out_wav c) as Hin.
    set_solver.
Qed.

End ConvertOnly.

(** ** Writing the outputs *)

Section Writing.

Variable world : World.
Variable args : Args.

Lemma string_app_nonempty (a b : string) : b <> "" -> a +:+ b <> "".
Proof. destruct a; [done|]. by intros _. Qed.

Lemma string_app_not_root (a : string) : a +:+ ".wav" <> "/".
Proof.
  destruct a as [|c a]; [done|]. simpl. intros [= _ H].
  by destruct a.
Qed.

(** The path [with_suffix] builds has a name, so it takes a further
    suffix: the [ValueError] branches behind the first one are dead. *)
Lemma with_suffix_wav_named (f out_wav : Path) (sfx : string) :
  PathLib.with_suffix f ".wav" = Some out_wav ->
  exists p, PathLib.with_suffix out_wav sfx = Some p.
Proof.
  unfold PathLib.with_suffix at 1.
  destruct (String.eqb (PathLib.name f) ""); [done|]. intros [= <-].
  set (stem := String.substring _ _ _).
  assert (Hname : PathLib.name (mkPath (removelast (parts f) ++ [stem +:+ ".wav"]))
                  = stem +:+ ".wav").
  { unfold PathLib.name. cbn [parts]. rewrite last_last.
    destruct (removelast (parts f)) as [|x [|y l]]; simpl; [|done|done].
    destruct (String.eqb_spec (stem +:+ ".wav") "/") as [Hroot|_]; [|done].
    by apply string_app_not_root in Hroot. }
  unfold PathLib.with_suffix. rewrite Hname.
  destruct (String.eqb (stem +:+ ".wav") "") eqn:He; [|by eexists].
  apply String.eqb_eq in He. by apply string_app_nonempty in He.
Qed.

(** What follows the loop when the bar is not full and subtitle lines
    were collected: one update, both documents, the cleanup. *)
Lemma finish_stage_writes total out_wav out_txt out_srt created pbar_total st c :
  0 < pbar_total - pbar_n st ->
  srt_lines st <> [] ->
  PathLib.with_suffix out_wav ".txt" = Some out_txt ->
  PathLib.with_suffix out_wav ".srt" = Some out_srt ->
  finish_stage world args total out_wav created pbar_total st c
  = (Normal tt, c + 1,
     [PbarAudioUpdate (pbar_total - pbar_n st); Print MsgBlank;
      Print MsgStartingWriting;
      WriteText out_txt (Py.join Py.newline (txt_lines st));
      WriteText out_srt (Py.join Py.newline (srt_lines st));
      Print (MsgWrote out_txt); Print (MsgWrote out_srt);
      Print (MsgDone c total)]
     ++ (if created && negb (keep_wav_files args)
            && is_file_at_cleanup world out_wav
         then [Unlink out_wav] else [])).
Proof.
  intros Hrem Hsrt Htxt Hsrt_path. unfold finish_stage.
  destruct (Z.ltb_spec 0 (pbar_total - pbar_n st)); [|lia].
  rewrite Htxt, Hsrt_path.
  destruct (srt_lines st) as [|line lines]; [done|].
  by destruct (created && negb (keep_wav_files args)
               && is_file_at_cleanup world out_wav).
Qed.

Lemma blocks_from_nonempty (first : Z) (kept : list Segment) (blocks : list string) :
  blocks_from first kept = Ok blocks -> kept <> [] -> blocks <> [].
Proof.
  intros Hb Hkept Hnil. apply blocks_from_length in Hb. rewrite Hnil in Hb.
  destruct kept; [done|]. cbn [length] in Hb. lia.
Qed.

(** The whole trace of a file that is transcribed with text while the bar
    is not full: both documents are written once, the plain text first,
    after the last update of the segment loop and the closing of the inner
    bar, and they are the joined lines of the segments with text. *)
Lemma outputs_written_in_one_flush (total : Z) (f out_wav : Path) (c : Z)
    (created : bool) (pbar_total : Z) :
  bool_decide (PathLib.name f ∈ SKIP_FILES) = false ->
  exists_at_iteration world f = true ->
  PathLib.with_suffix f ".wav" = Some out_wav ->
  outcome_of (convert_stage world args total f out_wav) c = Normal created ->
  let conv := convert_stage world args total f out_wav in
  let result := transcribe world out_wav (transcribe_options args) in
  let kept := List.filter has_text result.1 in
  let st := consume_segments loop_init result.1 in
  let remaining := pbar_total - pbar_n st in
  Py.int (Py.or_zero result.2) = Ok pbar_total ->
  raised st = None ->
  0 < remaining ->
  kept <> [] ->
  exists out_txt out_srt blocks,
    PathLib.with_suffix out_wav ".txt" = Some out_txt
    /\ PathLib.with_suffix out_wav ".srt" = Some out_srt
    /\ blocks_from 1 kept = Ok blocks
    /\ outcome_of (process_file world args total f) c = Normal tt
    /\ trace_of (process_file world args total f) c
       = [Print (MsgProcessing c total f); Print (MsgConverting c total)]
         ++ trace_of conv c
         ++ trace_of (transcribe_stage world args total out_wav) (count_of conv c)
         ++ [PbarAudioUpdate remaining; Print MsgBlank; Print MsgStartingWriting;
             WriteText out_txt (Py.join Py.newline (seg_text <$> kept));
             WriteText out_srt (Py.join Py.newline blocks);
             Print (MsgWrote out_txt); Print (MsgWrote out_srt);
             Print (MsgDone (count_of conv c) total)]
         ++ (if created && negb (keep_wav_files args)
                && is_file_at_cleanup world out_wav
             then [Unlink out_wav] else [])
         ++ [PbarFilesUpdate 1].
Proof.
  intros Hskip Hex Hwav Hconv conv result kept st remaining Htotal Hraised Hrem Hkept.
  destruct (with_suffix_wav_named f out_wav ".txt" Hwav) as [out_txt Htxt].
  destruct (with_suffix_wav_named f out_wav ".srt" Hwav) as [out_srt Hsrt].
  destruct (consume_segments_lines result.1 loop_init Hraised)
    as (blocks & Hblocks & Hlines & Htexts & _).
  fold st kept in Hlines, Htexts, Hblocks. cbn in Hlines, Htexts, Hblocks.
  exists out_txt, out_srt, blocks.
  split; [done|]. split; [done|]. split; [done|].
  assert (Hne : srt_lines st <> []).
  { rewrite Hlines. by apply (blocks_from_nonempty 1 kept). }
  pose proof (fun c' => finish_stage_writes total out_wav out_txt out_srt created
                pbar_total st c' Hrem Hne Htxt Hsrt) as Hfin.
  unfold process_file. rewrite Hskip, Hex, Hwav. cbn [negb].
  subst conv.
  split.
  - eval_steps. rewrite Hconv. eval_steps.
    rewrite (outcome_of_transcribe_stage _ _ _ _ _ pbar_total Htotal Hraised),
      count_of_transcribe_stage.
    eval_steps. fold result st. unfold outcome_of at 1. by rewrite Hfin.
  - eval_steps. rewrite Hconv. eval_steps.
    rewrite (outcome_of_transcribe_stage _ _ _ _ _ pbar_total Htotal Hraised),
      count_of_transcribe_stage.
    eval_steps. fold result st. unfold trace_of at 3, outcome_of at 1. rewrite Hfin.
    cbn [fst snd]. eval_steps. by rewrite Hlines, Htexts.
Qed.

End Writing.

(** ** The converter over a whole run *)

Section Converter.

Variable world : World.
Variable args : Args.

Lemma post_process_file_converter (total : Z) (f : Path) :
  post (process_file world args total f) converts_other_extensions (fun _ => True).
Proof.
  unfold process_file.
  destruct (bool_decide _); [post_auto|].
  destruct (negb _); [post_auto|].
  do 4 post_head.
  eapply post_bind with (R1 := fun _ => True).
  - unfold convert_stage.
    destruct (negb (String.eqb (Py.lower (PathLib.suffix f)) ".wav")) eqn:Hext;
      [|by apply post_ret].
    apply negb_true_iff in Hext. post_auto.
  - intros created _.
    eapply post_bind; [by apply post_transcribe_stage|].
    intros [pbar_total st] _. unfold finish_stage. post_auto.
Qed.

(** In a whole run no input with extension [.wav] is handed to the
    converter. *)
Lemma converter_never_given_wav :
  Forall converts_other_extensions (run world args).2.
Proof.
  cut (post (whisper_folder world args) converts_other_extensions (fun _ => True)).
  { intros H. destruct (H 0) as [Htrace _]. unfold trace_of in Htrace.
    unfold run. by destruct (whisper_folder world args 0) as [[r c] l]. }
  unfold whisper_folder. post_head.
  destruct (file_count args); [post_auto|].
  destruct (_ || _); [post_auto|].
  do 4 post_head.
  eapply post_bind with (R1 := fun _ => True); [|intros ? _; post_auto].
  apply post_for_each. intros f _. apply post_process_file_converter.
Qed.

End Converter.

(** ** Runs that show the defects *)

Section Defects.

Variable world : World.
Variable args : Args.

(** When the whole-second updates of the loop have already filled the
    bar, the block that writes the outputs is not entered. *)
Lemma full_bar_writes_nothing (total : Z) (f out_wav : Path) (c : Z) (pbar_total : Z) :
  PathLib.with_suffix f ".wav" = Some out_wav ->
  Py.int (Py.or_zero (transcribe world out_wav (transcribe_options args)).2)
  = Ok pbar_total ->
  pbar_total
    - pbar_n (consume_segments loop_init
                (transcribe world out_wav (transcribe_options args)).1) <= 0 ->
  Forall (fun e => is_write e = false)
    (trace_of (process_file world args total f) c).
Proof.
  intros Hwav Htotal Hfull.
  cut (post (process_file world args total f)
         (fun e => is_write e = false) (fun _ => True)).
  { intros H. apply H. }
  unfold process_file.
  destruct (bool_decide _); [post_auto|].
  destruct (negb _); [post_auto|].
  do 3 post_head. rewrite Hwav.
  eapply post_bind with (R1 := fun p => p = out_wav);
    [by apply post_ret|intros ? ->].
  eapply post_bind; [by apply post_convert_stage|intros created _].
  eapply post_bind; [by apply post_transcribe_stage|].
  intros [pbar_total' st] (Htotal' & Hst & _). cbn [fst snd] in Htotal', Hst.
  rewrite Htotal in Htotal'. injection Htotal' as <-. subst st.
  unfold finish_stage.
  destruct (Z.ltb_spec 0
    (pbar_total
     - pbar_n (consume_segments loop_init
                 (transcribe world out_wav (transcribe_options args)).1)));
    [lia|post_auto].
Qed.

(** A file on the skip list or missing when its turn comes leaves the
    loop body through [continue], before the outer bar is advanced. *)
Lemma skipped_file_no_tick (total : Z) (f : Path) (c : Z) :
  bool_decide (PathLib.name f ∈ SKIP_FILES) = true
  \/ exists_at_iteration world f = false ->
  outcome_of (process_file world args total f) c = Continue
  /\ Forall (fun e => is_tick e = false)
       (trace_of (process_file world args total f) c).
Proof.
  unfold process_file. intros [Hskip | Hmissing].
  - rewrite Hskip. eval_steps. by repeat constructor.
  - rewrite Hmissing. cbn [negb].
    destruct (bool_decide _); eval_steps; by repeat constructor.
Qed.

Lemma post_finish_stage_no_tick total out_wav created pbar_total st :
  post (finish_stage world args total out_wav created pbar_total st)
    (fun e => is_tick e = false) (fun _ => True).
Proof. unfold finish_stage. post_auto. Qed.

Lemma ticks_bind {A} (m : M A) (k : A -> M unit) :
  post m (fun e => is_tick e = false) (fun _ => True) ->
  (forall a c, List.filter is_tick (trace_of (k a) c)
               = ticks_expected (outcome_of (k a) c)) ->
  forall c, List.filter is_tick (trace_of (bind m k) c)
            = ticks_expected (outcome_of (bind m k) c).
Proof.
  intros Hm Hk c. destruct (Hm c) as [Hfree _].
  assert (Hnone : List.filter is_tick (trace_of m c) = []).
  { induction Hfree as [|e l He _ IH]; [done|]. simpl. by rewrite He. }
  rewrite trace_of_bind, outcome_of_bind, List.filter_app, Hnone.
  destruct (outcome_of m c); [apply Hk|done|done].
Qed.

(** The outer bar is advanced exactly when the loop body is left by
    falling through its end: a file that leaves it through [continue]
    (skip list, missing file, conversion-only mode, empty transcript) or
    through an exception gets no tick. *)
Lemma ticks_only_on_fall_through (total : Z) (f : Path) (c : Z) :
  List.filter is_tick (trace_of (process_file world args total f) c)
  = ticks_expected (outcome_of (process_file world args total f) c).
Proof.
  unfold process_file.
  destruct (bool_decide _); [by eval_steps|].
  destruct (negb _); [by eval_steps|].
  revert c. apply ticks_bind; [by post_auto|intros count].
  apply ticks_bind; [by post_auto|intros _].
  apply ticks_bind; [by post_auto|intros _].
  apply ticks_bind; [by post_auto|intros out_wav].
  apply ticks_bind; [by apply post_convert_stage|intros created].
  apply ticks_bind.
  { eapply post_weaken; [by apply post_transcribe_stage|done]. }
  intros [pbar_total st].
  apply ticks_bind; [apply post_finish_stage_no_tick|intros _].
  intros c. by eval_steps.
Qed.

End Defects.

(** C1.  A recording of exactly ten seconds whose single segment, with
    text, ends at ten seconds: the loop advances the bar by ten, nothing
    remains, and the run ends normally without writing the [.txt] or the
    [.srt] file. *)
Theorem exact_fit_writes_nothing :
  List.filter has_text
    (transcribe exact_fit_world (mkPath ["talk.wav"])
       (transcribe_options default_args)).1
  = [mkSegment 0 10 " Hello."]
  /\ discover exact_fit_world default_args = [mkPath ["talk.wav"]]
  /\ run exact_fit_world default_args
     = (Normal tt,
        [Print (MsgStartingFrom 1); PbarFilesNew 1 0;
         Print (MsgLoadingModel "medium"); LoadModel "medium" "auto";
         Print (MsgProcessing 1 1 (mkPath ["talk.wav"]));
         Print (MsgConverting 1 1); Print (MsgStartingWhisper 1 1);
         Print (MsgTranscribing (mkPath ["talk.wav"]));
         Transcribe (mkPath ["talk.wav"]) (transcribe_options default_args);
         PbarAudioNew 10; PbarAudioUpdate 10; PbarAudioClose;
         PbarFilesUpdate 1; PbarFilesClose; Print MsgGoodbye])
  /\ List.filter is_write (run exact_fit_world default_args).2 = [].
Proof. repeat split; vm_compute; reflexivity. Qed.

(** C9.  A queue whose only file is on the skip list: the outer bar is
    created with total 1 at position 0, the file is skipped, and the bar is
    closed without having been advanced. *)
Theorem skip_listed_file_gets_no_tick :
  discover skip_world default_args = [mkPath ["00. Professor.avi"]]
  /\ run skip_world default_args
     = (Normal tt,
        [Print (MsgStartingFrom 1); PbarFilesNew 1 0;
         Print (MsgLoadingModel "medium"); LoadModel "medium" "auto";
         Print (MsgSkipping "00. Professor.avi"); PbarFilesClose;
         Print MsgGoodbye])
  /\ List.filter is_tick (run skip_world default_args).2 = [].
Proof. repeat split; vm_compute; reflexivity. Qed.

(** * Further properties of the program *)

(** ** What a run can do to the outside world *)

Section Effects.

Variable world : World.
Variable args : Args.

Lemma finish_stage_effects total f out_wav created pbar_total st :
  PathLib.with_suffix f ".wav" = Some out_wav ->
  (created = true -> is_wav f = false) ->
  post (finish_stage world args total out_wav created pbar_total st)
    (file_effect world args f) (fun _ => True).
Proof.
  intros Hwav Hcreated. unfold finish_stage.
  destruct (0 <? _); [|post_auto].
  post_head.
  destruct (srt_lines st) as [|line lines].
  { eapply post_bind with (R1 := fun _ => False);
      [by post_auto|by intros ? []]. }
  do 2 post_head.
  destruct (PathLib.with_suffix out_wav ".txt") as [out_txt|] eqn:Htxt;
    [|eapply post_bind with (R1 := fun _ => False);
        [apply post_raise|by intros ? []]].
  eapply post_bind with (R1 := fun p => p = out_txt);
    [by apply post_ret|intros ? ->].
  destruct (PathLib.with_suffix out_wav ".srt") as [out_srt|] eqn:Hsrt;
    [|eapply post_bind with (R1 := fun _ => False);
        [apply post_raise|by intros ? []]].
  eapply post_bind with (R1 := fun p => p = out_srt);
    [by apply post_ret|intros ? ->].
  post_head.
  eapply post_bind with (R1 := fun _ => True);
    [apply post_emit; [simpl; eauto|done]|intros _ _].
  eapply post_bind with (R1 := fun _ => True);
    [apply post_emit; [simpl; eauto|done]|intros _ _].
  do 4 post_head.
  eapply post_bind with (R1 := fun _ => True); [|intros _ _; post_auto].
  destruct (created && negb (keep_wav_files args)
            && is_file_at_cleanup world out_wav) eqn:Hclean;
    [|by apply post_ret].
  apply andb_prop in Hclean as [[Hc Hkeep]%andb_prop Hfile].
  apply negb_true_iff in Hkeep.
  apply post_emit; [simpl; auto|done].
Qed.

(** Every event of processing a file is one of its [file_effect]s. *)
Lemma process_file_effects (total : Z) (f : Path) :
  post (process_file world args total f) (file_effect world args f)
    (fun _ => True).
Proof.
  unfold process_file.
  destruct (bool_decide _); [post_auto|].
  destruct (negb _); [post_auto|].
  do 3 post_head.
  destruct (PathLib.with_suffix f ".wav") as [out_wav|] eqn:Hwav;
    [|eapply post_bind with (R1 := fun _ => False);
        [apply post_raise|by intros ? []]].
  eapply post_bind with (R1 := fun p => p = out_wav);
    [by apply post_ret|intros ? ->].
  eapply post_bind with (R1 := fun created => created = true -> is_wav f = false).
  { unfold convert_stage.
    destruct (negb (String.eqb (Py.lower (PathLib.suffix f)) ".wav")) eqn:Hext;
      [|by apply post_ret].
    apply negb_true_iff in Hext. post_auto. }
  intros created Hcreated.
  eapply post_bind; [by apply post_transcribe_stage|].
  intros [pbar_total st] _.
  eapply post_bind with (R1 := fun _ => True);
    [by apply finish_stage_effects|intros _ _].
  by apply post_emit.
Qed.

Lemma post_events_mono {A} (m : M A) (Q Q' : Event -> Prop) (R : A -> Prop) :
  post m Q R -> (forall e, Q e -> Q' e) -> post m Q' R.
Proof.
  intros Hm HQ c. destruct (Hm c) as [Hq Hr]. split; [|done].
  eapply Forall_impl; [exact Hq|exact HQ].
Qed.

Lemma slice_from_subseteq {A} (l : list A) (i : Z) : Py.slice_from l i ⊆ l.
Proof.
  unfold Py.slice_from. destruct (i <? 0); apply sublist_subseteq, sublist_drop.
Qed.

Lemma file_effect_in_run (f : Path) (e : Event) :
  f ∈ discover world args -> file_effect world args f e -> run_effect world args e.
Proof. intros Hf. destruct e; simpl; try done; intros He; by exists f. Qed.

Lemma whole_run_effects :
  Forall (run_effect world args) (run world args).2.
Proof.
  cut (post (whisper_folder world args) (run_effect world args) (fun _ => True)).
  { intros H. destruct (H 0) as [Htrace _]. unfold trace_of in Htrace.
    unfold run. by destruct (whisper_folder world args 0) as [[r c] l]. }
  unfold whisper_folder. post_head.
  destruct (file_count args); [post_auto|].
  destruct (_ || _); [post_auto|].
  do 4 post_head.
  eapply post_bind with (R1 := fun _ => True); [|intros ? _; post_auto].
  apply post_for_each. intros f Hf%slice_from_subseteq.
  eapply post_events_mono; [apply process_file_effects|].
  intros e. by apply file_effect_in_run.
Qed.

(** X1.  All a run does is print, drive its progress bars, load the model
    and, for files of the queue only: convert a file whose extension is
    not [.wav] into the WAV beside it, transcribe that WAV, write the
    [.txt] and the [.srt] beside it, and delete a WAV that this run
    converted when WAVs are not kept. *)
Theorem run_effects_confined (e : Event) :
  e ∈ (run world args).2 ->
  match e with
  | Ffmpeg src dst =>
      src ∈ discover world args /\ is_wav src = false
      /\ PathLib.with_suffix src ".wav" = Some dst
  | Transcribe wav opts =>
      opts = transcribe_options args
      /\ exists f, f ∈ discover world args
                   /\ PathLib.with_suffix f ".wav" = Some wav
  | WriteText p _ =>
      exists f wav, f ∈ discover world args
                    /\ PathLib.with_suffix f ".wav" = Some wav
                    /\ (PathLib.with_suffix wav ".txt" = Some p
                        \/ PathLib.with_suffix wav ".srt" = Some p)
  | Unlink p =>
      keep_wav_files args = false /\ is_file_at_cleanup world p = true
      /\ exists f, f ∈ discover world args /\ is_wav f = false
                   /\ PathLib.with_suffix f ".wav" = Some p
  | PbarFilesUpdate n => n = 1
  | _ => True
  end.
Proof.
  intros He. pose proof whole_run_effects as Hall.
  rewrite Forall_forall in Hall. specialize (Hall e He).
  destruct e; simpl in Hall; try done.
  - by destruct Hall as (f & _ & ->).
  - destruct Hall as (f & Hf & -> & Hwav & Hdst). done.
  - destruct Hall as (f & Hf & Hwav & ->). eauto.
  - destruct Hall as (f & Hf & wav & Hwav & Hp). eauto.
  - destruct Hall as (f & Hf & Hwav & Hnot & Hkeep & Hfile). eauto 10.
Qed.

End Effects.

(** ** Modes of a run *)

Section Modes.

Variable world : World.
Variable args : Args.

Lemma start_message : START args + 1 = start args.
Proof. unfold START. lia. Qed.

(** X2.  With [--keep-wav-files] a run deletes nothing. *)
Theorem keep_wav_files_deletes_nothing :
  keep_wav_files args = true ->
  Forall (fun e => is_unlink e = false) (run world args).2.
Proof.
  intros Hkeep. eapply Forall_impl; [apply whole_run_effects|].
  intros [] He; try done. simpl in He.
  destruct He as (f & _ & _ & _ & Hk & _). congruence.
Qed.

Lemma scan_directory_length :
  length (scan_directory world args)
  = length (List.filter (is_audio world)
              (PathLib.child (AUDIO_DIR args) <$> listdir world (AUDIO_DIR args))).
Proof. unfold scan_directory. by rewrite merge_sort_Permutation. Qed.

(** X3.  With [--file-count] a run prints the start message and the number
    of files of the queue, and does nothing else: no progress bar, no
    model, no conversion, no transcription.  When the folder is scanned,
    the number is that of the entries that are regular files with a
    recognized extension, skip-listed ones included. *)
Theorem file_count_only :
  file_count args = true ->
  run world args
  = (Normal tt,
     [Print (MsgStartingFrom (start args));
      Print (MsgTotalFiles (Z.of_nat (length (discover world args))))])
  /\ (single_file_given args = false ->
      length (discover world args)
      = length (List.filter
                  (fun p => is_file world p
                            && bool_decide (Py.lower (PathLib.suffix p)
                                              ∈ recognized_extensions))
                  (PathLib.child (AUDIO_DIR args)
                     <$> listdir world (AUDIO_DIR args)))).
Proof.
  intros Hcount. split.
  - unfold run, whisper_folder. by rewrite Hcount, start_message.
  - intros Hsingle.
    assert (Hscan : discover world args = scan_directory world args).
    { unfold discover, single_file_given in *.
      destruct (single_file args) as [sf|]; [|done]. by rewrite Hsingle. }
    rewrite Hscan, scan_directory_length. f_equal.
    apply bool_filter_ext. intros p. unfold is_audio. f_equal.
    apply bool_decide_ext, audio_exts_recognized.
Qed.

(** X4.  A processing run over an empty queue (a folder without any
    recognized file) is out of range for every start position, the default
    included: it prints the out-of-range message and ends. *)
Theorem empty_queue_out_of_range :
  file_count args = false ->
  discover world args = [] ->
  run world args
  = (Normal tt, [Print (MsgStartingFrom (start args)); Print MsgStartOutOfRange]).
Proof.
  intros Hcount Hempty. unfold run, whisper_folder.
  rewrite Hcount, Hempty, start_message. simpl length.
  unfold START.
  destruct (Z.ltb_spec (start args - 1) 0);
    destruct (Z.ltb_spec (Z.of_nat 0 - 1) (start args - 1)); try done; lia.
Qed.

(** X5.  With a single-file override the queue is that one path, as given
    when it exists and inside the folder otherwise, whatever its extension
    and whether or not it is a regular file; so a processing run with a
    start position other than 1 is out of range. *)
Theorem single_file_queue (sf : string) :
  single_file args = Some sf ->
  Py.truthy sf = true ->
  discover world args
  = [if exists_at_discovery world (PathLib.of_string sf)
     then PathLib.of_string sf
     else PathLib.joinpath (AUDIO_DIR args) sf]
  /\ (file_count args = false -> start args <> 1 ->
      run world args
      = (Normal tt,
         [Print (MsgStartingFrom (start args)); Print MsgStartOutOfRange])).
Proof.
  intros Hsf Htruthy.
  assert (Hq : discover world args
               = [if exists_at_discovery world (PathLib.of_string sf)
                  then PathLib.of_string sf
                  else PathLib.joinpath (AUDIO_DIR args) sf]).
  { unfold discover. rewrite Hsf, Htruthy.
    by destruct (exists_at_discovery world (PathLib.of_string sf)). }
  split; [exact Hq|].
  intros Hcount Hstart. unfold run, whisper_folder.
  rewrite Hcount, Hq, start_message. simpl length. unfold START.
  destruct (Z.ltb_spec (start args - 1) 0);
    destruct (Z.ltb_spec (Z.of_nat 1 - 1) (start args - 1)); try done; lia.
Qed.

End Modes.

(** ** The loop over the files: composition and exits *)

Section Loop.

Variable world : World.
Variable args : Args.

Lemma for_each_cons {A} (body : A -> M unit) (x : A) (xs : list A) (c : Z) :
  for_each body (x :: xs) c
  = match outcome_of (body x) c with
    | Raise e => (Raise e, count_of (body x) c, trace_of (body x) c)
    | _ => (outcome_of (for_each body xs) (count_of (body x) c),
            count_of (for_each body xs) (count_of (body x) c),
            trace_of (body x) c
              ++ trace_of (for_each body xs) (count_of (body x) c))
    end.
Proof.
  simpl. unfold outcome_of, count_of, trace_of.
  destruct (body x c) as [[[a| |e] c1] l1]; simpl; try done;
    by destruct (for_each body xs c1) as [[r2 c2] l2].
Qed.

Lemma outcome_of_for_each_cons {A} (body : A -> M unit) x xs c :
  outcome_of (for_each body (x :: xs)) c
  = match outcome_of (body x) c with
    | Raise e => Raise e
    | _ => outcome_of (for_each body xs) (count_of (body x) c)
    end.
Proof.
  unfold outcome_of at 1. rewrite for_each_cons. by destruct (outcome_of (body x) c).
Qed.

Lemma count_of_for_each_cons {A} (body : A -> M unit) x xs c :
  count_of (for_each body (x :: xs)) c
  = match outcome_of (body x) c with
    | Raise e => count_of (body x) c
    | _ => count_of (for_each body xs) (count_of (body x) c)
    end.
Proof.
  unfold count_of at 1. rewrite for_each_cons. by destruct (outcome_of (body x) c).
Qed.

Lemma trace_of_for_each_cons {A} (body : A -> M unit) x xs c :
  trace_of (for_each body (x :: xs)) c
  = trace_of (body x) c
      ++ match outcome_of (body x) c with
         | Raise e => []
         | _ => trace_of (for_each body xs) (count_of (body x) c)
         end.
Proof.
  unfold trace_of at 1. rewrite for_each_cons.
  destruct (outcome_of (body x) c); simpl; by rewrite ?app_nil_r.
Qed.

Lemma for_each_outcome {A} (body : A -> M unit) (xs : list A) (c : Z) :
  outcome_of (for_each body xs) c = Normal tt
  \/ exists e, outcome_of (for_each body xs) c = Raise e.
Proof.
  revert c. induction xs as [|x xs IH]; intros c; [by left|].
  rewrite outcome_of_for_each_cons.
  destruct (outcome_of (body x) c); simpl; eauto.
Qed.

Lemma for_each_app_projections {A} (body : A -> M unit) (xs ys : list A) (c : Z) :
  let first := for_each body xs in
  outcome_of (for_each body (xs ++ ys)) c
  = match outcome_of first c with
    | Raise e => Raise e
    | _ => outcome_of (for_each body ys) (count_of first c)
    end
  /\ count_of (for_each body (xs ++ ys)) c
     = match outcome_of first c with
       | Raise e => count_of first c
       | _ => count_of (for_each body ys) (count_of first c)
       end
  /\ trace_of (for_each body (xs ++ ys)) c
     = trace_of first c
         ++ match outcome_of first c with
            | Raise e => []
            | _ => trace_of (for_each body ys) (count_of first c)
            end.
Proof.
  revert c. induction xs as [|x xs IH]; intros c first; subst first.
  - by repeat split.
  - change ((x :: xs) ++ ys) with (x :: (xs ++ ys)).
    rewrite !outcome_of_for_each_cons, !count_of_for_each_cons,
      !trace_of_for_each_cons.
    destruct (IH (count_of (body x) c)) as (Ho & Hc & Ht).
    destruct (outcome_of (body x) c); rewrite ?app_nil_r; try done;
      rewrite Ho, Hc, Ht, app_assoc; done.
Qed.

Lemma for_each_app {A} (body : A -> M unit) (xs ys : list A) (c : Z) :
  outcome_of (for_each body xs) c = Normal tt ->
  for_each body (xs ++ ys) c
  = (outcome_of (for_each body ys) (count_of (for_each body xs) c),
     count_of (for_each body ys) (count_of (for_each body xs) c),
     trace_of (for_each body xs) c
       ++ trace_of (for_each body ys) (count_of (for_each body xs) c)).
Proof.
  intros Hxs. rewrite (run_eta (for_each body (xs ++ ys))).
  destruct (for_each_app_projections body xs ys c) as (-> & -> & ->).
  by rewrite Hxs.
Qed.

(** A processing run with its start position in range: the header, the
    loop over the queue from the start position on, and the footer unless
    the loop ended with an exception. *)
Lemma run_in_range :
  file_count args = false ->
  1 <= start args <= Z.of_nat (length (discover world args)) ->
  let total := Z.of_nat (length (discover world args)) in
  let loop := for_each (process_file world args total)
                (drop (Z.to_nat (start args - 1)) (discover world args)) in
  run world args
  = (run_outcome (outcome_of loop (start args)),
     run_header args total ++ trace_of loop (start args)
       ++ run_footer (outcome_of loop (start args))).
Proof.
  intros Hcount Hrange total loop.
  unfold run. rewrite (run_eta (whisper_folder world args)).
  unfold whisper_folder. rewrite Hcount. fold total.
  unfold START.
  destruct (Z.ltb_spec (start args - 1) 0) as [?|_]; [lia|].
  destruct (Z.ltb_spec (total - 1) (start args - 1)) as [?|_]; [lia|].
  cbn [orb]. unfold Py.slice_from.
  destruct (Z.ltb_spec (start args - 1) 0) as [?|_]; [lia|].
  fold loop. eval_steps.
  replace (start args - 1 + 1) with (start args) by lia.
  destruct (for_each_outcome (process_file world args total)
              (drop (Z.to_nat (start args - 1)) (discover world args))
              (start args)) as [Hn | [e He]];
    fold loop in Hn || fold loop in He.
  - rewrite Hn. by eval_steps.
  - rewrite He. by eval_steps.
Qed.

Lemma run_projections {A} (m : M A) (c : Z) r c' l :
  m c = (r, c', l) ->
  outcome_of m c = r /\ count_of m c = c' /\ trace_of m c = l.
Proof. unfold outcome_of, count_of, trace_of. by intros ->. Qed.

Lemma process_file_passed_over total f c :
  passed_over world f = true ->
  process_file world args total f c = (Continue, c + 1, [passed_over_message f]).
Proof.
  unfold passed_over, passed_over_message, process_file. intros Hp.
  destruct (bool_decide (PathLib.name f ∈ SKIP_FILES)); [done|].
  simpl in Hp. by rewrite Hp.
Qed.

(** X6.  Over files that are all on the skip list or gone when their turn
    comes, the loop prints one message per file, in order, advances the
    counter by one per file, does nothing else and ends normally. *)
Theorem passed_over_files (total : Z) (fs : list Path) (c : Z) :
  Forall (fun f => passed_over world f = true) fs ->
  for_each (process_file world args total) fs c
  = (Normal tt, c + Z.of_nat (length fs), passed_over_message <$> fs).
Proof.
  intros Hall. revert c. induction Hall as [|f fs Hf _ IH]; intros c.
  - simpl. unfold ret. do 2 f_equal. lia.
  - rewrite for_each_cons.
    unfold outcome_of, count_of, trace_of.
    rewrite (process_file_passed_over total f c Hf), IH. cbn [fst snd].
    rewrite fmap_cons. do 2 f_equal. simpl length. lia.
Qed.

(** X7.  In conversion-only mode a file with another extension than
    [.wav] is converted and nothing more: it is not transcribed, nothing is
    written, the WAV is not deleted, the counter advances and the loop
    continues with the next file. *)
Theorem convert_only_stops_after_conversion (total : Z) (f out_wav : Path) (c : Z) :
  passed_over world f = false ->
  PathLib.with_suffix f ".wav" = Some out_wav ->
  is_wav f = false ->
  ffmpeg_ok world f out_wav = true ->
  convert_wav_only args = true ->
  process_file world args total f c
  = (Continue, c + 1,
     [Print (MsgProcessing c total f); Print (MsgConverting c total);
      Ffmpeg f out_wav; Print (MsgConversionDone c total out_wav)]).
Proof.
  unfold passed_over, is_wav. intros Hp Hwav Hext Hok Honly.
  apply orb_false_elim in Hp as [Hskip Hex].
  rewrite (run_eta (process_file world args total f)).
  unfold process_file. rewrite Hskip, Hex, Hwav. cbn [negb]. eval_steps.
  unfold convert_stage. rewrite Hext, Hok, Honly. cbn [negb].
  by eval_steps.
Qed.

Lemma process_file_conversion_fails total f out_wav c :
  passed_over world f = false ->
  PathLib.with_suffix f ".wav" = Some out_wav ->
  is_wav f = false ->
  ffmpeg_ok world f out_wav = false ->
  process_file world args total f c
  = (Raise (CalledProcessError f), c,
     [Print (MsgProcessing c total f); Print (MsgConverting c total);
      Ffmpeg f out_wav]).
Proof.
  unfold passed_over, is_wav. intros Hp Hwav Hext Hok.
  apply orb_false_elim in Hp as [Hskip Hex].
  rewrite (run_eta (process_file world args total f)).
  unfold process_file. rewrite Hskip, Hex, Hwav. cbn [negb]. eval_steps.
  unfold convert_stage. rewrite Hext, Hok. cbn [negb].
  by eval_steps.
Qed.

(** X8.  A conversion that fails is fatal for the whole run: when the
    files [before] it in the iterated part of the queue went through and
    ffmpeg fails on [f], the run ends with the converter's exception right
    after the call; the files after [f] are not touched, the outer bar is
    not closed and the closing message is not printed. *)
Theorem conversion_failure_is_fatal (before rest : list Path) (f out_wav : Path) :
  file_count args = false ->
  1 <= start args <= Z.of_nat (length (discover world args)) ->
  drop (Z.to_nat (start args - 1)) (discover world args) = before ++ f :: rest ->
  let total := Z.of_nat (length (discover world args)) in
  let first := for_each (process_file world args total) before in
  outcome_of first (start args) = Normal tt ->
  passed_over world f = false ->
  PathLib.with_suffix f ".wav" = Some out_wav ->
  is_wav f = false ->
  ffmpeg_ok world f out_wav = false ->
  run world args
  = (Raise (CalledProcessError f),
     run_header args total ++ trace_of first (start args)
       ++ [Print (MsgProcessing (count_of first (start args)) total f);
           Print (MsgConverting (count_of first (start args)) total);
           Ffmpeg f out_wav]).
Proof.
  intros Hcount Hrange Hqueue total first Hfirst Hp Hwav Hext Hok.
  rewrite (run_in_range Hcount Hrange). fold total. rewrite Hqueue.
  pose proof (for_each_app (process_file world args total) before (f :: rest)
                (start args) Hfirst) as Happ.
  fold first in Happ.
  destruct (run_projections _ _ _ _ _
              (process_file_conversion_fails total f out_wav
                 (count_of first (start args)) Hp Hwav Hext Hok))
    as (Ho & Hc & Ht).
  rewrite outcome_of_for_each_cons, count_of_for_each_cons,
    trace_of_for_each_cons, Ho, Hc, Ht in Happ.
  destruct (run_projections _ _ _ _ _ Happ) as (-> & _ & ->).
  cbn [run_outcome run_footer]. by rewrite !app_nil_r.
Qed.

Lemma run_out_of_range :
  file_count args = false ->
  start_in_range world args = false ->
  run world args
  = (Normal tt, [Print (MsgStartingFrom (start args)); Print MsgStartOutOfRange]).
Proof.
  intros Hcount Hrange. unfold run, whisper_folder.
  rewrite Hcount, start_message. unfold START.
  unfold start_in_range in Hrange.
  destruct (Z.ltb_spec (start args - 1) 0);
    destruct (Z.ltb_spec (Z.of_nat (length (discover world args)) - 1)
                (start args - 1)); try done.
  apply andb_false_iff in Hrange as [Hr|Hr];
    [apply Z.leb_gt in Hr|apply Z.leb_gt in Hr]; lia.
Qed.

Lemma loop_has_no_frame_event (total : Z) (fs : list Path) (c : Z) :
  List.filter is_frame (trace_of (for_each (process_file world args total) fs) c)
  = [].
Proof.
  assert (Hpost : post (for_each (process_file world args total) fs)
                    (fun e => is_frame e = false) (fun _ => True)).
  { apply post_for_each. intros f _.
    eapply post_events_mono; [apply process_file_effects|].
    by intros []. }
  destruct (Hpost c) as [Hall _].
  induction Hall as [|e l He _ IH]; [done|]. simpl. by rewrite He.
Qed.

(** X9.  The model is loaded exactly once in a processing run whose start
    position is in range, before the first file is looked at, and never in
    a count-only or an out-of-range run; the outer bar is created and
    closed around the loop and nowhere else. *)
Theorem model_loaded_once :
  List.filter is_frame (run world args).2
  = if negb (file_count args) && start_in_range world args
    then [PbarFilesNew (Z.of_nat (length (discover world args))) (start args - 1);
          LoadModel (model args) (compute_type args)]
         ++ (if (run world args).1 is Raise _ then [] else [PbarFilesClose])
    else [].
Proof.
  destruct (file_count args) eqn:Hcount.
  { unfold run, whisper_folder. by rewrite Hcount. }
  destruct (start_in_range world args) eqn:Hrange.
  - assert (Hr : 1 <= start args <= Z.of_nat (length (discover world args))).
    { unfold start_in_range in Hrange. apply andb_prop in Hrange as [H1 H2].
      apply Z.leb_le in H1, H2. lia. }
    rewrite (run_in_range Hcount Hr). cbn [fst snd negb andb].
    rewrite !List.filter_app, loop_has_no_frame_event.
    by destruct (outcome_of _ _).
  - by rewrite (run_out_of_range Hcount Hrange).
Qed.


End Loop.


(** ** The start offset *)

Section StartOffset.

Variable world : World.
Variable args : Args.

(** The trace of a loop is made of the traces of its iterations. *)
Lemma trace_of_iterations {A} (body : A -> M unit) (xs : list A) (c : Z) :
  trace_of (for_each body xs) c
  = concat ((fun it => trace_of (body it.1) it.2) <$> iterations body xs c).
Proof.
  revert c. induction xs as [|x xs IH]; intros c; [done|].
  rewrite trace_of_for_each_cons. cbn [iterations].
  rewrite fmap_cons. cbn [concat fst snd]. f_equal.
  destruct (outcome_of (body x) c); by rewrite ?IH.
Qed.

(** The loop reaches every element in order, unless an exception ends it:
    then the last element reached is the one that raised it. *)
Lemma iterations_reach {A} (body : A -> M unit) (xs : list A) (c : Z) :
  match outcome_of (for_each body xs) c with
  | Raise e =>
      exists before x c',
        iterations body xs c = before ++ [(x, c')]
        /\ outcome_of (body x) c' = Raise e
        /\ (before.*1 ++ [x]) `prefix_of` xs
  | _ => (iterations body xs c).*1 = xs
  end.
Proof.
  revert c. induction xs as [|x xs IH]; intros c; [done|].
  rewrite outcome_of_for_each_cons. cbn [iterations].
  destruct (outcome_of (body x) c) as [[]| |e] eqn:Hx.
  - specialize (IH (count_of (body x) c)).
    destruct (outcome_of (for_each body xs) (count_of (body x) c)) as [[]| |e].
    + rewrite fmap_cons. cbn [fst]. by f_equal.
    + rewrite fmap_cons. cbn [fst]. by f_equal.
    + destruct IH as (before & y & c' & Hits & Hy & Hpre).
      exists ((x, c) :: before), y, c'. rewrite Hits. split; [done|]. split; [done|].
      rewrite fmap_cons. cbn [fst]. by apply prefix_cons.
  - specialize (IH (count_of (body x) c)).
    destruct (outcome_of (for_each body xs) (count_of (body x) c)) as [[]| |e].
    + rewrite fmap_cons. cbn [fst]. by f_equal.
    + rewrite fmap_cons. cbn [fst]. by f_equal.
    + destruct IH as (before & y & c' & Hits & Hy & Hpre).
      exists ((x, c) :: before), y, c'. rewrite Hits. split; [done|]. split; [done|].
      rewrite fmap_cons. cbn [fst]. by apply prefix_cons.
  - exists [], x, c. split; [done|]. split; [done|].
    cbn. apply prefix_cons, prefix_nil.
Qed.

(** Every iteration says what it is about before anything else. *)
Lemma process_file_first_message (total : Z) (f : Path) (c : Z) :
  head (trace_of (process_file world args total f) c)
  = Some (first_message world total f c).
Proof.
  unfold process_file, first_message.
  destruct (bool_decide _); [done|].
  destruct (negb _); [done|].
  by eval_steps.
Qed.

(** C5.  In a run that is not the count-only query, with [--start N]: when
    [1 <= N <= queue length], the loop iterates the queue elements from
    0-based position [N - 1] on, in order, each once and with nothing
    between the iterations but the header before and the footer after
    them; it reaches all of them unless the processing of one raises an
    exception, which ends the run with that file.  When [N] is below 1 or
    above the queue length the run prints the out-of-range message and
    returns normally, with nothing else done: no conversion, no
    transcription, no output. *)
Theorem start_offset :
  file_count args = false ->
  let files := discover world args in
  let total := Z.of_nat (length files) in
  let N := start args in
  let queue := drop (Z.to_nat (N - 1)) files in
  let body := process_file world args total in
  let reached := iterations body queue N in
  (1 <= N <= total ->
   (forall i : nat, queue !! i = files !! (Z.to_nat (N - 1) + i)%nat)
   /\ (run world args).2
      = run_header args total
          ++ concat ((fun it => trace_of (body it.1) it.2) <$> reached)
          ++ run_footer (run world args).1
   /\ Forall (fun it => head (trace_of (body it.1) it.2)
                        = Some (first_message world total it.1 it.2)) reached
   /\ match (run world args).1 with
      | Raise e =>
          exists before f c,
            reached = before ++ [(f, c)]
            /\ outcome_of (body f) c = Raise e
            /\ (before.*1 ++ [f]) `prefix_of` queue
      | _ => reached.*1 = queue
      end)
  /\ (N < 1 \/ total < N ->
      run world args
      = (Normal tt, [Print (MsgStartingFrom N); Print MsgStartOutOfRange])).
Proof.
  intros Hcount files total N queue body reached. split.
  - intros Hrange.
    rewrite (run_in_range world args Hcount Hrange).
    fold files total N queue body. cbn [fst snd].
    pose proof (iterations_reach body queue N) as Hreach. fold reached in Hreach.
    split; [intros i; apply lookup_drop|]. split; [|split].
    + rewrite trace_of_iterations. fold reached.
      by destruct (outcome_of (for_each body queue) N).
    + apply Forall_forall. intros [f c] _. apply process_file_first_message.
    + by destruct (outcome_of (for_each body queue) N).
  - intros Hrange. apply run_out_of_range; [done|].
    unfold start_in_range. fold files total N.
    destruct (Z.leb_spec 1 N), (Z.leb_spec N total); try done; lia.
Qed.

End StartOffset.

(** ** A recording in two formats *)

(** C7.  A folder with [a.mp3] and [a.wav], default flags: both are in
    the queue, [a.mp3] first.  Its conversion is told to write [a.wav],
    over the input of that name, and the cleanup after its transcription
    deletes [a.wav]; when the turn of [a.wav] comes, the file is gone. *)
Theorem wav_sibling_overwritten_and_deleted :
  discover sibling_world default_args = [mkPath ["a.mp3"]; mkPath ["a.wav"]]
  /\ is_wav (mkPath ["a.wav"]) = true
  /\ List.filter is_conversion_or_deletion (run sibling_world default_args).2
     = [Ffmpeg (mkPath ["a.mp3"]) (mkPath ["a.wav"]); Unlink (mkPath ["a.wav"])]
  /\ (run sibling_world default_args).1 = Normal tt
  /\ List.filter is_transcribe (run sibling_world default_args).2
     = [Transcribe (mkPath ["a.wav"]) (transcribe_options default_args)]
  /\ (exists before,
        (run sibling_world default_args).2
        = before ++ [Unlink (mkPath ["a.wav"]); PbarFilesUpdate 1;
                     Print MsgFileNoLongerExists; PbarFilesClose;
                     Print MsgGoodbye]).
Proof.
  repeat split; try (vm_compute; reflexivity).
  exists (take 23 (run sibling_world default_args).2). vm_compute. reflexivity.
Qed.

(** ** The progress arithmetic without assumptions *)

Section ProgressAnyOrder.


End ProgressAnyOrder.

(** ** When the outputs are written *)

Section WriteCondition.

Variable world : World.
Variable args : Args.

Lemma no_text_writes_nothing (total : Z) (f out_wav : Path) (c : Z) :
  PathLib.with_suffix f ".wav" = Some out_wav ->
  List.filter has_text (transcribe world out_wav (transcribe_options args)).1 = [] ->
  Forall (fun e => is_write e = false)
    (trace_of (process_file world args total f) c).
Proof.
  intros Hwav Hnone.
  pose proof (consume_segments_no_text _ loop_init Hnone) as Hloop.
  cut (post (process_file world args total f)
         (fun e => is_write e = false) (fun _ => True)).
  { intros H. apply H. }
  unfold process_file.
  destruct (bool_decide _); [post_auto|].
  destruct (negb _); [post_auto|].
  do 3 post_head. rewrite Hwav.
  eapply post_bind with (R1 := fun p => p = out_wav);
    [by apply post_ret|intros ? ->].
  eapply post_bind; [by apply post_convert_stage|intros created _].
  eapply post_bind; [by apply post_transcribe_stage|].
  intros [pbar_total st] (_ & Hst & _). cbn [fst snd] in Hst. subst st.
  rewrite Hloop. unfold finish_stage. cbn [srt_lines loop_init].
  destruct (0 <? _); [|post_auto].
  eapply post_bind with (R1 := fun _ => True); [|intros ? _].
  { post_head. eapply post_bind with (R1 := fun _ => False);
      [by post_auto|by intros ? []]. }
  post_auto.
Qed.

(** X12.  For a file that reaches transcription, with a duration whose
    whole seconds are [pbar_total] and a segment loop that ends without
    exception: the two documents are written exactly when some segment has
    text and the whole seconds the loop has put on the inner bar stay
    below [pbar_total].  A transcript whose updates fill the bar is not
    written. *)
Theorem outputs_written_iff (total : Z) (f out_wav : Path) (c : Z)
    (created : bool) (pbar_total : Z) :
  passed_over world f = false ->
  PathLib.with_suffix f ".wav" = Some out_wav ->
  outcome_of (convert_stage world args total f out_wav) c = Normal created ->
  let result := transcribe world out_wav (transcribe_options args) in
  let st := consume_segments loop_init result.1 in
  Py.int (Py.or_zero result.2) = Ok pbar_total ->
  raised st = None ->
  (exists e, e ∈ trace_of (process_file world args total f) c /\ is_write e = true)
  <-> (List.filter has_text result.1 <> []
       /\ sum_updates (pbar_updates st) < pbar_total).
Proof.
  intros Hp Hwav Hconv result st Htotal Hraised.
  destruct (consume_segments_inv result.1 loop_init progress_inv_init) as (Hbar & _).
  fold st in Hbar.
  split.
  - intros (e & He & Hw).
    destruct (List.filter has_text result.1) as [|seg kept] eqn:Hkept.
    { pose proof (no_text_writes_nothing total f out_wav c Hwav Hkept) as Hno.
      rewrite Forall_forall in Hno. specialize (Hno e He). congruence. }
    split; [done|].
    destruct (Z.lt_ge_cases (sum_updates (pbar_updates st)) pbar_total)
      as [?|Hfull]; [done|].
    pose proof (full_bar_writes_nothing world args total f out_wav c pbar_total
                  Hwav Htotal) as Hno.
    fold result st in Hno. rewrite Hbar in Hno.
    specialize (Hno ltac:(lia)).
    rewrite Forall_forall in Hno. specialize (Hno e He). congruence.
  - intros [Hkept Hlt].
    unfold passed_over in Hp. apply orb_false_elim in Hp as [Hskip Hex].
    apply negb_false_iff in Hex.
    destruct (outputs_written_in_one_flush world args total f out_wav c created
                pbar_total Hskip Hex Hwav Hconv Htotal Hraised)
      as (out_txt & out_srt & blocks & _ & _ & _ & _ & Htrace).
    + fold result st. rewrite Hbar. lia.
    + exact Hkept.
    + exists (WriteText out_txt
                (Py.join Py.newline (seg_text <$> List.filter has_text result.1))).
      split; [|done]. rewrite Htrace. set_solver.
Qed.

End WriteCondition.
(** ** The counter of the log messages *)

Section Counter.

Variable world : World.
Variable args : Args.

Lemma counted_bind {A} (m : M A) (k : A -> M unit) :
  count_neutral m ->
  (forall a c, count_of (k a) c
               = count_expected c (outcome_of (k a) c) (trace_of (k a) c)) ->
  forall c, count_of (bind m k) c
            = count_expected c (outcome_of (bind m k) c) (trace_of (bind m k) c).
Proof.
  intros Hm Hk c. destruct (Hm c) as [Hw Hc].
  rewrite count_of_bind, outcome_of_bind, trace_of_bind.
  destruct (outcome_of m c) as [a| |e]; simpl; try done.
  rewrite Hk, Hc. unfold count_expected.
  destruct (outcome_of (k a) c); try done.
  by rewrite existsb_app, Hw.
Qed.

Lemma neutral_print (m : Message) : count_neutral (print m).
Proof. by intros c. Qed.

Lemma neutral_get_count : count_neutral get_count.
Proof. by intros c. Qed.

Lemma neutral_with_suffix (p : Path) (sfx : string) :
  count_neutral (match PathLib.with_suffix p sfx with
                 | Some q => ret q
                 | None => raise ValueError
                 end).
Proof. intros c. by destruct (PathLib.with_suffix p sfx). Qed.

Lemma neutral_convert_stage total f out_wav :
  count_neutral (convert_stage world args total f out_wav).
Proof.
  intros c. unfold convert_stage.
  destruct (negb _); [|done].
  destruct (ffmpeg_ok world f out_wav), (convert_wav_only args);
    by eval_steps.
Qed.

Lemma neutral_transcribe_stage total out_wav :
  count_neutral (transcribe_stage world args total out_wav).
Proof.
  intros c. rewrite count_of_transcribe_stage.
  unfold trace_of, outcome_of. rewrite transcribe_stage_run.
  destruct (Py.int _) as [pbar_total|e]; cbn [fst snd]; [|done].
  split; [|by destruct (raised _)].
  simpl. rewrite existsb_app. simpl. rewrite orb_false_r.
  by induction (pbar_updates _).
Qed.

Lemma counted_finish total out_wav created pbar_total st c :
  let m := (finish_stage world args total out_wav created pbar_total st ;;
            emit (PbarFilesUpdate 1))%prog in
  count_of m c = count_expected c (outcome_of m c) (trace_of m c).
Proof.
  intros m. subst m. unfold finish_stage.
  destruct (0 <? _); [|by eval_steps].
  destruct (srt_lines st); [by eval_steps|].
  destruct (PathLib.with_suffix out_wav ".txt"); [|by eval_steps].
  destruct (PathLib.with_suffix out_wav ".srt"); [|by eval_steps].
  by destruct (created && negb (keep_wav_files args)
               && is_file_at_cleanup world out_wav); eval_steps.
Qed.

(** X13.  The counter of the log messages advances by exactly one for a
    file that is passed over, only converted, found empty or written.  It
    stays where it is when the file ends with an exception and when the
    segment loop had already filled the inner bar, in which case the next
    file is announced under the same number. *)
Theorem counter_after_file (total : Z) (f : Path) (c : Z) :
  count_of (process_file world args total f) c
  = count_expected c (outcome_of (process_file world args total f) c)
      (trace_of (process_file world args total f) c).
Proof.
  unfold process_file.
  destruct (bool_decide _); [by eval_steps|].
  destruct (negb _); [by eval_steps|].
  revert c. apply counted_bind; [apply neutral_get_count|intros count].
  apply counted_bind; [apply neutral_print|intros _].
  apply counted_bind; [apply neutral_print|intros _].
  apply counted_bind; [apply neutral_with_suffix|intros out_wav].
  apply counted_bind; [apply neutral_convert_stage|intros created].
  apply counted_bind; [apply neutral_transcribe_stage|intros [pbar_total st]].
  apply counted_finish.
Qed.

End Counter.

(** ** The queue has no duplicates *)

Section NoDuplicates.

Variable world : World.
Variable args : Args.

Global Instance child_inj (dir : Path) : Inj (=) (=) (PathLib.child dir).
Proof.
  intros a b [= H]. apply app_inv_head in H. by injection H.
Qed.

Lemma bool_filter_NoDup {A} (f : A -> bool) (l : list A) :
  NoDup l -> NoDup (List.filter f l).
Proof.
  induction 1 as [|x l Hx _ IH]; simpl; [constructor|].
  destruct (f x); [|done]. constructor; [|done].
  intros Hin. apply Hx.
  apply list_elem_of_In, filter_In in Hin as [Hin _]. by apply list_elem_of_In.
Qed.

(** X14.  When the directory listing names no entry twice, no file is in
    the queue twice: no file is processed a second time in one run. *)
Theorem discovered_queue_no_duplicates :
  NoDup (listdir world (AUDIO_DIR args)) ->
  NoDup (discover world args).
Proof.
  intros Hnames.
  assert (Hscan : NoDup (scan_directory world args)).
  { unfold scan_directory. rewrite merge_sort_Permutation.
    apply bool_filter_NoDup. apply NoDup_fmap_2; [apply child_inj|done]. }
  unfold discover. destruct (single_file args) as [sf|]; [|done].
  destruct (Py.truthy sf); [|done].
  destruct (exists_at_discovery world (PathLib.of_string sf));
    apply NoDup_singleton.
Qed.

End NoDuplicates.

(** ** The names of the outputs *)

Section OutputNames.

Lemma substring_all (s : string) : String.substring 0 (String.length s) s = s.
Proof. induction s as [|c s IH]; [done|]. simpl. by rewrite IH. Qed.

Lemma substring_app_left (a b : string) :
  String.substring 0 (String.length a) (a +:+ b) = a.
Proof.
  induction a as [|c a IH]; simpl.
  - by destruct b.
  - by rewrite IH.
Qed.

Lemma substring_app_right (a b : string) :
  String.substring (String.length a) (String.length b) (a +:+ b) = b.
Proof. induction a as [|c a IH]; simpl; [apply substring_all|done]. Qed.

Lemma substring_length (n m : nat) (s : string) :
  (n + m <= String.length s)%nat ->
  String.length (String.substring n m s) = m.
Proof.
  revert n m. induction s as [|c s IH]; intros n m Hle; simpl in *.
  - destruct n, m; simpl; lia.
  - destruct n as [|n].
    + destruct m as [|m]; [done|]. simpl. rewrite IH; [done|lia].
    + apply IH. lia.
Qed.

Lemma rfind_dot_from_app (a b : string) (i found : Z) :
  Py.rfind_dot_from (a +:+ b) i found
  = Py.rfind_dot_from b (i + Z.of_nat (String.length a))
      (Py.rfind_dot_from a i found).
Proof.
  revert i found. induction a as [|c a IH]; intros i found; simpl.
  - by rewrite Z.add_0_r.
  - rewrite IH. f_equal. lia.
Qed.

Lemma rfind_dot_output_suffix (sfx : string) (j found : Z) :
  output_suffix sfx ->
  Py.rfind_dot_from sfx j found = j /\ String.length sfx = 4%nat.
Proof. by intros [-> | [-> | ->]]. Qed.

Lemma stem_nonempty (p : Path) : PathLib.name p <> "" -> stem p <> "".
Proof.
  intros Hname. unfold stem, PathLib.suffix.
  set (nm := PathLib.name p) in *.
  set (i := Py.rfind_dot nm).
  destruct ((0 <? i) && (i <? Z.of_nat (String.length nm) - 1)) eqn:Hcond.
  - apply andb_prop in Hcond as [Hi1%Z.ltb_lt Hi2%Z.ltb_lt].
    rewrite substring_length by lia.
    intros Hempty.
    assert (Hlen : String.length
                     (String.substring 0
                        (String.length nm - Z.to_nat (Z.of_nat (String.length nm) - i))
                        nm)
                   = (String.length nm - Z.to_nat (Z.of_nat (String.length nm) - i))%nat).
    { apply substring_length. lia. }
    rewrite Hempty in Hlen. simpl in Hlen. lia.
  - simpl. rewrite Nat.sub_0_r, substring_all. done.
Qed.

Lemma name_of_child_path (ps : list string) (x : string) :
  x <> "/" -> PathLib.name (mkPath (ps ++ [x])) = x.
Proof.
  intros Hx. unfold PathLib.name. cbn [parts]. rewrite last_last.
  destruct ps as [|y [|z ps]]; simpl; [|done|done].
  by destruct (String.eqb_spec x "/").
Qed.

Lemma appended_suffix_not_root (a sfx : string) :
  output_suffix sfx -> a +:+ sfx <> "/".
Proof.
  intros Hs Heq. apply (f_equal String.length) in Heq.
  rewrite string_length_app in Heq.
  destruct (rfind_dot_output_suffix sfx 0 0 Hs) as [_ Hlen].
  rewrite Hlen in Heq. simpl in Heq. lia.
Qed.

(** The path [with_suffix] returns: same parent, same stem, the suffix
    asked for. *)
Lemma with_suffix_spec (p q : Path) (sfx : string) :
  output_suffix sfx ->
  PathLib.with_suffix p sfx = Some q ->
  parent_parts q = parent_parts p
  /\ stem q = stem p
  /\ PathLib.suffix q = sfx
  /\ PathLib.name q = stem p +:+ sfx.
Proof.
  intros Hs. unfold PathLib.with_suffix.
  destruct (String.eqb_spec (PathLib.name p) "") as [|Hname]; [done|].
  fold (stem p). intros [= <-].
  destruct (rfind_dot_output_suffix sfx
              (0 + Z.of_nat (String.length (stem p)))
              (Py.rfind_dot_from (stem p) 0 (-1)) Hs) as [Hfind Hlen].
  pose proof (stem_nonempty p Hname) as Hstem.
  assert (Hstem_len : (0 < String.length (stem p))%nat).
  { destruct (stem p); [done|simpl; lia]. }
  assert (Hnm : PathLib.name (mkPath (removelast (parts p) ++ [stem p +:+ sfx]))
                = stem p +:+ sfx).
  { apply name_of_child_path. by apply appended_suffix_not_root. }
  assert (Hsuffix : PathLib.suffix (mkPath (removelast (parts p) ++ [stem p +:+ sfx]))
                    = sfx).
  { unfold PathLib.suffix. rewrite Hnm. unfold Py.rfind_dot.
    rewrite rfind_dot_from_app, Hfind, string_length_app, Hlen.
    destruct (Z.ltb_spec 0 (0 + Z.of_nat (String.length (stem p)))); [|lia].
    destruct (Z.ltb_spec (0 + Z.of_nat (String.length (stem p)))
                (Z.of_nat (String.length (stem p) + 4) - 1)); [|lia].
    cbn [andb].
    replace (Z.to_nat (0 + Z.of_nat (String.length (stem p))))
      with (String.length (stem p)) by lia.
    replace (Z.to_nat (Z.of_nat (String.length (stem p) + 4)
                       - (0 + Z.of_nat (String.length (stem p)))))
      with (String.length sfx) by lia.
    apply substring_app_right. }
  repeat split; try done.
  - unfold parent_parts. cbn [parts]. apply removelast_last.
  - unfold stem at 1. rewrite Hsuffix, Hnm, string_length_app.
    replace (String.length (stem p) + String.length sfx - String.length sfx)%nat
      with (String.length (stem p)) by lia.
    apply substring_app_left.
Qed.

(** X15.  The outputs are named after the input: the WAV the program
    works on, the [.txt] and the [.srt] it writes lie in the directory of
    the input file and have its stem, with the suffixes [.wav], [.txt]
    and [.srt]. *)
Theorem outputs_named_after_input (f out_wav out_txt out_srt : Path) :
  PathLib.with_suffix f ".wav" = Some out_wav ->
  PathLib.with_suffix out_wav ".txt" = Some out_txt ->
  PathLib.with_suffix out_wav ".srt" = Some out_srt ->
  (parent_parts out_wav = parent_parts f /\ stem out_wav = stem f
   /\ PathLib.suffix out_wav = ".wav")
  /\ (parent_parts out_txt = parent_parts f /\ stem out_txt = stem f
      /\ PathLib.suffix out_txt = ".txt")
  /\ (parent_parts out_srt = parent_parts f /\ stem out_srt = stem f
      /\ PathLib.suffix out_srt = ".srt").
Proof.
  intros Hwav Htxt Hsrt.
  destruct (with_suffix_spec f out_wav ".wav") as (Hp1 & Hs1 & Hx1 & _);
    [unfold output_suffix; auto|done|].
  destruct (with_suffix_spec out_wav out_txt ".txt") as (Hp2 & Hs2 & Hx2 & _);
    [unfold output_suffix; auto|done|].
  destruct (with_suffix_spec out_wav out_srt ".srt") as (Hp3 & Hs3 & Hx3 & _);
    [unfold output_suffix; auto|done|].
  repeat split; congruence.
Qed.

End OutputNames.

(** ** What a run creates and deletes, by extension *)

Section Extensions.

Variable world : World.
Variable args : Args.

(** X16.  In every run the converter writes to a [.wav] path from an input
    with another extension, only [.txt] and [.srt] paths are written, and
    only [.wav] paths are deleted: a recording in another format is never
    written over or deleted. *)
Theorem run_touches_only_outputs (e : Event) :
  e ∈ (run world args).2 ->
  match e with
  | Ffmpeg src dst => is_wav src = false /\ PathLib.suffix dst = ".wav"
  | WriteText p _ => PathLib.suffix p = ".txt" \/ PathLib.suffix p = ".srt"
  | Unlink p => PathLib.suffix p = ".wav"
  | _ => True
  end.
Proof.
  intros He. pose proof (whole_run_effects world args) as Hall.
  rewrite Forall_forall in Hall. specialize (Hall e He).
  destruct e; simpl in Hall; try done.
  - destruct Hall as (f & _ & -> & Hnot & Hdst).
    split; [done|].
    by destruct (with_suffix_spec f dst ".wav" ltac:(by left) Hdst) as (_ & _ & ? & _).
  - destruct Hall as (f & _ & wav & _ & [Hp | Hp]).
    + left.
      by destruct (with_suffix_spec wav p ".txt" ltac:(by right; left) Hp)
        as (_ & _ & ? & _).
    + right.
      by destruct (with_suffix_spec wav p ".srt" ltac:(by right; right) Hp)
        as (_ & _ & ? & _).
  - destruct Hall as (f & _ & Hp & _).
    by destruct (with_suffix_spec f p ".wav" ltac:(by left) Hp) as (_ & _ & ? & _).
Qed.

End Extensions.

(** ** Timestamps read back *)

Section TimestampRoundTrip.

Lemma parse_digits_str (n : Z) : 0 <= n -> parse_digits (Py.str n) = Some n.
Proof.
  intros Hn. unfold parse_digits, Py.str.
  pose proof (DecimalZ.of_to n) as Hback.
  destruct n as [|p|p]; [done| |lia].
  simpl Z.to_int in *. simpl NilZero.string_of_int.
  rewrite NilZero.usu by apply DecimalPos.Unsigned.to_uint_nonnil.
  simpl. f_equal. exact Hback.
Qed.

Lemma parse_digits_zero (s : string) (n : Z) :
  parse_digits s = Some n -> parse_digits (String "0" s) = Some n.
Proof.
  unfold parse_digits. destruct s as [|c s]; [done|].
  unfold NilZero.uint_of_string.
  change (NilEmpty.uint_of_string (String "0" (String c s)))
    with (uint_of_char "0" (NilEmpty.uint_of_string (String c s))).
  destruct (NilEmpty.uint_of_string (String c s)) as [d|]; [|done].
  simpl. by intros [= <-].
Qed.

Lemma parse_digits_padded (w : nat) (n : Z) :
  0 <= n -> parse_digits (zero_pad w (Py.str n)) = Some n.
Proof.
  intros Hn. unfold zero_pad.
  induction (w - String.length (Py.str n))%nat as [|k IH]; simpl.
  - by apply parse_digits_str.
  - by apply parse_digits_zero.
Qed.

Lemma substring_app_skip (a b : string) (k m : nat) :
  String.substring (String.length a + k) m (a +:+ b) = String.substring k m b.
Proof. induction a as [|c a IH]; simpl; done. Qed.

Lemma get_app_skip (a b : string) (k : nat) :
  String.get (String.length a + k) (a +:+ b) = String.get k b.
Proof. induction a as [|c a IH]; simpl; done. Qed.

Lemma two_chars (s : string) :
  String.length s = 2%nat -> exists a b, s = String a (String b "").
Proof. destruct s as [|a [|b [|c s]]]; try done. eauto. Qed.

Lemma three_chars (s : string) :
  String.length s = 3%nat -> exists a b c, s = String a (String b (String c "")).
Proof. destruct s as [|a [|b [|c [|d s]]]]; try done. eauto. Qed.

(** The layout of a timestamp: the fields are found at fixed distances
    from its end. *)
Lemma parse_layout (H M S MS : string) (h m s ms : Z) :
  (2 <= String.length H)%nat ->
  String.length M = 2%nat -> String.length S = 2%nat ->
  String.length MS = 3%nat ->
  parse_digits H = Some h -> parse_digits M = Some m ->
  parse_digits S = Some s -> parse_digits MS = Some ms ->
  parse_srt_time (H +:+ ":" +:+ M +:+ ":" +:+ S +:+ "," +:+ MS)
  = Some (((h * 60 + m) * 60 + s) * 1000 + ms).
Proof.
  intros HH HM HS HMS Ph Pm Ps Pms.
  destruct (two_chars M HM) as (m1 & m2 & ->).
  destruct (two_chars S HS) as (s1 & s2 & ->).
  destruct (three_chars MS HMS) as (x1 & x2 & x3 & ->).
  unfold parse_srt_time.
  set (tail := ":" +:+ String m1 (String m2 "") +:+ ":"
               +:+ String s1 (String s2 "") +:+ ","
               +:+ String x1 (String x2 (String x3 ""))).
  assert (Hlen : String.length (H +:+ tail) = (String.length H + 10)%nat).
  { by rewrite string_length_app. }
  rewrite Hlen.
  replace (String.length H + 10 - 10)%nat with (String.length H) by lia.
  destruct (Nat.leb_spec 12 (String.length H + 10)); [|lia].
  assert (E0 : String.substring 0 (String.length H) (H +:+ tail) = H)
    by apply substring_app_left.
  assert (E1 : String.substring (String.length H + 1) 2 (H +:+ tail)
               = String m1 (String m2 "")) by by rewrite substring_app_skip.
  assert (E2 : String.substring (String.length H + 4) 2 (H +:+ tail)
               = String s1 (String s2 "")) by by rewrite substring_app_skip.
  assert (E3 : String.substring (String.length H + 7) 3 (H +:+ tail)
               = String x1 (String x2 (String x3 ""))) by by rewrite substring_app_skip.
  assert (C0 : char_at (String.length H) ":" (H +:+ tail) = true).
  { unfold char_at. rewrite <- (Nat.add_0_r (String.length H)).
    by rewrite get_app_skip. }
  assert (C1 : char_at (String.length H + 3) ":" (H +:+ tail) = true).
  { unfold char_at. by rewrite get_app_skip. }
  assert (C2 : char_at (String.length H + 6) "," (H +:+ tail) = true).
  { unfold char_at. by rewrite get_app_skip. }
  rewrite C0, C1, C2, E0, Ph. cbn [andb mbind option_bind].
  rewrite E1, Pm. cbn [mbind option_bind].
  rewrite E2, Ps. cbn [mbind option_bind].
  by rewrite E3, Pms.
Qed.


Lemma floor_unique (n : Z) (a x : Q) :
  (inject_Z n + a == x)%Q -> (0 <= a < 1)%Q -> n = Qfloor x.
Proof.
  intros Hsum [Hlo Hhi]. destruct (floor_bounds x) as [Hfl Hfu].
  assert (H1 : n <= Qfloor x).
  { rewrite <- (Qfloor_Z n). apply Qfloor_resp_le. lra. }
  assert (H2 : Qfloor x < n + 1).
  { rewrite Zlt_Qlt, inject_Z_plus. change (inject_Z 1) with 1%Q. lra. }
  lia.
Qed.

(** X17.  A timestamp reads back to the millisecond: for a finite time
    [t] that is not negative, parsing what [format_srt_time] prints gives
    the whole milliseconds of [t] or, when the product of the fractional
    part and 1000 was rounded up to a whole number, one more; whatever the
    number of hours. *)
Theorem timestamp_reads_back (t : PrimFloat.float) :
  float_finite t = true -> (0 <= float_value t)%Q ->
  exists (s : string) (millis : Z),
    format_srt_time t = Ok s
    /\ parse_srt_time s = Some millis
    /\ Qfloor (float_value t * 1000) <= millis <= Qfloor (float_value t * 1000) + 1
    /\ (inject_Z millis <= float_value t * 1000 + pow2 (-44))%Q.
Proof.
  intros Hfin Ht.
  destruct (format_srt_time_fields t Hfin Ht)
    as (ms & Hfmt & Hh & Hm & Hs & Hms & Hwhole & _ & _ & Hround & Hup).
  set (whole := Qfloor (float_value t)) in *.
  set (frac := (float_value t - inject_Z whole)%Q) in *.
  eexists _, (whole * 1000 + ms). split; [exact Hfmt|].
  assert (Hfloor : Qfloor (float_value t * 1000)
                   = whole * 1000 + Qfloor (frac * 1000)).
  { symmetry.
    apply (floor_unique _ (frac * 1000 - inject_Z (Qfloor (frac * 1000)))).
    - rewrite inject_Z_plus, inject_Z_mult. change (inject_Z 1000) with 1000%Q.
      unfold frac. ring.
    - destruct (floor_bounds (frac * 1000)). lra. }
  split; [|split].
  - rewrite (parse_layout _ _ _ _ (whole / 3600) ((whole / 60) mod 60)
               (whole mod 60) ms).
    + f_equal. lia.
    + rewrite zero_pad_length. lia.
    + by apply padded_length_2.
    + by apply padded_length_2.
    + by apply padded_length.
    + by apply parse_digits_padded.
    + apply parse_digits_padded. lia.
    + apply parse_digits_padded. lia.
    + apply parse_digits_padded. lia.
  - rewrite Hfloor. lia.
  - rewrite inject_Z_plus, inject_Z_mult. change (inject_Z 1000) with 1000%Q.
    unfold frac in Hup. lra.
Qed.

End TimestampRoundTrip.
(** ** The documents line by line *)

Section Lines.

Lemma split_on_one_line (s : string) :
  one_line s = true -> lines_of s = [s].
Proof.
  unfold lines_of. induction s as [|c s IH]; [done|]. simpl.
  intros [Hc Hs]%andb_prop. apply negb_true_iff in Hc. rewrite Hc.
  by rewrite (IH Hs).
Qed.

Lemma split_on_line_feed (a b : string) :
  one_line a = true ->
  lines_of (a +:+ Py.newline +:+ b) = a :: lines_of b.
Proof.
  unfold lines_of. induction a as [|c a IH]; [done|]. simpl.
  intros [Hc Ha]%andb_prop. apply negb_true_iff in Hc. rewrite Hc.
  by rewrite (IH Ha).
Qed.

Lemma lines_of_join (lines : list string) :
  lines <> [] ->
  Forall (fun l => one_line l = true) lines ->
  lines_of (Py.join Py.newline lines) = lines.
Proof.
  intros Hne Hall. induction Hall as [|l lines Hl Hall IH]; [done|].
  destruct lines as [|l' lines].
  - simpl. by apply split_on_one_line.
  - change (Py.join Py.newline (l :: l' :: lines))
      with (l +:+ Py.newline +:+ Py.join Py.newline (l' :: lines)).
    rewrite split_on_line_feed by done. f_equal. by apply IH.
Qed.

Lemma one_line_app (a b : string) :
  one_line a = true -> one_line b = true -> one_line (a +:+ b) = true.
Proof.
  induction a as [|c a IH]; [done|]. simpl.
  intros [Hc Ha]%andb_prop Hb. rewrite Hc. by apply IH.
Qed.

Lemma one_line_uint (d : Decimal.uint) :
  one_line (NilEmpty.string_of_uint d) = true.
Proof. induction d; simpl; done. Qed.

Lemma one_line_str (n : Z) : one_line (Py.str n) = true.
Proof.
  unfold Py.str. destruct (Z.to_int n) as [d|d]; simpl.
  - destruct d; try done; apply (one_line_uint (_ d)).
  - destruct d; try done; apply (one_line_uint (_ d)).
Qed.
Lemma one_line_zeros (k : nat) : one_line (Py.repeat_char "0" k) = true.
Proof. induction k as [|k IH]; simpl; done. Qed.

Lemma one_line_format_0w (w : nat) (n : Z) : one_line (Py.format_0w w n) = true.
Proof.
  unfold Py.format_0w.
  destruct (n <? 0); repeat apply one_line_app;
    try done; try apply one_line_zeros; apply one_line_str.
Qed.


Lemma one_line_format_srt_time (t : PrimFloat.float) (s : string) :
  format_srt_time t = Ok s -> one_line s = true.
Proof.
  unfold format_srt_time. intros H.
  apply try_bind_ok in H as (whole & _ & H).
  apply try_bind_ok in H as (ms & _ & H).
  cbv zeta in H. injection H as <-.
  repeat apply one_line_app; try done; apply one_line_format_0w.
Qed.

Lemma one_line_blocks (first : Z) (kept : list Segment) (blocks : list string) :
  blocks_from first kept = Ok blocks ->
  Forall (fun seg => one_line (seg_text seg) = true) kept ->
  Forall (fun l => one_line l = true) blocks.
Proof.
  intros Hb Hall. revert first blocks Hb.
  induction Hall as [|seg kept Hseg _ IH]; intros first blocks.
  - intros [= <-]. constructor.
  - intros (block & others & Hblock & Hothers & ->)%blocks_from_cons.
    apply Forall_app. split; [|by eapply IH].
    unfold srt_block in Hblock.
    apply try_bind_ok in Hblock as (start_time & Hstart & Hblock).
    apply try_bind_ok in Hblock as (end_time & Hend & [= <-]).
    repeat constructor; try done.
    + apply one_line_str.
    + apply one_line_app; [by eapply one_line_format_srt_time|].
      apply one_line_app; [done|by eapply one_line_format_srt_time].
Qed.

(** X18.  Read back line by line, the documents are what the loop
    collected: when the loop ends without exception, some segment has text
    and no text holds a line feed, the plain-text document has one line
    per segment with text, its text, and the subtitle document has four
    lines per such segment, the lines of its block; both in the order of
    the segments. *)
Theorem documents_line_by_line (segments : list Segment) :
  let st := consume_segments loop_init segments in
  let kept := List.filter has_text segments in
  raised st = None ->
  kept <> [] ->
  Forall (fun seg => one_line (seg_text seg) = true) kept ->
  lines_of (Py.join Py.newline (txt_lines st)) = seg_text <$> kept
  /\ blocks_from 1 kept = Ok (lines_of (Py.join Py.newline (srt_lines st)))
  /\ length (lines_of (Py.join Py.newline (txt_lines st))) = length kept
  /\ length (lines_of (Py.join Py.newline (srt_lines st))) = (4 * length kept)%nat.
Proof.
  intros st kept Hok Hne Hall.
  destruct (consume_segments_lines segments loop_init Hok)
    as (blocks & Hb & Hs & Ht & _).
  fold st kept in Hs, Ht, Hb. cbn in Hs, Ht, Hb.
  assert (Htxt : lines_of (Py.join Py.newline (txt_lines st)) = seg_text <$> kept).
  { rewrite Ht. apply lines_of_join.
    - by destruct kept.
    - by apply Forall_fmap. }
  assert (Hsrt : lines_of (Py.join Py.newline (srt_lines st)) = blocks).
  { rewrite Hs. apply lines_of_join.
    - by apply (blocks_from_nonempty 1 kept).
    - by apply (one_line_blocks 1 kept). }
  rewrite Htxt, Hsrt, length_fmap, (blocks_from_length 1 kept blocks Hb). done.
Qed.

End Lines.

(** ** The moment of writing *)

Section Flush.

Variable world : World.
Variable args : Args.

(** X19.  A file that is transcribed with text while the inner bar is
    not full gets its two documents in one go: the trace of the file holds
    exactly two writes, next to each other, the plain text first and the
    subtitles second, after the transcription call and after the inner bar
    was closed, and the contents are the texts and the blocks of the
    segments with text, joined by line feeds. *)
Theorem documents_written_once_after_loop (total : Z) (f out_wav : Path)
    (c : Z) (created : bool) (pbar_total : Z) :
  passed_over world f = false ->
  PathLib.with_suffix f ".wav" = Some out_wav ->
  outcome_of (convert_stage world args total f out_wav) c = Normal created ->
  let result := transcribe world out_wav (transcribe_options args) in
  let kept := List.filter has_text result.1 in
  let st := consume_segments loop_init result.1 in
  Py.int (Py.or_zero result.2) = Ok pbar_total ->
  raised st = None ->
  0 < pbar_total - pbar_n st ->
  kept <> [] ->
  exists before after out_txt out_srt blocks,
    PathLib.with_suffix out_wav ".txt" = Some out_txt
    /\ PathLib.with_suffix out_wav ".srt" = Some out_srt
    /\ blocks_from 1 kept = Ok blocks
    /\ trace_of (process_file world args total f) c
       = before
           ++ [WriteText out_txt (Py.join Py.newline (seg_text <$> kept));
               WriteText out_srt (Py.join Py.newline blocks)]
           ++ after
    /\ Forall (fun e => is_write e = false) before
    /\ Forall (fun e => is_write e = false) after
    /\ Transcribe out_wav (transcribe_options args) ∈ before
    /\ PbarAudioClose ∈ before.
Proof.
  intros Hp Hwav Hconv result kept st Htotal Hraised Hrem Hkept.
  unfold passed_over in Hp. apply orb_false_elim in Hp as [Hskip Hex].
  apply negb_false_iff in Hex.
  destruct (outputs_written_in_one_flush world args total f out_wav c created
              pbar_total Hskip Hex Hwav Hconv Htotal Hraised Hrem Hkept)
    as (out_txt & out_srt & blocks & Htxt & Hsrt & Hblocks & _ & Htrace).
  fold result kept st in Htrace.
  set (conv := trace_of (convert_stage world args total f out_wav) c) in *.
  set (tr := trace_of (transcribe_stage world args total out_wav)
               (count_of (convert_stage world args total f out_wav) c)) in *.
  exists ([Print (MsgProcessing c total f); Print (MsgConverting c total)]
          ++ conv ++ tr
          ++ [PbarAudioUpdate (pbar_total - pbar_n st);
              Print MsgBlank; Print MsgStartingWriting]),
    ([Print (MsgWrote out_txt); Print (MsgWrote out_srt);
      Print (MsgDone (count_of (convert_stage world args total f out_wav) c) total)]
     ++ (if created && negb (keep_wav_files args)
            && is_file_at_cleanup world out_wav
         then [Unlink out_wav] else [])
     ++ [PbarFilesUpdate 1]),
    out_txt, out_srt, blocks.
  assert (Hconv_free : Forall (fun e => is_write e = false) conv).
  { by apply (post_convert_stage world args total f out_wav
                (fun e => is_write e = false)). }
  assert (Htr_free : Forall (fun e => is_write e = false) tr).
  { by apply (post_transcribe_stage world args total out_wav
                (fun e => is_write e = false)). }
  assert (Htr : tr = [Print (MsgStartingWhisper
                               (count_of (convert_stage world args total f out_wav) c)
                               total);
                      Print (MsgTranscribing out_wav);
                      Transcribe out_wav (transcribe_options args);
                      PbarAudioNew pbar_total]
                     ++ (PbarAudioUpdate <$> pbar_updates st)
                     ++ [PbarAudioClose])
    by (by apply trace_of_transcribe_stage).
  split; [done|]. split; [done|]. split; [done|]. split.
  { rewrite Htrace. simpl. by rewrite <- !app_assoc. }
  split.
  { repeat (apply Forall_app; split); try done; by repeat constructor. }
  split.
  { repeat (apply Forall_app; split); try done;
      try by repeat constructor.
    destruct (_ && _); by repeat constructor. }
  split.
  - rewrite Htr. set_solver.
  - rewrite Htr. set_solver.
Qed.

End Flush.
(** ** The position of the outer bar *)

Section OuterBar.

Variable world : World.
Variable args : Args.

Lemma for_each_ticks (total : Z) (files : list Path) (c : Z) :
  let ticks := List.filter is_tick
                 (trace_of (for_each (process_file world args total) files) c) in
  Forall (fun e => e = PbarFilesUpdate 1) ticks
  /\ (length ticks <= length files)%nat.
Proof.
  revert c. induction files as [|f files IH]; intros c.
  { split; [constructor|done]. }
  cbn zeta. rewrite trace_of_for_each_cons, List.filter_app,
    ticks_only_on_fall_through.
  destruct (outcome_of (process_file world args total f) c) as [[]| |e];
    cbn [ticks_expected List.filter app length].
  - destruct (IH (count_of (process_file world args total f) c)) as [Hall Hlen].
    split; [by constructor|]. simpl. lia.
  - destruct (IH (count_of (process_file world args total f) c)) as [Hall Hlen].
    split; [done|]. lia.
  - split; [constructor|]. simpl. lia.
Qed.

(** X20.  The outer bar never runs past its total.  It is created at
    position [start - 1] with the length of the queue as total, every
    advance of it is by one, and a processing run advances it at most once
    per file from the start position on; a count-only run and a run whose
    start position is out of range do not advance it at all. *)
Theorem outer_bar_within_total :
  let ticks := List.filter is_tick (run world args).2 in
  Forall (fun e => e = PbarFilesUpdate 1) ticks
  /\ (if negb (file_count args) && start_in_range world args
      then start args - 1 + Z.of_nat (length ticks)
           <= Z.of_nat (length (discover world args))
      else ticks = []).
Proof.
  cbn zeta. destruct (file_count args) eqn:Hcount.
  { unfold run, whisper_folder. rewrite Hcount. by split; [constructor|]. }
  destruct (start_in_range world args) eqn:Hrange.
  - assert (Hr : 1 <= start args <= Z.of_nat (length (discover world args))).
    { unfold start_in_range in Hrange. apply andb_prop in Hrange as [H1 H2].
      apply Z.leb_le in H1, H2. lia. }
    rewrite (run_in_range world args Hcount Hr). cbn [fst snd negb andb].
    set (total := Z.of_nat (length (discover world args))).
    set (files := drop (Z.to_nat (start args - 1)) (discover world args)).
    assert (Hframe : forall r : Ctl unit, List.filter is_tick (run_footer r) = []).
    { by intros [[]| |e]. }
    rewrite !List.filter_app, Hframe, app_nil_r. cbn [run_header List.filter is_tick app].
    destruct (for_each_ticks total files (start args)) as [Hall Hlen].
    split; [exact Hall|].
    assert (Hfiles : length files
                     = (length (discover world args) - Z.to_nat (start args - 1))%nat).
    { unfold files. by rewrite length_drop. }
    cbn zeta in Hlen. unfold total in *. lia.
  - rewrite (run_out_of_range world args Hcount Hrange). by split; [constructor|].
Qed.

End OuterBar.


(** ** When the segment loop runs to its end *)

Section Completion.

Lemma pow2_1000_room : (1 + 2 * pow2 1000 < pow2 1023)%Q.
Proof. vm_compute. reflexivity. Qed.

Lemma format_srt_time_completes (t : PrimFloat.float) :
  float_finite t = true -> (0 <= float_value t)%Q ->
  exists s, format_srt_time t = Ok s.
Proof.
  intros Hfin Ht.
  destruct (format_srt_time_fields t Hfin Ht) as (ms & Hfmt & _). by eexists.
Qed.

Lemma progress_step_completes (st : LoopState) (e : PrimFloat.float) :
  progress_inv st ->
  float_nonneg (last_end st) = true -> float_nonneg e = true ->
  (float_value (last_end st) <= float_value e)%Q ->
  (float_value e < pow2 1000)%Q ->
  exists st', progress_step st e = Ok st'.
Proof.
  intros (_ & _ & Hrem & Hlt) Hlast He Hle Hbound.
  pose proof pow2_1000_room as Hroom.
  pose proof (float_nonneg_value _ Hlast) as Hlast0.
  pose proof (float_nonneg_value _ Hrem) as Hrem0.
  destruct pow2_53_bounds as [Hu0 Hu1].
  destruct (sub_no_overflow e (last_end st) He Hlast Hle) as [Hd Hdv]; [lra|].
  destruct (max_zero_nonneg _ Hd) as [Hdelta Hdeltav].
  set (d := (e - last_end st)%float) in *.
  assert (Hdbound : (float_value d <= 2 * pow2 1000)%Q).
  { set (u := pow2 (-53)) in *. set (E := float_value e) in *.
    set (L := float_value (last_end st)) in *. set (B := pow2 1000) in *.
    assert (u * (E - L) <= E - L)%Q by nra. lra. }
  assert (Hacc : float_nonneg (progress_accumulation st + Py.max 0 d) = true).
  { apply add_no_overflow; [done|done|]. rewrite Hdeltav. lra. }
  unfold progress_step. fold d. rewrite (int_nonneg _ Hacc).
  cbn [mbind Try_bind]. by eexists.
Qed.

Lemma segment_body_completes (st : LoopState) (seg : Segment) :
  progress_inv st -> float_nonneg (last_end st) = true ->
  float_finite (seg_start seg) = true -> (0 <= float_value (seg_start seg))%Q ->
  float_finite (seg_end seg) = true -> (0 <= float_value (seg_end seg))%Q ->
  (float_value (last_end st) <= float_value (seg_end seg))%Q ->
  (float_value (seg_end seg) < pow2 1000)%Q ->
  exists st', segment_body st seg = Ok st'.
Proof.
  intros Hinv Hlast Hsf Hs0 Hef He0 Hle Hbound.
  destruct (format_srt_time_completes _ Hsf Hs0) as [start_time Hstart].
  destruct (format_srt_time_completes _ Hef He0) as [end_time Hend].
  unfold segment_body, srt_block. rewrite Hstart, Hend. cbn [mbind Try_bind].
  match goal with
  | |- context [progress_step ?st1 _] =>
      destruct (progress_step_completes st1 (seg_end seg)) as [st2 Hstep];
        [done|done|by apply float_finite_nonneg|done|done|]
  end.
  rewrite Hstep. by eexists.
Qed.

Lemma consume_segments_completes (segments : list Segment) (st : LoopState) :
  let kept := List.filter has_text segments in
  raised st = None -> progress_inv st -> float_nonneg (last_end st) = true ->
  Forall (fun seg =>
            float_finite (seg_start seg) = true
            /\ (0 <= float_value (seg_start seg))%Q
            /\ float_finite (seg_end seg) = true
            /\ (float_value (last_end st) <= float_value (seg_end seg))%Q
            /\ (float_value (seg_end seg) < pow2 1000)%Q) kept ->
  StronglySorted (fun a b => (float_value (seg_end a) <= float_value (seg_end b))%Q)
    kept ->
  raised (consume_segments st segments) = None.
Proof.
  revert st. induction segments as [|seg segments IH];
    intros st kept Hraised Hinv Hlast Hall Hsorted; [done|].
  rewrite consume_segments_cons. unfold kept in *. cbn [List.filter] in Hall, Hsorted.
  destruct (has_text seg) eqn:Htext.
  - apply Forall_cons in Hall as [(Hsf & Hs0 & Hef & Hle & Hbound) Hall].
    apply StronglySorted_inv in Hsorted as [Hsorted Hhd].
    pose proof (float_nonneg_value _ Hlast) as Hlast0.
    destruct (segment_body_completes st seg Hinv Hlast Hsf Hs0 Hef ltac:(lra) Hle Hbound)
      as [st' Hbody].
    assert (Hstep : segment_step st seg = st').
    { unfold segment_step. rewrite Hraised. unfold has_text in Htext.
      by rewrite Htext, Hbody. }
    rewrite Hstep.
    destruct (segment_body_lines _ _ _ Hbody) as (_ & _ & _ & _ & _ & Hr').
    destruct (segment_body_inv st st' seg Hinv Hbody) as (Hinv' & Hend' & _).
    apply IH.
    + by rewrite Hr'.
    + done.
    + rewrite Hend'. apply float_finite_nonneg; [done|lra].
    + rewrite Hend'. rewrite Forall_forall in Hall, Hhd |- *.
      intros s Hs. destruct (Hall s Hs) as (? & ? & ? & _ & ?).
      specialize (Hhd s Hs). done.
    + done.
  - rewrite (segment_step_no_text st seg Htext). by apply IH.
Qed.

(** X22.  The segment loop raises no exception when the times of the
    segments with text are finite and not negative and their end times do
    not decrease and stay below [2^1000]: every timestamp is formatted and
    the accumulator never overflows. *)
Theorem segment_loop_completes (segments : list Segment) :
  let kept := List.filter has_text segments in
  Forall (fun seg =>
            float_finite (seg_start seg) = true
            /\ (0 <= float_value (seg_start seg))%Q
            /\ float_finite (seg_end seg) = true
            /\ (0 <= float_value (seg_end seg) < pow2 1000)%Q) kept ->
  Sorted Qle (float_value ∘ seg_end <$> kept) ->
  raised (consume_segments loop_init segments) = None.
Proof.
  intros kept Hall Hsorted.
  apply (consume_segments_completes segments loop_init eq_refl progress_inv_init
           eq_refl).
  - eapply Forall_impl; [exact Hall|].
    intros seg (? & ? & ? & [? ?]). by repeat split.
  - by apply ends_strongly_sorted.
Qed.

End Completion.

(** ** The rounding of binary64, on examples *)


(** Three segments that end at 1.22, 3.4 and 6.0: the updates are 1, 2
    and 2, and the remainder kept is [1 - 2^-51], not 1; updates plus
    remainder fall short of the last end time.  A segment that ends at -1
    leaves updates and remainder at 0, and so does a segment whose start
    is not a number, which ends the loop. *)
Lemma carry_remainder_drifts :
  Sorted Qle (float_value ∘ seg_end <$> drifting_segments)
  /\ Forall (fun seg => (0 <= float_value (seg_end seg))%Q) drifting_segments
  /\ forallb has_text drifting_segments = true
  /\ raised (consume_segments loop_init drifting_segments) = None
  /\ pbar_updates (consume_segments loop_init drifting_segments) = [1; 2; 2]
  /\ (float_value (progress_accumulation (consume_segments loop_init drifting_segments))
      == 1 - pow2 (-51))%Q
  /\ (last_seen_end drifting_segments == 6)%Q
  /\ ~ (inject_Z (sum_updates (pbar_updates (consume_segments loop_init drifting_segments)))
        + float_value (progress_accumulation (consume_segments loop_init drifting_segments))
        == last_seen_end drifting_segments)%Q
  /\ raised (consume_segments loop_init early_segments) = None
  /\ (last_seen_end early_segments == -1)%Q
  /\ (inject_Z (sum_updates (pbar_updates (consume_segments loop_init early_segments)))
      + float_value (progress_accumulation (consume_segments loop_init early_segments))
      == 0)%Q
  /\ raised (consume_segments loop_init unnumbered_segments) = Some ValueError
  /\ (last_seen_end unnumbered_segments == 2)%Q
  /\ (inject_Z (sum_updates (pbar_updates (consume_segments loop_init unnumbered_segments)))
      + float_value (progress_accumulation
                       (consume_segments loop_init unnumbered_segments))
      == 0)%Q.
Proof.
  split; [repeat constructor; vm_compute; discriminate|].
  split; [repeat constructor; vm_compute; discriminate|].
  split; [vm_compute; reflexivity|]. split; [vm_compute; reflexivity|].
  split; [vm_compute; reflexivity|]. split; [vm_compute; reflexivity|].
  split; [vm_compute; reflexivity|].
  split; [intros H; vm_compute in H; discriminate|].
  repeat split; vm_compute; reflexivity.
Qed.

(** The count-only query does not look at the start position, and a
    conversion that fails ends the loop before the rest of the queue. *)
Lemma start_offset_not_as_stated :
  Z.of_nat (length (discover sample_world count_beyond_args)) < start count_beyond_args
  /\ run sample_world count_beyond_args
     = (Normal tt, [Print (MsgStartingFrom 99); Print (MsgTotalFiles 3)])
  /\ (Print MsgStartOutOfRange ∉ (run sample_world count_beyond_args).2)
  /\ 1 <= start default_args <= Z.of_nat (length (discover trouble_world default_args))
  /\ drop (Z.to_nat (start default_args - 1)) (discover trouble_world default_args)
     = [mkPath ["a.mp3"]; mkPath ["c.ts"]; mkPath ["d.mp4"]; mkPath ["gone.mp3"]]
  /\ (iterations (process_file trouble_world default_args 4)
        (drop (Z.to_nat (start default_args - 1)) (discover trouble_world default_args))
        (start default_args)).*1
     = [mkPath ["a.mp3"]; mkPath ["c.ts"]]
  /\ (run trouble_world default_args).1 = Raise (CalledProcessError (mkPath ["c.ts"])).
Proof.
  split; [vm_compute; reflexivity|].
  split; [vm_compute; reflexivity|].
  split.
  { replace (run sample_world count_beyond_args).2
      with [Print (MsgStartingFrom 99); Print (MsgTotalFiles 3)]
      by (vm_compute; reflexivity).
    intros [H|[H|H%elem_of_nil]%elem_of_cons]%elem_of_cons; done. }
  split; [vm_compute; split; discriminate|].
  repeat split; vm_compute; reflexivity.
Qed.

(** ** Witnesses on the sample runs *)


Lemma empty_transcript_skipped_witness :
  PathLib.with_suffix (mkPath ["b.mp3"]) ".wav" = Some (mkPath ["b.wav"])
  /\ List.filter has_text
       (transcribe sample_world (mkPath ["b.wav"])
          (transcribe_options default_args)).1 = []
  /\ float_finite
       (Py.or_zero (transcribe sample_world (mkPath ["b.wav"])
                      (transcribe_options default_args)).2) = true
  /\ Forall (fun e => is_write e = false)
       (trace_of (process_file sample_world default_args 3 (mkPath ["b.mp3"])) 2)
  /\ (outcome_of (process_file sample_world default_args 3 (mkPath ["b.mp3"])) 2
        = Normal tt
      \/ outcome_of (process_file sample_world default_args 3 (mkPath ["b.mp3"])) 2
        = Continue).
Proof.
  assert (Hwav : PathLib.with_suffix (mkPath ["b.mp3"]) ".wav"
                 = Some (mkPath ["b.wav"])) by reflexivity.
  assert (Hnone : List.filter has_text
            (transcribe sample_world (mkPath ["b.wav"])
               (transcribe_options default_args)).1 = []) by reflexivity.
  assert (Hfin : float_finite
            (Py.or_zero (transcribe sample_world (mkPath ["b.wav"])
                           (transcribe_options default_args)).2) = true)
    by (vm_compute; reflexivity).
  pose proof (empty_transcript_skipped sample_world default_args 3
                (mkPath ["b.mp3"]) (mkPath ["b.wav"]) 2 [mkPath ["c.ts"]]
                Hwav Hnone Hfin) as [Hwrite Hnext].
  split; [exact Hwav|]. split; [exact Hnone|]. split; [exact Hfin|].
  split; [exact Hwrite|].
  apply Hnext. vm_compute. repeat constructor.
Defined.

Lemma subtitle_blocks_witness :
  raised (consume_segments loop_init sample_segments) = None
  /\ length (srt_lines (consume_segments loop_init sample_segments))
     = (4 * length (List.filter has_text sample_segments))%nat
  /\ txt_lines (consume_segments loop_init sample_segments)
     = seg_text <$> List.filter has_text sample_segments.
Proof.
  assert (Hok : raised (consume_segments loop_init sample_segments) = None)
    by (vm_compute; reflexivity).
  split; [exact Hok|].
  destruct (subtitle_blocks sample_segments Hok) as (Hlen & _ & Htxt & _).
  split; [exact Hlen|exact Htxt].
Defined.

Lemma start_offset_witness :
  file_count default_args = false
  /\ 1 <= start default_args
          <= Z.of_nat (length (discover sample_world default_args))
  /\ Forall (fun it =>
               head (trace_of (process_file sample_world default_args
                                 (Z.of_nat (length (discover sample_world default_args)))
                                 it.1) it.2)
               = Some (first_message sample_world
                         (Z.of_nat (length (discover sample_world default_args)))
                         it.1 it.2))
       (iterations
          (process_file sample_world default_args
             (Z.of_nat (length (discover sample_world default_args))))
          (drop (Z.to_nat (start default_args - 1))
             (discover sample_world default_args))
          (start default_args))
  /\ (iterations (process_file sample_world default_args 3)
        [mkPath ["a.WAV"]; mkPath ["b.mp3"]; mkPath ["c.ts"]] 1).*1
     = [mkPath ["a.WAV"]; mkPath ["b.mp3"]; mkPath ["c.ts"]].
Proof.
  assert (Hrange : 1 <= start default_args
                   <= Z.of_nat (length (discover sample_world default_args))).
  { vm_compute. split; discriminate. }
  split; [reflexivity|]. split; [exact Hrange|].
  destruct (proj1 (start_offset sample_world default_args eq_refl) Hrange)
    as (_ & _ & Hhead & _).
  split; [exact Hhead|]. vm_compute. reflexivity.
Defined.

Lemma discovered_queue_witness :
  single_file_given default_args = false
  /\ StronglySorted PathLib.le (discover sample_world default_args)
  /\ discover sample_world default_args
     = [mkPath ["a.WAV"]; mkPath ["b.mp3"]; mkPath ["c.ts"]].
Proof.
  split; [reflexivity|]. split; [|vm_compute; reflexivity].
  apply (discovered_queue sample_world default_args). reflexivity.
Defined.

Lemma carry_remainder_invariant_witness :
  raised (consume_segments loop_init (take 3 drifting_segments)) = None
  /\ Sorted Qle (float_value ∘ seg_end <$> drifting_segments)
  /\ Forall (fun seg => (0 <= float_value (seg_end seg))%Q) drifting_segments
  /\ (0 <= float_value (progress_accumulation
                          (consume_segments loop_init (take 3 drifting_segments)))
      < 1)%Q
  /\ pbar_n (consume_segments loop_init (take 3 drifting_segments))
     = sum_updates (pbar_updates (consume_segments loop_init (take 3 drifting_segments))).
Proof.
  assert (Hok : raised (consume_segments loop_init (take 3 drifting_segments)) = None)
    by (vm_compute; reflexivity).
  assert (Hsorted : Sorted Qle (float_value ∘ seg_end <$> drifting_segments)).
  { repeat constructor; vm_compute; discriminate. }
  assert (Hnonneg : Forall (fun seg => (0 <= float_value (seg_end seg))%Q)
                      drifting_segments).
  { repeat constructor; vm_compute; discriminate. }
  split; [exact Hok|]. split; [exact Hsorted|]. split; [exact Hnonneg|].
  destruct (carry_remainder_invariant drifting_segments 3 Hok Hsorted Hnonneg)
    as (_ & _ & Hrem & Hn & _).
  split; [exact Hrem|exact Hn].
Defined.

Lemma wav_input_ignores_convert_only_witness :
  is_wav (mkPath ["a.WAV"]) = true
  /\ process_file sample_world (with_convert_wav_only true default_args) 3
       (mkPath ["a.WAV"])
     = process_file sample_world (with_convert_wav_only false default_args) 3
         (mkPath ["a.WAV"]).
Proof.
  split; [vm_compute; reflexivity|].
  apply (wav_input_ignores_convert_only sample_world default_args 3 (mkPath ["a.WAV"])).
  vm_compute; reflexivity.
Defined.
(** ** Witnesses of the further properties *)

Lemma run_effects_confined_witness :
  Unlink (mkPath ["c.wav"]) ∈ (run sample_world default_args).2
  /\ keep_wav_files default_args = false
  /\ is_file_at_cleanup sample_world (mkPath ["c.wav"]) = true.
Proof.
  assert (Hin : Unlink (mkPath ["c.wav"]) ∈ (run sample_world default_args).2).
  { vm_compute. repeat constructor. }
  split; [exact Hin|].
  pose proof (run_effects_confined sample_world default_args _ Hin) as (Hk & Hf & _).
  by split.
Defined.

Lemma keep_wav_files_deletes_nothing_witness :
  keep_wav_files keep_args = true
  /\ Forall (fun e => is_unlink e = false) (run sample_world keep_args).2.
Proof.
  split; [reflexivity|].
  apply (keep_wav_files_deletes_nothing sample_world keep_args). reflexivity.
Defined.

Lemma file_count_only_witness :
  file_count count_args = true
  /\ run sample_world count_args
     = (Normal tt,
        [Print (MsgStartingFrom (start count_args));
         Print (MsgTotalFiles
                  (Z.of_nat (length (discover sample_world count_args))))]).
Proof.
  split; [reflexivity|].
  apply (file_count_only sample_world count_args). reflexivity.
Defined.

Lemma empty_queue_out_of_range_witness :
  file_count default_args = false
  /\ discover empty_world default_args = []
  /\ run empty_world default_args
     = (Normal tt,
        [Print (MsgStartingFrom (start default_args)); Print MsgStartOutOfRange]).
Proof.
  split; [reflexivity|]. split; [vm_compute; reflexivity|].
  apply (empty_queue_out_of_range empty_world default_args);
    [reflexivity|vm_compute; reflexivity].
Defined.

Lemma single_file_queue_witness :
  single_file single_args = Some "talk.mp3"
  /\ Py.truthy "talk.mp3" = true
  /\ discover sample_world single_args = [mkPath ["talk.mp3"]]
  /\ run sample_world single_args
     = (Normal tt,
        [Print (MsgStartingFrom (start single_args)); Print MsgStartOutOfRange]).
Proof.
  split; [reflexivity|]. split; [reflexivity|].
  destruct (single_file_queue sample_world single_args "talk.mp3" eq_refl eq_refl)
    as [Hq Hrun].
  split; [exact Hq|]. apply Hrun; [reflexivity|discriminate].
Defined.

Lemma passed_over_files_witness :
  Forall (fun f => passed_over trouble_world f = true)
    [mkPath ["00. Professor.avi"]; mkPath ["gone.mp3"]]
  /\ for_each (process_file trouble_world default_args 4)
       [mkPath ["00. Professor.avi"]; mkPath ["gone.mp3"]] 1
     = (Normal tt, 3,
        [Print (MsgSkipping "00. Professor.avi"); Print MsgFileNoLongerExists]).
Proof.
  assert (Hall : Forall (fun f => passed_over trouble_world f = true)
                   [mkPath ["00. Professor.avi"]; mkPath ["gone.mp3"]]).
  { repeat constructor. }
  split; [exact Hall|].
  exact (passed_over_files trouble_world default_args 4 _ 1 Hall).
Defined.

Lemma convert_only_stops_after_conversion_witness :
  passed_over sample_world (mkPath ["b.mp3"]) = false
  /\ PathLib.with_suffix (mkPath ["b.mp3"]) ".wav" = Some (mkPath ["b.wav"])
  /\ is_wav (mkPath ["b.mp3"]) = false
  /\ ffmpeg_ok sample_world (mkPath ["b.mp3"]) (mkPath ["b.wav"]) = true
  /\ convert_wav_only convert_only_args = true
  /\ process_file sample_world convert_only_args 3 (mkPath ["b.mp3"]) 2
     = (Continue, 3,
        [Print (MsgProcessing 2 3 (mkPath ["b.mp3"])); Print (MsgConverting 2 3);
         Ffmpeg (mkPath ["b.mp3"]) (mkPath ["b.wav"]);
         Print (MsgConversionDone 2 3 (mkPath ["b.wav"]))]).
Proof.
  repeat (split; [vm_compute; reflexivity|]).
  apply (convert_only_stops_after_conversion sample_world convert_only_args 3
           (mkPath ["b.mp3"]) (mkPath ["b.wav"]) 2); vm_compute; reflexivity.
Defined.

Lemma conversion_failure_is_fatal_witness :
  file_count default_args = false
  /\ drop (Z.to_nat (start default_args - 1)) (discover trouble_world default_args)
     = [mkPath ["a.mp3"]] ++ mkPath ["c.ts"] :: [mkPath ["d.mp4"]; mkPath ["gone.mp3"]]
  /\ ffmpeg_ok trouble_world (mkPath ["c.ts"]) (mkPath ["c.wav"]) = false
  /\ (run trouble_world default_args).1 = Raise (CalledProcessError (mkPath ["c.ts"])).
Proof.
  split; [reflexivity|]. split; [vm_compute; reflexivity|].
  split; [vm_compute; reflexivity|].
  rewrite (conversion_failure_is_fatal trouble_world default_args
             [mkPath ["a.mp3"]] [mkPath ["d.mp4"]; mkPath ["gone.mp3"]]
             (mkPath ["c.ts"]) (mkPath ["c.wav"])).
  - reflexivity.
  - reflexivity.
  - vm_compute. split; discriminate.
  - vm_compute; reflexivity.
  - vm_compute; reflexivity.
  - vm_compute; reflexivity.
  - vm_compute; reflexivity.
  - vm_compute; reflexivity.
  - vm_compute; reflexivity.
Defined.

Lemma discovered_queue_no_duplicates_witness :
  NoDup (listdir sample_world (AUDIO_DIR default_args))
  /\ NoDup (discover sample_world default_args).
Proof.
  assert (Hnames : NoDup (listdir sample_world (AUDIO_DIR default_args))).
  { refine (bool_decide_unpack _ _). vm_compute. exact I. }
  split; [exact Hnames|].
  exact (discovered_queue_no_duplicates sample_world default_args Hnames).
Defined.

Lemma outputs_named_after_input_witness :
  PathLib.with_suffix (mkPath ["talks"; "a.tar.Mp3"]) ".wav"
  = Some (mkPath ["talks"; "a.tar.wav"])
  /\ PathLib.with_suffix (mkPath ["talks"; "a.tar.wav"]) ".txt"
     = Some (mkPath ["talks"; "a.tar.txt"])
  /\ PathLib.with_suffix (mkPath ["talks"; "a.tar.wav"]) ".srt"
     = Some (mkPath ["talks"; "a.tar.srt"])
  /\ stem (mkPath ["talks"; "a.tar.srt"]) = stem (mkPath ["talks"; "a.tar.Mp3"])
  /\ parent_parts (mkPath ["talks"; "a.tar.txt"])
     = parent_parts (mkPath ["talks"; "a.tar.Mp3"]).
Proof.
  assert (H1 : PathLib.with_suffix (mkPath ["talks"; "a.tar.Mp3"]) ".wav"
               = Some (mkPath ["talks"; "a.tar.wav"])) by reflexivity.
  assert (H2 : PathLib.with_suffix (mkPath ["talks"; "a.tar.wav"]) ".txt"
               = Some (mkPath ["talks"; "a.tar.txt"])) by reflexivity.
  assert (H3 : PathLib.with_suffix (mkPath ["talks"; "a.tar.wav"]) ".srt"
               = Some (mkPath ["talks"; "a.tar.srt"])) by reflexivity.
  destruct (outputs_named_after_input _ _ _ _ H1 H2 H3)
    as (_ & (Hp & _ & _) & (_ & Hs & _)).
  repeat split; assumption.
Defined.

Lemma run_touches_only_outputs_witness :
  Ffmpeg (mkPath ["b.mp3"]) (mkPath ["b.wav"]) ∈ (run sample_world default_args).2
  /\ is_wav (mkPath ["b.mp3"]) = false
  /\ PathLib.suffix (mkPath ["b.wav"]) = ".wav".
Proof.
  assert (Hin : Ffmpeg (mkPath ["b.mp3"]) (mkPath ["b.wav"])
                ∈ (run sample_world default_args).2).
  { vm_compute. repeat constructor. }
  split; [exact Hin|].
  exact (run_touches_only_outputs sample_world default_args _ Hin).
Defined.


Lemma outputs_written_iff_witness :
  passed_over sample_world (mkPath ["a.WAV"]) = false
  /\ PathLib.with_suffix (mkPath ["a.WAV"]) ".wav" = Some (mkPath ["a.wav"])
  /\ Py.int (Py.or_zero (Some 12.5%float)) = Ok 12
  /\ raised (consume_segments loop_init sample_segments) = None
  /\ ((exists e, e ∈ trace_of (process_file sample_world default_args 3
                                (mkPath ["a.WAV"])) 1
                 /\ is_write e = true)
      <-> (List.filter has_text sample_segments <> []
           /\ sum_updates (pbar_updates (consume_segments loop_init sample_segments))
              < 12)).
Proof.
  assert (Htotal : Py.int (Py.or_zero (Some 12.5%float)) = Ok 12)
    by (vm_compute; reflexivity).
  assert (Hok : raised (consume_segments loop_init sample_segments) = None)
    by (vm_compute; reflexivity).
  split; [vm_compute; reflexivity|]. split; [vm_compute; reflexivity|].
  split; [exact Htotal|]. split; [exact Hok|].
  exact (outputs_written_iff sample_world default_args 3 (mkPath ["a.WAV"])
           (mkPath ["a.wav"]) 1 false 12 eq_refl eq_refl eq_refl Htotal Hok).
Defined.

Lemma timestamp_reads_back_witness :
  float_finite 3661.25 = true
  /\ (0 <= float_value 3661.25)%Q
  /\ exists (s : string) (millis : Z),
       format_srt_time 3661.25 = Ok s
       /\ parse_srt_time s = Some millis
       /\ Qfloor (float_value 3661.25 * 1000) <= millis.
Proof.
  assert (Hfin : float_finite 3661.25 = true) by (vm_compute; reflexivity).
  assert (Hpos : (0 <= float_value 3661.25)%Q) by (vm_compute; discriminate).
  split; [exact Hfin|]. split; [exact Hpos|].
  destruct (timestamp_reads_back 3661.25 Hfin Hpos)
    as (s & millis & Hfmt & Hparse & [Hlo _] & _).
  exists s, millis. split; [exact Hfmt|]. split; [exact Hparse|exact Hlo].
Defined.

Lemma documents_line_by_line_witness :
  raised (consume_segments loop_init sample_segments) = None
  /\ List.filter has_text sample_segments <> []
  /\ Forall (fun seg => one_line (seg_text seg) = true)
       (List.filter has_text sample_segments)
  /\ lines_of (Py.join Py.newline
                 (txt_lines (consume_segments loop_init sample_segments)))
     = seg_text <$> List.filter has_text sample_segments.
Proof.
  assert (Hok : raised (consume_segments loop_init sample_segments) = None)
    by (vm_compute; reflexivity).
  assert (Hne : List.filter has_text sample_segments <> []) by discriminate.
  assert (Hall : Forall (fun seg => one_line (seg_text seg) = true)
                   (List.filter has_text sample_segments)).
  { repeat constructor. }
  split; [exact Hok|]. split; [exact Hne|]. split; [exact Hall|].
  exact (proj1 (documents_line_by_line sample_segments Hok Hne Hall)).
Defined.

Lemma documents_written_once_after_loop_witness :
  passed_over sample_world (mkPath ["c.ts"]) = false
  /\ PathLib.with_suffix (mkPath ["c.ts"]) ".wav" = Some (mkPath ["c.wav"])
  /\ Py.int (Py.or_zero (transcribe sample_world (mkPath ["c.wav"])
                           (transcribe_options default_args)).2) = Ok 12
  /\ raised (consume_segments loop_init
               (transcribe sample_world (mkPath ["c.wav"])
                  (transcribe_options default_args)).1) = None
  /\ 0 < 12 - pbar_n (consume_segments loop_init
                        (transcribe sample_world (mkPath ["c.wav"])
                           (transcribe_options default_args)).1)
  /\ exists before after out_txt out_srt blocks,
       blocks_from 1
         (List.filter has_text
            (transcribe sample_world (mkPath ["c.wav"])
               (transcribe_options default_args)).1) = Ok blocks
       /\ trace_of (process_file sample_world default_args 3 (mkPath ["c.ts"])) 3
          = before
              ++ [WriteText out_txt
                    (Py.join Py.newline
                       (seg_text
                          <$> List.filter has_text
                                (transcribe sample_world (mkPath ["c.wav"])
                                   (transcribe_options default_args)).1));
                  WriteText out_srt (Py.join Py.newline blocks)]
              ++ after
       /\ PbarAudioClose ∈ before.
Proof.
  assert (Hp : passed_over sample_world (mkPath ["c.ts"]) = false)
    by (vm_compute; reflexivity).
  assert (Hwav : PathLib.with_suffix (mkPath ["c.ts"]) ".wav"
                 = Some (mkPath ["c.wav"])) by (vm_compute; reflexivity).
  assert (Hconv : outcome_of (convert_stage sample_world default_args 3
                                (mkPath ["c.ts"]) (mkPath ["c.wav"])) 3
                  = Normal true) by (vm_compute; reflexivity).
  assert (Htotal : Py.int (Py.or_zero (transcribe sample_world (mkPath ["c.wav"])
                                         (transcribe_options default_args)).2)
                   = Ok 12) by (vm_compute; reflexivity).
  assert (Hok : raised (consume_segments loop_init
                          (transcribe sample_world (mkPath ["c.wav"])
                             (transcribe_options default_args)).1) = None)
    by (vm_compute; reflexivity).
  assert (Hrem : 0 < 12 - pbar_n (consume_segments loop_init
                                    (transcribe sample_world (mkPath ["c.wav"])
                                       (transcribe_options default_args)).1))
    by (vm_compute; reflexivity).
  assert (Hkept : List.filter has_text
                    (transcribe sample_world (mkPath ["c.wav"])
                       (transcribe_options default_args)).1 <> [])
    by (vm_compute; discriminate).
  split; [exact Hp|]. split; [exact Hwav|].
  split; [exact Htotal|]. split; [exact Hok|]. split; [exact Hrem|].
  destruct (documents_written_once_after_loop sample_world default_args 3
              (mkPath ["c.ts"]) (mkPath ["c.wav"]) 3 true 12
              Hp Hwav Hconv Htotal Hok Hrem Hkept)
    as (before & after & out_txt & out_srt & blocks & _ & _ & Hblocks
        & Htrace & _ & _ & _ & Hclose).
  exists before, after, out_txt, out_srt, blocks.
  split; [exact Hblocks|]. split; [exact Htrace|exact Hclose].
Defined.

Lemma wav_input_own_iteration_witness :
  is_wav (mkPath ["a.WAV"]) = true
  /\ Forall (fun e => is_ffmpeg e = false /\ is_unlink e = false)
       (trace_of (process_file sample_world default_args 3 (mkPath ["a.WAV"])) 1).
Proof.
  split; [vm_compute; reflexivity|].
  apply (wav_input_own_iteration sample_world default_args 3 (mkPath ["a.WAV"]) 1).
  vm_compute; reflexivity.
Defined.

Lemma segment_loop_completes_witness :
  Forall (fun seg =>
            float_finite (seg_start seg) = true
            /\ (0 <= float_value (seg_start seg))%Q
            /\ float_finite (seg_end seg) = true
            /\ (0 <= float_value (seg_end seg) < pow2 1000)%Q)
    (List.filter has_text sample_segments)
  /\ Sorted Qle (float_value ∘ seg_end <$> List.filter has_text sample_segments)
  /\ raised (consume_segments loop_init sample_segments) = None.
Proof.
  assert (Hall : Forall (fun seg =>
                           float_finite (seg_start seg) = true
                           /\ (0 <= float_value (seg_start seg))%Q
                           /\ float_finite (seg_end seg) = true
                           /\ (0 <= float_value (seg_end seg) < pow2 1000)%Q)
                   (List.filter has_text sample_segments)).
  { repeat constructor; vm_compute; reflexivity || discriminate. }
  assert (Hsorted : Sorted Qle (float_value ∘ seg_end
                                  <$> List.filter has_text sample_segments)).
  { repeat constructor; vm_compute; discriminate. }
  split; [exact Hall|]. split; [exact Hsorted|].
  exact (segment_loop_completes sample_segments Hall Hsorted).
Defined.
